(** * Prototype pollution: the unsafe and the safe recursive merge

    A shallow embedding of the merge functions of the repository
    ([unsafeMerge] of [src/server-vulnerable.js] and [demos/concept-demo.js],
    [safeMerge] of [fixes/server-fixed.js] and of the demo), of the two input
    validators and of the routes that call them, over a small model of the
    JavaScript object store: objects with own properties, a prototype link,
    the [__proto__] accessor of [Object.prototype], [Object.freeze] and the
    non-strict assignment the files run under (none of them opts into strict
    mode).

    Conventions of the model.  Numbers are the integers among the engine's
    doubles: the code only inspects their [typeof] and their truthiness, and
    multiplies one by 1000, a product that is rounded as the engine rounds
    it.  The properties of an object are kept in the order [Object.keys] and
    [for...in] list them.  A parsed body is a finite tree whose mappings
    have distinct keys, as [JSON.parse] produces it.  Array objects carry
    their elements and a [length] property as ordinary data properties: the
    coupling the engine keeps between the [length] of an array and its
    indices is not modelled, and the statements that speak of the effect of
    a write say so for objects that are not arrays, or for names that are
    neither [length] nor an index.  The only accessor property is
    [__proto__].  The built-ins the code calls by name ([Object.keys],
    [Object.create], [Object.freeze], [Array.isArray], [JSON.parse],
    [Function.prototype.call]) are the engine's own: none of them has been
    replaced.  The console keeps the lines the merge functions and the demo
    print; the request logging of the routes is left out. *)

From Stdlib Require Import ZArith Ascii String List Bool Lia DecimalString.
From stdpp Require Import base list.
Import ListNotations.
Open Scope string_scope.
Open Scope list_scope.
#[local] Set Warnings "-register-all".

(** ** Values and objects *)

(** Locations index the store. *)
Abbreviation loc := nat (only parsing).

Inductive value : Type :=
  | VUndef
  | VNull
  | VBool (b : bool)
  | VNum (z : Z)
  | VStr (s : string)
  | VRef (l : loc).

(** A property is a data property with its [writable] and [enumerable]
    attributes, or the [__proto__] accessor (getter and setter) that
    [Object.prototype] carries. *)
Inductive prop : Type :=
  | PData (v : value) (writable enumerable : bool)
  | PProtoAccessor.

Inductive class : Type := CObject | CArray | CFunction.

Record obj : Type := mkObj {
  props : list (string * prop);
  proto : option loc;
  extensible : bool;
  cls : class
}.

Abbreviation heap := (list obj) (only parsing).

(** Well-known objects of the realm. *)
Definition obj_proto : loc := 0.      (* Object.prototype *)
Definition func_proto : loc := 1.     (* Function.prototype *)
Definition Object_ctor : loc := 2.    (* Object *)
Definition array_proto : loc := 3.    (* Array.prototype *)
Definition string_proto : loc := 4.   (* String.prototype *)
Definition number_proto : loc := 5.   (* Number.prototype *)
Definition boolean_proto : loc := 6.  (* Boolean.prototype *)

Fixpoint lookup_prop {A : Type} (k : string) (ps : list (string * A)) : option A :=
  match ps with
  | [] => None
  | (k', p) :: rest => if String.eqb k k' then Some p else lookup_prop k rest
  end.

(** Replace the entry of [k] in place, or append it: property order is
    insertion order. *)
Fixpoint update_prop {A : Type} (k : string) (p : A) (ps : list (string * A))
  : list (string * A) :=
  match ps with
  | [] => [(k, p)]
  | (k', p') :: rest =>
      if String.eqb k k' then (k, p) :: rest else (k', p') :: update_prop k p rest
  end.

Definition own (h : heap) (l : loc) (k : string) : option prop :=
  match h !! l with
  | Some o => lookup_prop k (props o)
  | None => None
  end.

(** The first property named [k] on the prototype chain that starts at [l].
    The chain of a store of [n] objects has at most [n] links. *)
Fixpoint find_prop (fuel : nat) (h : heap) (l : loc) (k : string) : option prop :=
  match fuel with
  | O => None
  | S n =>
      match h !! l with
      | None => None
      | Some o =>
          match lookup_prop k (props o) with
          | Some p => Some p
          | None =>
              match proto o with
              | Some p => find_prop n h p k
              | None => None
              end
          end
      end
  end.

Definition index_key (i : nat) : string := NilZero.string_of_uint (Nat.to_uint i).

Definition opt_ref (p : option loc) : value :=
  match p with Some l => VRef l | None => VNull end.

Definition proto_of (h : heap) (l : loc) : option loc :=
  match h !! l with Some o => proto o | None => None end.

(** Own properties of a string primitive: [length] and its characters. *)
Definition string_own (s : string) (k : string) : option value :=
  if String.eqb k "length" then Some (VNum (Z.of_nat (String.length s)))
  else
    match List.find (fun i => String.eqb k (index_key i)) (seq 0 (String.length s)) with
    | Some i => Some (VStr (String.substring i 1 s))
    | None => None
    end.

Definition value_of_prop (receiver_proto : option loc) (p : option prop) : value :=
  match p with
  | Some (PData v _ _) => v
  | Some PProtoAccessor => opt_ref receiver_proto
  | None => VUndef
  end.

(** [target[key]] as an expression: [None] is the TypeError of reading a
    property of [undefined] or [null]. *)
Definition get (h : heap) (target : value) (k : string) : option value :=
  match target with
  | VUndef | VNull => None
  | VRef l => Some (value_of_prop (proto_of h l) (find_prop (length h) h l k))
  | VStr s =>
      match string_own s k with
      | Some v => Some v
      | None => Some (value_of_prop (Some string_proto)
                        (find_prop (length h) h string_proto k))
      end
  | VNum _ => Some (value_of_prop (Some number_proto)
                      (find_prop (length h) h number_proto k))
  | VBool _ => Some (value_of_prop (Some boolean_proto)
                       (find_prop (length h) h boolean_proto k))
  end.

Definition typeof (h : heap) (v : value) : string :=
  match v with
  | VUndef => "undefined"
  | VNull => "object"
  | VBool _ => "boolean"
  | VNum _ => "number"
  | VStr _ => "string"
  | VRef l =>
      match h !! l with
      | Some o => match cls o with CFunction => "function" | _ => "object" end
      | None => "object"
      end
  end.

Definition truthy (v : value) : bool :=
  match v with
  | VUndef | VNull => false
  | VBool b => b
  | VNum z => negb (Z.eqb z 0)
  | VStr s => negb (String.eqb s EmptyString)
  | VRef _ => true
  end.

Definition isArray (h : heap) (v : value) : bool :=
  match v with
  | VRef l => match h !! l with
              | Some o => match cls o with CArray => true | _ => false end
              | None => false
              end
  | _ => false
  end.

(** The names that are special on an array: [length] and the indices (the
    canonical decimal numerals). *)
Definition array_name (k : string) : bool :=
  String.eqb k "length"
  || match NilZero.uint_of_string k with
     | Some u => String.eqb k (index_key (Nat.of_uint u))
     | None => false
     end.

(** ** Assignment *)

(** Outcome of the internal [[Set]] operation. *)
Inductive set_result : Type :=
  | SetOk (h : heap)      (* the store after a successful write *)
  | SetRejected           (* [[Set]] returned false *)
  | SetThrow.             (* a TypeError was raised *)

Definition with_props (o : obj) (ps : list (string * prop)) : obj :=
  mkObj ps (proto o) (extensible o) (cls o).

Definition with_proto (o : obj) (p : option loc) : obj :=
  mkObj (props o) p (extensible o) (cls o).

(** Does the prototype chain that starts at [p] pass through [l]? *)
Fixpoint chain_reaches (fuel : nat) (h : heap) (p : option loc) (l : loc) : bool :=
  match fuel with
  | O => false
  | S n =>
      match p with
      | None => false
      | Some q =>
          if Nat.eqb q l then true
          else chain_reaches n h (proto_of h q) l
      end
  end.

Definition opt_loc_eqb (a b : option loc) : bool :=
  match a, b with
  | Some x, Some y => Nat.eqb x y
  | None, None => true
  | _, _ => false
  end.

(** The setter of [__proto__] called on object [l].  The prototype of a
    non-extensible object, and that of [Object.prototype], cannot change. *)
Definition set_prototype (h : heap) (l : loc) (v : value) : set_result :=
  let change (p : option loc) :=
    match h !! l with
    | None => SetOk h
    | Some o =>
        if opt_loc_eqb (proto o) p then SetOk h
        else if negb (extensible o) || Nat.eqb l obj_proto then SetThrow
        else if chain_reaches (length h) h p l then SetThrow
        else SetOk (<[l := with_proto o p]> h)
    end in
  match v with
  | VRef p => change (Some p)
  | VNull => change None
  | _ => SetOk h
  end.

(** Write [k := v] on the receiver [l] itself, once the chain walk has
    allowed it. *)
Definition define_own (h : heap) (l : loc) (k : string) (v : value) : set_result :=
  match h !! l with
  | None => SetRejected
  | Some o =>
      match lookup_prop k (props o) with
      | Some (PData _ true e) =>
          SetOk (<[l := with_props o (update_prop k (PData v true e) (props o))]> h)
      | Some (PData _ false _) => SetRejected
      | Some PProtoAccessor => SetRejected
      | None =>
          if extensible o
          then SetOk (<[l := with_props o (update_prop k (PData v true true) (props o))]> h)
          else SetRejected
      end
  end.

Definition ordinary_set (h : heap) (target : value) (k : string) (v : value)
  : set_result :=
  match target with
  | VUndef | VNull => SetThrow
  | VRef l =>
      match find_prop (length h) h l k with
      | Some PProtoAccessor => set_prototype h l v
      | Some (PData _ false _) => SetRejected
      | Some (PData _ true _) | None => define_own h l k v
      end
  | VStr s =>
      match string_own s k with
      | Some _ => SetRejected
      | None =>
          match find_prop (length h) h string_proto k with
          | Some PProtoAccessor => SetOk h
          | _ => SetRejected
          end
      end
  | VNum _ =>
      match find_prop (length h) h number_proto k with
      | Some PProtoAccessor => SetOk h
      | _ => SetRejected
      end
  | VBool _ =>
      match find_prop (length h) h boolean_proto k with
      | Some PProtoAccessor => SetOk h
      | _ => SetRejected
      end
  end.

(** [target[k] = v] as a statement.  In strict code a rejected write raises
    a TypeError; in non-strict code it is dropped without a trace.  [None]
    is the TypeError. *)
Definition assign (strict : bool) (h : heap) (target : value) (k : string) (v : value)
  : option heap :=
  match ordinary_set h target k v with
  | SetOk h' => Some h'
  | SetRejected => if strict then None else Some h
  | SetThrow => None
  end.

(** [Object.freeze(o)]: no new properties, no writable data property. *)
Definition freeze_prop (p : prop) : prop :=
  match p with
  | PData v _ e => PData v false e
  | PProtoAccessor => PProtoAccessor
  end.

Definition freeze_obj (o : obj) : obj :=
  mkObj (map (fun kp => (fst kp, freeze_prop (snd kp))) (props o)) (proto o) false (cls o).

Definition Object_freeze (h : heap) (l : loc) : heap :=
  match h !! l with
  | Some o => <[l := freeze_obj o]> h
  | None => h
  end.

Definition frozen (o : obj) : bool :=
  negb (extensible o) &&
  forallb (fun kp => match snd kp with PData _ w _ => negb w | PProtoAccessor => true end)
          (props o).

(** ** Parsed JSON and the state of a run *)

(** The result of [JSON.parse] (the request body): a finite tree.  The
    entries of [JObj] are the object's own properties in [Object.keys]
    order; a JSON text key [__proto__] becomes an own data property. *)
Inductive json : Type :=
  | JNull
  | JBool (b : bool)
  | JNum (z : Z)
  | JStr (s : string)
  | JArr (xs : list json)
  | JObj (kvs : list (string * json)).

Record state : Type := mkState {
  st_heap : heap;
  console : list string   (* lines written by console.log / console.warn *)
}.

(** A computation either completes or throws; the store it leaves behind is
    kept in both cases. *)
Inductive completion (A : Type) : Type :=
  | Normal (a : A) (st : state)
  | Thrown (err : string) (st : state).
Arguments Normal {A} a st.
Arguments Thrown {A} err st.

Definition M (A : Type) : Type := state -> completion A.

Definition ret {A : Type} (a : A) : M A := fun st => Normal a st.

Definition bind {A B : Type} (m : M A) (f : A -> M B) : M B :=
  fun st =>
    match m st with
    | Normal a st' => f a st'
    | Thrown e st' => Thrown e st'
    end.

Declare Scope js_scope.
Delimit Scope js_scope with js.
Notation "'let*' x := m 'in' k" := (bind m (fun x => k))
  (at level 10, x name, m at level 100, k at level 200) : js_scope.
Notation "m ;; k" := (bind m (fun _ => k))
  (at level 100, k at level 200, right associativity) : js_scope.
Open Scope js_scope.

Definition final_state {A : Type} (c : completion A) : state :=
  match c with Normal _ st => st | Thrown _ st => st end.

Definition completed {A : Type} (c : completion A) : bool :=
  match c with Normal _ _ => true | Thrown _ _ => false end.

Definition TypeError : string := "TypeError".

(** [target[k]] *)
Definition getM (target : value) (k : string) : M value :=
  fun st =>
    match get (st_heap st) target k with
    | Some v => Normal v st
    | None => Thrown TypeError st
    end.

(** [target[k] = v] in non-strict code. *)
Definition putM (target : value) (k : string) (v : value) : M unit :=
  fun st =>
    match assign false (st_heap st) target k v with
    | Some h' => Normal tt (mkState h' (console st))
    | None => Thrown TypeError st
    end.

Definition allocM (o : obj) : M value :=
  fun st => Normal (VRef (length (st_heap st)))
                   (mkState (st_heap st ++ [o])%list (console st)).

(** The object [Object.create(null)] returns: no property, no prototype. *)
Definition null_object : obj := mkObj [] None true CObject.

(** [Object.create(null)] *)
Definition Object_create_null : M value := allocM null_object.

(** The object literal [{}] *)
Definition new_object : M value := allocM (mkObj [] (Some obj_proto) true CObject).

Definition printM (line : string) : M unit :=
  fun st => Normal tt (mkState (st_heap st) (console st ++ [line])%list).

Definition freezeM (target : value) : M unit :=
  fun st =>
    match target with
    | VRef l => Normal tt (mkState (Object_freeze (st_heap st) l) (console st))
    | _ => Normal tt st
    end.

Definition typeofM (v : value) : M string :=
  fun st => Normal (typeof (st_heap st) v) st.

(** [Object.prototype.hasOwnProperty.call(target, k)], the built-in. *)
Definition hasOwnPropertyM (target : value) (k : string) : M bool :=
  fun st =>
    match target with
    | VUndef | VNull => Thrown TypeError st
    | VRef l => Normal (match own (st_heap st) l k with Some _ => true | None => false end) st
    | VStr s => Normal (match string_own s k with Some _ => true | None => false end) st
    | VNum _ | VBool _ => Normal false st
    end.

(** ** Bringing a parsed tree into the store *)

Definition is_container (j : json) : bool :=
  match j with JArr _ | JObj _ => true | _ => false end.

Definition scalar_value (j : json) : value :=
  match j with
  | JBool b => VBool b
  | JNum z => VNum z
  | JStr s => VStr s
  | _ => VNull
  end.

(** [JSON.parse] builds objects bottom-up; every object it creates inherits
    from [Object.prototype], every array from [Array.prototype]. *)
Fixpoint alloc_json (j : json) (h : heap) : value * heap :=
  match j with
  | JNull => (VNull, h)
  | JBool b => (VBool b, h)
  | JNum z => (VNum z, h)
  | JStr s => (VStr s, h)
  | JArr xs =>
      let fix elems (xs : list json) (i : nat) (h : heap)
        : list (string * prop) * heap :=
        match xs with
        | [] => ([], h)
        | x :: rest =>
            let '(v, h1) := alloc_json x h in
            let '(ps, h2) := elems rest (S i) h1 in
            ((index_key i, PData v true true) :: ps, h2)
        end in
      let '(ps, h') := elems xs 0 h in
      let len := PData (VNum (Z.of_nat (length xs))) true false in
      (VRef (length h'),
       h' ++ [mkObj (ps ++ [("length", len)]) (Some array_proto) true CArray])
  | JObj kvs =>
      let fix fields (kvs : list (string * json)) (h : heap)
        : list (string * prop) * heap :=
        match kvs with
        | [] => ([], h)
        | (k, x) :: rest =>
            let '(v, h1) := alloc_json x h in
            let '(ps, h2) := fields rest h1 in
            ((k, PData v true true) :: ps, h2)
        end in
      let '(ps, h') := fields kvs h in
      (VRef (length h'), h' ++ [mkObj ps (Some obj_proto) true CObject])
  end.

Definition JSON_parse (j : json) : M value :=
  fun st =>
    let '(v, h') := alloc_json j (st_heap st) in
    Normal v (mkState h' (console st)).

Fixpoint alloc_elems (xs : list json) (i : nat) (h : heap) : list (string * prop) * heap :=
  match xs with
  | [] => ([], h)
  | x :: rest =>
      let '(v, h1) := alloc_json x h in
      let '(ps, h2) := alloc_elems rest (S i) h1 in
      ((index_key i, PData v true true) :: ps, h2)
  end.

Fixpoint alloc_fields (kvs : list (string * json)) (h : heap) : list (string * prop) * heap :=
  match kvs with
  | [] => ([], h)
  | (k, x) :: rest =>
      let '(v, h1) := alloc_json x h in
      let '(ps, h2) := alloc_fields rest h1 in
      ((k, PData v true true) :: ps, h2)
  end.

Definition array_object (n : nat) (ps : list (string * prop)) : obj :=
  mkObj (ps ++ [("length", PData (VNum (Z.of_nat n)) true false)])
        (Some array_proto) true CArray.

Definition plain_object (ps : list (string * prop)) : obj :=
  mkObj ps (Some obj_proto) true CObject.

(** ** [unsafeMerge] (src/server-vulnerable.js, demos/concept-demo.js) *)

Definition is_enumerable (p : prop) : bool :=
  match p with PData _ _ e => e | PProtoAccessor => false end.

Definition mem_string (k : string) (ks : list string) : bool :=
  existsb (String.eqb k) ks.

(** The keys a [for...in] loop visits on the chain that starts at [p]: the
    enumerable properties of each object of the chain, nearest first, a name
    being visited only where it is first defined. *)
Fixpoint for_in_chain (fuel : nat) (h : heap) (p : option loc) (seen : list string)
  : list string :=
  match fuel with
  | O => []
  | S n =>
      match p with
      | None => []
      | Some l =>
          match h !! l with
          | None => []
          | Some o =>
              map fst (filter (fun kp => is_enumerable (snd kp)
                                         && negb (mem_string (fst kp) seen))
                              (props o))
              ++ for_in_chain n h (proto o) (seen ++ map fst (props o))
          end
      end
  end.

Definition for_in_keys (h : heap) (source : value) : list string :=
  match source with
  | VUndef | VNull => []
  | VRef l => for_in_chain (length h) h (Some l) []
  | VStr s =>
      let idx := map index_key (seq 0 (String.length s)) in
      idx ++ for_in_chain (length h) h (Some string_proto) ("length" :: idx)
  | VNum _ => for_in_chain (length h) h (Some number_proto) []
  | VBool _ => for_in_chain (length h) h (Some boolean_proto) []
  end.

Definition for_in_keysM (source : value) : M (list string) :=
  fun st => Normal (for_in_keys (st_heap st) source) st.

Definition enumerable_keys (seen : list string) (o : obj) : list string :=
  map fst (filter (fun kp => is_enumerable (snd kp) && negb (mem_string (fst kp) seen))
                  (props o)).

Definition throwM {A : Type} (err : string) : M A := fun st => Thrown err st.

Definition RangeError : string := "RangeError".

Definition is_null (v : value) : bool :=
  match v with VNull => true | _ => false end.

(** The body of the [for...in] loop, for one key; [self] stands for the
    recursive call. *)
Definition unsafeMerge_step (self : value -> value -> M value)
    (target source : value) (key : string) : M unit :=
  let* v := getM source key in
  let* ty := typeofM v in
  if String.eqb ty "object" && negb (is_null v)
  then
    (let* tv := getM target key in
     if negb (truthy tv)
     then (let* o := new_object in putM target key o)
     else ret tt) ;;
    let* tv' := getM target key in
    let* sv := getM source key in
    self tv' sv ;; ret tt
  else
    putM target key v.

(** [fuel] is the depth of the call stack that is left; running out of it
    is the engine's RangeError. *)
Fixpoint unsafeMerge (fuel : nat) (target source : value) : M value :=
  match fuel with
  | O => throwM RangeError
  | S n =>
      let fix loop (keys : list string) : M unit :=
        match keys with
        | [] => ret tt
        | key :: rest => unsafeMerge_step (unsafeMerge n) target source key ;; loop rest
        end in
      let* keys := for_in_keysM source in
      loop keys ;;
      ret target
  end.

(** The loop of [unsafeMerge], named. *)
Definition unsafeMerge_key (n : nat) (target source : value) (key : string) : M unit :=
  unsafeMerge_step (unsafeMerge n) target source key.

Fixpoint unsafeMerge_keys (n : nat) (target source : value) (keys : list string) : M unit :=
  match keys with
  | [] => ret tt
  | key :: rest => unsafeMerge_key n target source key ;; unsafeMerge_keys n target source rest
  end.

(** ** [safeMerge] (fixes/server-fixed.js) *)

Definition DANGEROUS_KEYS : list string := ["__proto__"; "constructor"; "prototype"].

Definition DANGEROUS_KEYS_has (key : string) : bool := mem_string key DANGEROUS_KEYS.

Definition dquote : string := String (Ascii.ascii_of_nat 34) EmptyString.

Definition quoted (key : string) : string :=
  String.append dquote (String.append key dquote).

Definition blocked_warning (key : string) : string :=
  String.append "[SECURITY] Blocked dangerous key: " (quoted key).

(** [Object.keys] and the own-property reads of a string primitive. *)
Definition string_entries (s : string) : list (string * value) :=
  map (fun i => (index_key i, VStr (String.substring i 1 s))) (seq 0 (String.length s)).

Fixpoint put_all (target : value) (kvs : list (string * value)) : M unit :=
  match kvs with
  | [] => ret tt
  | (k, v) :: rest => putM target k v ;; put_all target rest
  end.

(** The body of the [for] loop, for one own entry [key], [v] of the source;
    [self] stands for the recursive call on [v].  An array (or a scalar)
    that the [else] branch stores enters the store at that point. *)
Definition safeMerge_step (self : value -> M value)
    (target : value) (key : string) (v : json) : M unit :=
  if DANGEROUS_KEYS_has key
  then printM (blocked_warning key)
  else
    match v with
    | JObj _ =>
        (let* tv := getM target key in
         let* ty := typeofM tv in
         if negb (truthy tv) || negb (String.eqb ty "object")
         then (let* o := Object_create_null in putM target key o)
         else ret tt) ;;
        let* tv' := getM target key in
        self tv' ;; ret tt
    | _ =>
        let* x := JSON_parse v in
        putM target key x
    end.

(** The source is the parsed request body.  [safeMerge] reads it only
    through [Object.keys] and through [source[key]] for such a key, that is
    through its own entries, so the tree itself stands for it. *)
Fixpoint safeMerge (target : value) (source : json) {struct source} : M value :=
  match source with
  | JObj kvs =>
      (fix each (kvs : list (string * json)) : M unit :=
         match kvs with
         | [] => ret tt
         | (key, v) :: rest =>
             safeMerge_step (fun t => safeMerge t v) target key v ;; each rest
         end) kvs ;;
      ret target
  | JArr xs =>
      (fix each (i : nat) (xs : list json) : M unit :=
         match xs with
         | [] => ret tt
         | v :: rest =>
             safeMerge_step (fun t => safeMerge t v) target (index_key i) v ;;
             each (S i) rest
         end) 0 xs ;;
      ret target
  | JStr s =>
      (* keys of a string are its indices, never a denied key *)
      put_all target (string_entries s) ;;
      ret target
  | JNull => throwM TypeError      (* Object.keys(null) *)
  | JBool _ | JNum _ => ret target
  end.

(** The loops of [safeMerge], named. *)
Definition safeMerge_entry (target : value) (key : string) (v : json) : M unit :=
  safeMerge_step (fun t => safeMerge t v) target key v.

Fixpoint safeMerge_fields (target : value) (kvs : list (string * json)) : M unit :=
  match kvs with
  | [] => ret tt
  | (key, v) :: rest => safeMerge_entry target key v ;; safeMerge_fields target rest
  end.

Fixpoint safeMerge_elems (target : value) (i : nat) (xs : list json) : M unit :=
  match xs with
  | [] => ret tt
  | v :: rest => safeMerge_entry target (index_key i) v ;; safeMerge_elems target (S i) rest
  end.

(** ** The realm at start-up *)

Definition builtin (v : value) : prop := PData v true false.

Definition builtin_function : obj := mkObj [] (Some func_proto) true CFunction.

Definition Object_prototype : obj :=
  mkObj [("constructor", builtin (VRef Object_ctor));
         ("__proto__", PProtoAccessor);
         ("hasOwnProperty", builtin (VRef 7));
         ("toString", builtin (VRef 8));
         ("valueOf", builtin (VRef 9))] None true CObject.

(** The part of a fresh realm the merges can reach: [Object.prototype] with
    its [constructor], its [__proto__] accessor and three of its methods, the
    [Object] function, and the prototypes of arrays and of the wrappers. *)
Definition realm : heap :=
  [ (* 0 *) Object_prototype;
    (* 1 *) mkObj [] (Some obj_proto) true CFunction;
    (* 2 *) mkObj [("prototype", PData (VRef obj_proto) false false)]
                  (Some func_proto) true CFunction;
    (* 3 *) mkObj [("length", PData (VNum 0) true false)] (Some obj_proto) true CArray;
    (* 4 *) mkObj [] (Some obj_proto) true CObject;
    (* 5 *) mkObj [] (Some obj_proto) true CObject;
    (* 6 *) mkObj [] (Some obj_proto) true CObject;
    (* 7 *) builtin_function;
    (* 8 *) builtin_function;
    (* 9 *) builtin_function ].

Definition start : state := mkState realm [].

(** The store in which [Object.freeze(Object.prototype)] has run
    (fixes/server-fixed.js, at start-up). *)
Definition install (st : state) : state :=
  mkState (Object_freeze (st_heap st) obj_proto) (console st).

Definition print_state (st : state) (line : string) : state :=
  mkState (st_heap st) (console st ++ [line]).

Definition alloc_state (st : state) (o : obj) : state :=
  mkState (st_heap st ++ [o]) (console st).

Definition parse_state (st : state) (j : json) : state :=
  mkState (snd (alloc_json j (st_heap st))) (console st).

(** [obj.key] read in a state; a TypeError reads as [undefined] here, this
    helper being applied to objects only. *)
Definition read (st : state) (target : value) (k : string) : value :=
  match get (st_heap st) target k with Some v => v | None => VUndef end.

(** Induction on parsed trees, with the hypothesis for every child. *)
Section json_induction.
Variable P : json -> Prop.
Hypothesis HNull : P JNull.
Hypothesis HBool : forall b, P (JBool b).
Hypothesis HNum : forall z, P (JNum z).
Hypothesis HStr : forall s, P (JStr s).
Hypothesis HArr : forall xs, Forall P xs -> P (JArr xs).
Hypothesis HObj : forall kvs, Forall (fun kv => P (snd kv)) kvs -> P (JObj kvs).

Fixpoint json_ind' (j : json) : P j :=
  match j with
  | JNull => HNull
  | JBool b => HBool b
  | JNum z => HNum z
  | JStr s => HStr s
  | JArr xs =>
      HArr xs ((fix go (xs : list json) : Forall P xs :=
                  match xs with
                  | [] => @List.Forall_nil json P
                  | x :: r => @List.Forall_cons json P x r (json_ind' x) (go r)
                  end) xs)
  | JObj kvs =>
      HObj kvs ((fix go (kvs : list (string * json))
                   : Forall (fun kv => P (snd kv)) kvs :=
                   match kvs with
                   | [] => @List.Forall_nil _ _
                   | kv :: r => @List.Forall_cons _ _ kv r (json_ind' (snd kv)) (go r)
                   end) kvs)
  end.
End json_induction.

(** Every property name that occurs in a parsed tree, array indices and
    [length] included. *)
Fixpoint keys_deep (j : json) : list string :=
  match j with
  | JArr xs =>
      "length" :: map index_key (seq 0 (length xs))
      ++ (fix go (xs : list json) : list string :=
            match xs with [] => [] | x :: r => keys_deep x ++ go r end) xs
  | JObj kvs =>
      (fix go (kvs : list (string * json)) : list string :=
         match kvs with [] => [] | (k, v) :: r => k :: keys_deep v ++ go r end) kvs
  | _ => []
  end.

(** The names [safeMerge] can read or write for a source: those of the tree,
    and the indices of a source that is a string. *)
Definition source_keys (source : json) : list string :=
  match source with
  | JStr s => map fst (string_entries s)
  | _ => keys_deep source
  end.

(** ** [safeMerge] of demos/concept-demo.js *)

Module Demo.

Definition BLOCKED : list string := ["__proto__"; "constructor"; "prototype"].

Definition BLOCKED_has (key : string) : bool := mem_string key BLOCKED.

Definition blocked_line (key : string) : string :=
  String.append "  [BLOCKED] Dangerous key detected and skipped: " (quoted key).

(** Arrays are objects for [typeof]: this variant descends into them. *)
Fixpoint safeMerge (target : value) (source : json) {struct source} : M value :=
  let one (key : string) (v : json) : M unit :=
    if BLOCKED_has key
    then printM (blocked_line key)
    else
      match v with
      | JObj _ | JArr _ =>
          let* tv := getM target key in
          let* t0 := (if truthy tv then ret tv else Object_create_null) in
          let* r := safeMerge t0 v in
          putM target key r
      | _ => putM target key (scalar_value v)
      end in
  match source with
  | JObj kvs =>
      (fix each (kvs : list (string * json)) : M unit :=
         match kvs with
         | [] => ret tt
         | (key, v) :: rest => one key v ;; each rest
         end) kvs ;;
      ret target
  | JArr xs =>
      (fix each (i : nat) (xs : list json) : M unit :=
         match xs with
         | [] => ret tt
         | v :: rest => one (index_key i) v ;; each (S i) rest
         end) 0 xs ;;
      ret target
  | JStr s => put_all target (string_entries s) ;; ret target
  | JNull => throwM TypeError
  | JBool _ | JNum _ => ret target
  end.

(** The text of a value inside a template literal. *)
Definition show_value (v : value) : string :=
  match v with
  | VUndef => "undefined"
  | VNull => "null"
  | VBool true => "true"
  | VBool false => "false"
  | VStr s => s
  | VNum z => if Z.ltb z 0
              then String.append "-" (index_key (Z.to_nat (Z.abs z)))
              else index_key (Z.to_nat z)
  | VRef _ => "[object Object]"
  end.

(** Defense 3: the assignment inside [try], after the freeze, in this
    non-strict script. *)
Definition defense3 : M unit :=
  freezeM (VRef obj_proto) ;;
  fun st =>
    match (putM (VRef obj_proto) "isAdmin" (VBool true) ;;
           let* v := getM (VRef obj_proto) "isAdmin" in
           printM (String.append "  After freeze attempt: Object.prototype.isAdmin = "
                                 (show_value v))) st with
    | Normal a st' => Normal a st'
    | Thrown e st' =>
        printM (String.append "  ✅ TypeError thrown: "
                              (String.append (quoted e) " — prototype is frozen!"))
               st'
    end.

End Demo.

(** ** Responses *)

Record response : Type := Response {
  status : nat;
  message : string;          (* the [error], [message] or [access] field *)
  details : list string
}.

(** ** The vulnerable server (src/server-vulnerable.js) *)

Module Vulnerable.

(** POST /api/update-profile, given the property key [username] of the
    request (empty when the field is absent or falsy) and its [updates]
    field ([None] when absent), which the JSON middleware has parsed.
    [users] is the in-memory table. *)
Definition update_profile (fuel : nat) (users : value) (username : string)
    (updates : option json) : M response :=
  let* source := match updates with
                 | Some j => JSON_parse j
                 | None => ret VUndef
                 end in
  let* user := getM users username in
  if String.eqb username EmptyString || negb (truthy user)
  then ret (Response 404 "User not found" [])
  else
    unsafeMerge fuel user source ;;
    ret (Response 200 "Profile updated" []).

(** GET /api/admin *)
Definition admin : M response :=
  let* user := new_object in
  let* isAdmin := getM user "isAdmin" in
  let* role := getM user "role" in
  if truthy isAdmin || (match role with VStr r => String.eqb r "admin" | _ => false end)
  then ret (Response 200 "GRANTED" [])
  else ret (Response 403 "DENIED" []).

End Vulnerable.

(** ** The patched server (fixes/server-fixed.js) *)

Module Fixed.

Definition ALLOWED_KEYS : list string := ["displayName"; "email"; "bio"; "avatar"].

Definition ALLOWED_KEYS_has (key : string) : bool := mem_string key ALLOWED_KEYS.

Definition json_truthy (j : json) : bool :=
  match j with
  | JNull => false
  | JBool b => b
  | JNum z => negb (Z.eqb z 0)
  | JStr s => negb (String.eqb s EmptyString)
  | JArr _ | JObj _ => true
  end.

(** [Object.keys(x)] for a parsed value that is not [null]. *)
Definition Object_keys (j : json) : list string :=
  match j with
  | JObj kvs => map fst kvs
  | JArr xs => map index_key (seq 0 (length xs))
  | JStr s => map index_key (seq 0 (String.length s))
  | _ => []
  end.

Definition forbidden_error (key : string) : string :=
  String.append "Forbidden key: " (quoted key).

Definition unknown_error (key : string) : string :=
  String.append "Unknown key: "
    (String.append (quoted key)
       " — only allowed: displayName, email, bio, avatar").

(** [updates] is [None] when the request has no such field. *)
Definition validateProfileUpdates (updates : option json) : list string :=
  let keys :=
    match updates with
    | Some j => if json_truthy j then Object_keys j else []
    | None => []
    end in
  flat_map (fun key =>
              if DANGEROUS_KEYS_has key then [forbidden_error key]
              else if negb (ALLOWED_KEYS_has key) then [unknown_error key]
              else [])
           keys.

(** POST /api/update-profile *)
Definition update_profile (users : value) (username : string)
    (updates : option json) : M response :=
  let* user := getM users username in
  if String.eqb username EmptyString || negb (truthy user)
  then ret (Response 404 "User not found" [])
  else
    let errors := validateProfileUpdates updates in
    if negb (Nat.eqb (length errors) 0)
    then ret (Response 400 "Invalid input" errors)
    else
      match updates with
      | Some source => safeMerge user source
      | None => throwM TypeError          (* Object.keys(undefined) *)
      end ;;
      ret (Response 200 "Profile updated securely" []).

(** [typeof settings.key], for the parsed body [settings]: the own entry
    when there is one, else what the body inherits. [None] stands for
    [undefined]. *)
Definition field_typeof (h : heap) (settings : json) (key : string) : option string :=
  let inherited (p : loc) :=
    match find_prop (length h) h p key with
    | None => None
    | Some q =>
        match value_of_prop (Some p) (Some q) with
        | VUndef => None
        | v => Some (typeof h v)
        end
    end in
  let of_json (j : json) :=
    match j with
    | JNull | JArr _ | JObj _ => "object"
    | JBool _ => "boolean"
    | JNum _ => "number"
    | JStr _ => "string"
    end in
  match settings with
  | JObj kvs =>
      match lookup_prop key kvs with
      | Some j => Some (of_json j)
      | None => inherited obj_proto
      end
  | JArr xs =>
      if String.eqb key "length" then Some "number"
      else
        match lookup_prop key (combine (map index_key (seq 0 (length xs))) xs) with
        | Some j => Some (of_json j)
        | None => inherited array_proto
        end
  | JStr s =>
      match string_own s key with
      | Some v => Some (typeof h v)
      | None => inherited string_proto
      end
  | JNum _ => inherited number_proto
  | JBool _ => inherited boolean_proto
  | JNull => None
  end.

Definition must_be_number (key ty : string) : string :=
  String.append (quoted key) (String.append " must be a number, got: " ty).

Definition validateSettings (h : heap) (settings : json) : list string :=
  let check (key : string) :=
    match field_typeof h settings key with
    | Some ty => if String.eqb ty "number" then [] else [must_be_number key ty]
    | None => []
    end in
  check "timeout" ++ check "retries".

Definition defaults : obj :=
  mkObj [("timeout", PData (VNum 30) true true);
         ("retries", PData (VNum 3) true true);
         ("debug", PData (VBool false) true true)] None true CObject.

(** [x * y] as the engine computes it on doubles, for integers that are
    doubles: the exact product when it has at most 53 significant bits,
    otherwise the nearest double, ties to even.  [None] stands for an
    infinite result, which a JSON answer carries as [null]. *)
Definition to_double (n : Z) : option Z :=
  let a := Z.abs n in
  if (a <? 2 ^ 53)%Z then Some n
  else
    let e := (Z.log2 a - 52)%Z in
    let q := Z.shiftr a e in
    let r := (a - Z.shiftl q e)%Z in
    let half := (2 ^ (e - 1))%Z in
    let q' := if (r <? half)%Z then q
              else if (half <? r)%Z then (q + 1)%Z
              else if Z.even q then q else (q + 1)%Z in
    let m := Z.shiftl q' e in
    if (2 ^ 1024 <=? m)%Z then None else Some (Z.sgn n * m)%Z.

Definition double_times (x y : Z) : option Z := to_double (x * y).

(** POST /api/settings.  [s_timeout] is the [timeout * 1000] of the
    response; [None] is the [null] that stands for a product that is not a
    finite number. *)
Record settings_response : Type := SettingsResponse {
  s_status : nat;
  s_message : string;
  s_details : list string;
  s_timeout : option Z
}.

Definition settings (body : json) : M settings_response :=
  fun st =>
    match body with
    | JNull => Thrown TypeError st     (* settings.timeout of null *)
    | _ =>
        let errors := validateSettings (st_heap st) body in
        if negb (Nat.eqb (length errors) 0)
        then Normal (SettingsResponse 400 "Invalid settings" errors None) st
        else
          (let* d := allocM defaults in
           safeMerge d body ;;
           let* timeout := getM d "timeout" in
           let result := match timeout with
                         | VNum z => double_times z 1000
                         | _ => None
                         end in
           ret (SettingsResponse 200 "Settings applied securely" [] result)) st
    end.

(** The function [Object.prototype.hasOwnProperty] of the realm. *)
Definition hasOwnProperty_fn : loc := 7.

(** GET /api/admin: the check is made on a prototype-less object and asks
    for an own [role].  The method is read from [Object.prototype] when the
    request is served; what is found there is called through the engine's
    [Function.prototype.call].  A value that is not the engine's
    [hasOwnProperty] is taken not to be callable -- the values a merge can
    store are parsed values and fresh objects -- and the call raises a
    TypeError. *)
Definition admin : M response :=
  let* user := Object_create_null in
  let* method := getM (VRef obj_proto) "hasOwnProperty" in
  let* has := match method with
              | VRef f => if Nat.eqb f hasOwnProperty_fn
                          then hasOwnPropertyM user "role"
                          else throwM TypeError
              | _ => throwM TypeError
              end in
  let* hasAdminRole :=
    (if has
     then (let* role := getM user "role" in
           ret (match role with VStr r => String.eqb r "admin" | _ => false end))
     else ret false) in
  if hasAdminRole
  then ret (Response 200 "GRANTED" [])
  else ret (Response 403 "DENIED" []).

End Fixed.

(** ** Start-up of the patched server *)

(** Start-up of fixes/server-fixed.js: the freeze, then the table of users,
    each a prototype-less object filled by [Object.assign]. *)
Definition boot : M value :=
  freezeM (VRef obj_proto) ;;
  let* users := Object_create_null in
  let* alice := Object_create_null in
  put_all alice [("username", VStr "alice"); ("role", VStr "user")] ;;
  putM users "alice" alice ;;
  let* bob := Object_create_null in
  put_all bob [("username", VStr "bob"); ("role", VStr "user")] ;;
  putM users "bob" bob ;;
  ret users.

Definition booted : state := final_state (boot start).

(** ** Auxiliary notions used in the statements *)

(** [Object.prototype] after [Object.freeze]. *)
Definition guard_installed (h : heap) : bool :=
  match h !! obj_proto with
  | Some o => frozen o
  | None => false
  end.

Definition is_ref_to (p : loc) (v : value) : bool :=
  match v with VRef l => Nat.eqb l p | _ => false end.

(** No object of the store holds, under a key that is not denied, an
    accessor or a reference to [Object.prototype]: the only links to the
    shared ancestor are [__proto__], [constructor] and [prototype]. *)
Definition clean_prop (kp : string * prop) : bool :=
  DANGEROUS_KEYS_has (fst kp)
  || match snd kp with
     | PData v _ _ => negb (is_ref_to obj_proto v)
     | PProtoAccessor => false
     end.

Definition clean_links (h : heap) : bool :=
  forallb (fun o => forallb clean_prop (props o)) h.

(** The source without the entries [safeMerge] denies: those of the source
    and of every mapping below it that is reached through mappings. *)
Fixpoint strip_denied (source : json) : json :=
  let value (v : json) : json :=
    match v with JObj _ => strip_denied v | _ => v end in
  match source with
  | JObj kvs =>
      JObj ((fix go (kvs : list (string * json)) : list (string * json) :=
               match kvs with
               | [] => []
               | (k, v) :: r =>
                   if DANGEROUS_KEYS_has k then go r else (k, value v) :: go r
               end) kvs)
  | JArr xs =>
      JArr ((fix go (xs : list json) : list json :=
               match xs with [] => [] | v :: r => value v :: go r end) xs)
  | _ => source
  end.

(** The denied keys [safeMerge] meets, in the order it meets them. *)
Fixpoint denied_met (source : json) : list string :=
  let value (v : json) : list string :=
    match v with JObj _ => denied_met v | _ => [] end in
  match source with
  | JObj kvs =>
      (fix go (kvs : list (string * json)) : list string :=
         match kvs with
         | [] => []
         | (k, v) :: r =>
             if DANGEROUS_KEYS_has k then k :: go r else value v ++ go r
         end) kvs
  | JArr xs =>
      (fix go (xs : list json) : list string :=
         match xs with [] => [] | v :: r => value v ++ go r end) xs
  | _ => []
  end.

Definition strip_value (v : json) : json :=
  match v with JObj _ => strip_denied v | _ => v end.

Fixpoint strip_fields (kvs : list (string * json)) : list (string * json) :=
  match kvs with
  | [] => []
  | (k, v) :: r =>
      if DANGEROUS_KEYS_has k then strip_fields r else (k, strip_value v) :: strip_fields r
  end.

Definition denied_value (v : json) : list string :=
  match v with JObj _ => denied_met v | _ => [] end.

Fixpoint denied_fields (kvs : list (string * json)) : list string :=
  match kvs with
  | [] => []
  | (k, v) :: r =>
      if DANGEROUS_KEYS_has k then k :: denied_fields r
      else denied_value v ++ denied_fields r
  end.

Fixpoint denied_elems (xs : list json) : list string :=
  match xs with
  | [] => []
  | v :: r => denied_value v ++ denied_elems r
  end.

Definition not_denied (k : string) : Prop := DANGEROUS_KEYS_has k = false.

(** [nest [a; b] x] is the tree [{a: {b: x}}]. *)
Definition nest (path : list string) (leaf : json) : json :=
  fold_right (fun k j => JObj [(k, j)]) leaf path.

(** [target.a.b], read in store [h]. *)
Fixpoint read_path (h : heap) (target : value) (path : list string) : option value :=
  match path with
  | [] => Some target
  | k :: rest =>
      match get h target k with
      | Some v => read_path h v rest
      | None => None
      end
  end.

Definition same_outcome {A : Type} (c1 c2 : completion A) : Prop :=
  match c1, c2 with
  | Normal a1 st1, Normal a2 st2 => a1 = a2 /\ st_heap st1 = st_heap st2
  | Thrown e1 st1, Thrown e2 st2 => e1 = e2 /\ st_heap st1 = st_heap st2
  | _, _ => False
  end.

(** ** Specifications of computations *)

(** [triple P m Q E]: from a state in [P], [m] ends in [Q] when it
    completes and in [E] when it throws. *)
Definition triple {A : Type} (P : state -> Prop) (m : M A)
    (Q : A -> state -> Prop) (E : state -> Prop) : Prop :=
  forall st, P st ->
    match m st with
    | Normal a st' => Q a st'
    | Thrown _ st' => E st'
    end.

(** ** Notions used in the proofs, and the inputs of the examples *)

(** The two effects of a successful write on the receiver [l]: a data
    property [k] of [l] itself is set, or the [__proto__] setter, found
    under [k] on the chain, changes the prototype of [l]. *)
Inductive write_effect (h : heap) (l : loc) (k : string) (v : value) : heap -> Prop :=
  | we_data (o : obj) (e : bool) :
      h !! l = Some o ->
      find_prop (length h) h l k <> Some PProtoAccessor ->
      (exists v0, lookup_prop k (props o) = Some (PData v0 true e))
      \/ (lookup_prop k (props o) = None /\ extensible o = true /\ e = true) ->
      write_effect h l k v
        (<[l := with_props o (update_prop k (PData v true e) (props o))]> h)
  | we_proto (o : obj) (p : option loc) :
      h !! l = Some o ->
      find_prop (length h) h l k = Some PProtoAccessor ->
      extensible o = true ->
      l <> obj_proto ->
      write_effect h l k v (<[l := with_proto o p]> h).

(** The objects a parse adds to the store: their properties are writable,
    enumerable data properties named by the tree, holding scalars or
    references to objects of the same parse. *)
Definition fresh_val (n : nat) (v : value) : Prop :=
  match v with VRef l => n <= l | _ => True end.

Definition fresh_props (K : string -> Prop) (n : nat) (ps : list (string * prop)) : Prop :=
  forall k p, In (k, p) ps ->
    K k /\ exists v e, p = PData v true e /\ fresh_val n v.

Definition fresh_obj (K : string -> Prop) (n : nat) (o : obj) : Prop :=
  fresh_props K n (props o).

Definition alloc_spec (K : string -> Prop) (h : heap) (r : value * heap) : Prop :=
  exists suf, snd r = h ++ suf /\ Forall (fresh_obj K (length h)) suf
              /\ fresh_val (length h) (fst r).

Definition clean_obj (o : obj) : Prop :=
  forall k p, In (k, p) (props o) -> clean_prop (k, p) = true.

(** The invariant behind the first claim, for a store that has not been
    frozen. *)
Definition ancestor_kept (o : option obj) (st : state) : Prop :=
  st_heap st !! obj_proto = o /\ clean_links (st_heap st) = true /\ 0 < length (st_heap st).

(** The situations in which the patched server and the demo run
    [safeMerge]: [Object.prototype] has been frozen, or the target is not
    [Object.prototype] itself and no object of the store links to it under
    a key other than the three denied ones (which holds of the realm at
    start-up and of everything [JSON.parse] and [safeMerge] build). *)
Definition ancestor_guarded (h : heap) (target : value) : Prop :=
  guard_installed h = true
  \/ (is_ref_to obj_proto target = false /\ clean_links h = true /\ 0 < length h).

Definition profile_alice : json := JObj [("username", JStr "alice")].

Definition attack_payload : json := JObj [("__proto__", JObj [("isAdmin", JBool true)])].

(** What stays as it was when the key [k] is not among those of the
    source. *)
Definition untouched (k : string) (st0 st : state) : Prop :=
  (forall l, own (st_heap st) l k = own (st_heap st0) l k)
  /\ (In (blocked_warning k) (console st) -> In (blocked_warning k) (console st0)).

Definition polluted : state :=
  final_state ((let* t := JSON_parse profile_alice in
                let* s := JSON_parse attack_payload in
                unsafeMerge 5 t s) start).

Definition display_update : json := JObj [("displayName", JStr "Al")].

(** Two computations that do the same to the store from equal stores, the
    first printing the lines [d] on the way. *)
Definition rel {A : Type} (d : list string) (m1 m2 : M A) : Prop :=
  forall st1 st2, st_heap st1 = st_heap st2 ->
    match m1 st1, m2 st2 with
    | Normal a1 s1, Normal a2 s2 =>
        a1 = a2 /\ st_heap s1 = st_heap s2
        /\ console s1 = console st1 ++ d /\ console s2 = console st2
    | Thrown e1 s1, Thrown e2 s2 =>
        e1 = e2 /\ st_heap s1 = st_heap s2 /\ console s2 = console st2
    | _, _ => False
    end.

Definition nested_proto : json := JObj [("x", JNum 1)].

Definition hidden_in_array : json :=
  JObj [("a", JArr [JObj [("__proto__", nested_proto)]])].

(** The prototype chain of [l] ends at [null] within [n] links. *)
Fixpoint chain_ends (n : nat) (h : heap) (l : loc) : bool :=
  match n with
  | O => false
  | S n' =>
      match h !! l with
      | None => false
      | Some o =>
          match proto o with
          | None => true
          | Some p => chain_ends n' h p
          end
      end
  end.

(** An assignment to [target[k]] takes effect on the object [l] itself:
    nothing on its chain forbids the write or intercepts it, and [l] has
    room for the property. *)
Definition slot_writable (h : heap) (l : loc) (k : string) : bool :=
  match find_prop (length h) h l k with
  | Some (PData _ true _) | None =>
      match h !! l with
      | Some o =>
          match lookup_prop k (props o) with
          | Some (PData _ true _) => true
          | None => extensible o
          | _ => false
          end
      | None => false
      end
  | _ => false
  end.

(** The store after [target[k] = v] has taken effect on [l]. *)
Definition stored (h : heap) (l : loc) (k : string) (v : value) (h' : heap) : Prop :=
  exists o e,
    h !! l = Some o
    /\ h' = <[l := with_props o (update_prop k (PData v true e) (props o))]> h.

Definition settings_nested : list (string * json) := [("theme", JStr "dark")].

Definition with_list : json := JObj [("a", JArr [JNum 1])].

Definition then_mapping : json := JObj [("a", JObj [("x", JNum 2)])].

Definition empty_null_object (o : obj) : Prop :=
  props o = [] /\ proto o = None /\ extensible o = true.

Definition scenario_C : json := JObj [("a", JObj [("b", JObj [("c", JNum 1)])])].

Definition upper_case_payload : json := JObj [("__PROTO__", JBool true); ("Constructor", JNum 1)].

Definition forbidden_update : json :=
  JObj [("__proto__", JObj [("isAdmin", JBool true)]); ("displayName", JStr "Al")].

Definition nested_forbidden_update : json :=
  JObj [("displayName", JObj [("__proto__", JObj [("isAdmin", JBool true)]);
                              ("first", JStr "Al")])].

Definition corrupted_settings : list (string * json) := [("timeout", JStr "CORRUPTED")].

Definition payload_inner : obj :=
  mkObj [("isAdmin", PData (VBool true) true true)] (Some obj_proto) true CObject.

Definition payload_outer (n : loc) : obj :=
  mkObj [("__proto__", PData (VRef n) true true)] (Some obj_proto) true CObject.

Definition polluted_prototype : obj :=
  with_props Object_prototype
    (update_prop "isAdmin" (PData (VBool true) true true) (props Object_prototype)).

(** ** Notions used in the further properties *)

(** The own properties named [k] of the objects that existed in [h0] are as
    they were. *)
Definition names_kept (k : string) (h0 : heap) (st : state) : Prop :=
  length h0 <= length (st_heap st)
  /\ forall l, l < length h0 -> own (st_heap st) l k = own h0 l k.

(** What [safeMerge] never changes of an object: its prototype link,
    whether it is extensible, and its kind. *)
Definition same_shape (o o' : obj) : Prop :=
  proto o' = proto o /\ extensible o' = extensible o /\ cls o' = cls o.

Definition shapes_kept (h0 : heap) (st : state) : Prop :=
  clean_links (st_heap st) = true
  /\ forall l o, h0 !! l = Some o ->
       exists o', st_heap st !! l = Some o' /\ same_shape o o'.

Definition empty_object : obj := mkObj [] (Some obj_proto) true CObject.

(** What an object that inherits from [Object.prototype] [o] alone reads
    for a key it does not own. *)
Definition inherited (o : obj) (k : string) : value :=
  value_of_prop (Some obj_proto) (lookup_prop k (props o)).

Definition is_admin_role (role : value) : bool :=
  match role with VStr r => String.eqb r "admin" | _ => false end.



(** [Object.prototype] with one more property, [k], set by an assignment. *)
Definition polluted_with (k : string) (v : value) : obj :=
  with_props Object_prototype
    (update_prop k (PData v true true) (props Object_prototype)).

Definition is_reference (v : value) : bool :=
  match v with VRef _ => true | _ => false end.



(** An object without prototype that takes every write: it is extensible
    and all its properties are writable data properties.  The objects of
    [Object.create(null)] and the defaults of the patched settings route
    are of this kind. *)
Definition open_object (o : obj) : bool :=
  match proto o with
  | None =>
      extensible o
      && forallb (fun kp => match snd kp with PData _ true _ => true | _ => false end)
                 (props o)
  | Some _ => false
  end.

(** [o] holds no object under [k]. *)
Definition holds_no_object (o : obj) (k : string) : bool :=
  match lookup_prop k (props o) with
  | Some (PData (VRef _) _ _) => false
  | _ => true
  end.

(** The keys of every mapping that [safeMerge] walks through are distinct,
    as they are in a parsed body. *)
Fixpoint distinct (ks : list string) : bool :=
  match ks with
  | [] => true
  | k :: r => negb (mem_string k r) && distinct r
  end.

Fixpoint distinct_keys (j : json) : bool :=
  match j with
  | JObj kvs =>
      distinct (map fst kvs)
      && (fix go (kvs : list (string * json)) : bool :=
            match kvs with [] => true | (_, v) :: r => distinct_keys v && go r end) kvs
  | _ => true
  end.

Fixpoint distinct_fields (kvs : list (string * json)) : bool :=
  match kvs with
  | [] => true
  | (_, v) :: r => distinct_keys v && distinct_fields r
  end.

(** What a merge of the fields [kvs] into the open object at [l] leaves:
    the objects that existed, [l] apart, are as they were; [l] is still
    open, holds every scalar of [kvs] under its key, and is unchanged at
    the denied keys and at the keys [kvs] does not have. *)
Definition merged_into (h : heap) (l : loc) (kvs : list (string * json)) (h' : heap) : Prop :=
  length h <= length h'
  /\ (forall l', l' < length h -> l' <> l -> h' !! l' = h !! l')
  /\ exists o o',
       h !! l = Some o /\ h' !! l = Some o' /\ open_object o' = true
       /\ (forall k, DANGEROUS_KEYS_has k = true \/ lookup_prop k kvs = None ->
                     lookup_prop k (props o') = lookup_prop k (props o))
       /\ (forall k x, lookup_prop k kvs = Some x -> DANGEROUS_KEYS_has k = false ->
                       is_container x = false ->
                       exists e, lookup_prop k (props o') = Some (PData (scalar_value x) true e)).

Definition merges_cleanly (v : json) : Prop :=
  forall kvs, v = JObj kvs -> distinct_keys v = true ->
  forall st l o,
    st_heap st !! l = Some o -> open_object o = true ->
    (forall k, In k (map fst kvs) -> holds_no_object o k = true) ->
    exists st', safeMerge (VRef l) v st = Normal (VRef l) st'
                /\ merged_into (st_heap st) l kvs (st_heap st').


(** The loops of the demo's [safeMerge] (demos/concept-demo.js), named. *)
Definition demo_entry (target : value) (key : string) (v : json) : M unit :=
  if Demo.BLOCKED_has key
  then printM (Demo.blocked_line key)
  else
    match v with
    | JObj _ | JArr _ =>
        let* tv := getM target key in
        let* t0 := (if truthy tv then ret tv else Object_create_null) in
        let* r := Demo.safeMerge t0 v in
        putM target key r
    | _ => putM target key (scalar_value v)
    end.

Fixpoint demo_fields (target : value) (kvs : list (string * json)) : M unit :=
  match kvs with
  | [] => ret tt
  | (key, v) :: rest => demo_entry target key v ;; demo_fields target rest
  end.

Fixpoint demo_elems (target : value) (i : nat) (xs : list json) : M unit :=
  match xs with
  | [] => ret tt
  | v :: rest => demo_entry target (index_key i) v ;; demo_elems target (S i) rest
  end.

(** A run of the demo's [safeMerge] on [v] keeps [I] and returns its
    target, for the targets [T]. *)
Definition demo_kept (I : state -> Prop) (T : value -> Prop) (v : json) : Prop :=
  forall t, T t -> triple I (Demo.safeMerge t v) (fun r st => I st /\ r = t) I.

(** No object of the store has an enumerable property under one of the
    three denied names: a [for...in] loop never meets them. *)
Definition plain_name (kp : string * prop) : bool :=
  negb (is_enumerable (snd kp) && DANGEROUS_KEYS_has (fst kp)).

Definition plain_names (h : heap) : bool :=
  forallb (fun o => forallb plain_name (props o)) h.

Definition unsafe_kept (o : option obj) (st : state) : Prop :=
  ancestor_kept o st /\ plain_names (st_heap st) = true.

(** A body without the three names, merged into the profile of alice. *)
Definition harmless_update : json :=
  JObj [("role", JStr "admin"); ("prefs", JObj [("theme", JStr "dark")])].

(** Does the assignment [target[k] = v] on the object [l] reach the
    [__proto__] setter with a prototype other than the one [l] has?  The
    setter refuses that on [Object.prototype], whatever the mode of the
    code. *)
Definition changes_prototype (h : heap) (l : loc) (k : string) (v : value) : bool :=
  match find_prop (length h) h l k with
  | Some PProtoAccessor =>
      match v with
      | VRef p => negb (opt_loc_eqb (proto_of h l) (Some p))
      | VNull => negb (opt_loc_eqb (proto_of h l) None)
      | _ => false
      end
  | _ => false
  end.

(** [Object.keys(v)] for a value in the store: the own enumerable names of
    the object, in order; for a string, its indices. *)
Definition Object_keys_at (h : heap) (v : value) : list string :=
  match v with
  | VRef l => match h !! l with Some o => enumerable_keys [] o | None => [] end
  | VStr s => map index_key (seq 0 (String.length s))
  | _ => []
  end.

(** * Properties *)

(** ** The loops of [safeMerge] *)

Lemma safeMerge_obj_eq (target : value) (kvs : list (string * json)) (st : state) :
  safeMerge target (JObj kvs) st = (safeMerge_fields target kvs ;; ret target) st.
Proof.
  cbn [safeMerge].
  match goal with
  | |- bind (?F kvs) _ st = _ =>
      assert (HF : forall l s, F l s = safeMerge_fields target l s)
  end.
  { induction l as [|[key v] rest IH]; intros s; [reflexivity|].
    match type of IH with
    | forall s, ?F rest s = _ =>
        change (bind (safeMerge_entry target key v) (fun _ => F rest) s
                = safeMerge_fields target ((key, v) :: rest) s)
    end.
    cbn [safeMerge_fields]. unfold bind.
    destruct (safeMerge_entry target key v s); [apply IH | reflexivity]. }
  unfold bind. rewrite HF. reflexivity.
Qed.

Lemma safeMerge_arr_eq (target : value) (xs : list json) (st : state) :
  safeMerge target (JArr xs) st = (safeMerge_elems target 0 xs ;; ret target) st.
Proof.
  cbn [safeMerge].
  match goal with
  | |- bind (?F 0 xs) _ st = _ =>
      assert (HF : forall l i s, F i l s = safeMerge_elems target i l s)
  end.
  { induction l as [|v rest IH]; intros i s; [reflexivity|].
    match type of IH with
    | forall i s, ?F i rest s = _ =>
        change (bind (safeMerge_entry target (index_key i) v) (fun _ => F (S i) rest) s
                = safeMerge_elems target i (v :: rest) s)
    end.
    cbn [safeMerge_elems]. unfold bind.
    destruct (safeMerge_entry target (index_key i) v s); [apply IH | reflexivity]. }
  unfold bind. rewrite HF. reflexivity.
Qed.

(** ** Invariants of a [safeMerge] run *)

Lemma triple_ret {A : Type} (P : state -> Prop) (a : A) (Q : A -> state -> Prop)
    (E : state -> Prop) :
  (forall st, P st -> Q a st) -> triple P (ret a) Q E.
Proof. intros H st HP. apply H, HP. Qed.

Lemma triple_bind {A B : Type} (P : state -> Prop) (m : M A) (f : A -> M B)
    (R : A -> state -> Prop) (Q : B -> state -> Prop) (E : state -> Prop) :
  triple P m R E ->
  (forall a, triple (R a) (f a) Q E) ->
  triple P (bind m f) Q E.
Proof.
  intros Hm Hf st HP. unfold bind. specialize (Hm st HP).
  destruct (m st) as [a st'|e st']; [apply (Hf a st' Hm) | exact Hm].
Qed.

Lemma triple_weaken {A : Type} (P P' : state -> Prop) (m : M A)
    (Q Q' : A -> state -> Prop) (E E' : state -> Prop) :
  triple P' m Q' E' ->
  (forall st, P st -> P' st) ->
  (forall a st, Q' a st -> Q a st) ->
  (forall st, E' st -> E st) ->
  triple P m Q E.
Proof.
  intros Hm HP HQ HE st Hst. specialize (Hm st (HP st Hst)).
  destruct (m st); auto.
Qed.

Lemma index_key_not_denied (i : nat) : DANGEROUS_KEYS_has (index_key i) = false.
Proof. unfold index_key. destruct (Nat.to_uint i); reflexivity. Qed.

Lemma keys_deep_obj_key (kvs : list (string * json)) (k : string) (v : json) :
  In (k, v) kvs -> In k (keys_deep (JObj kvs)).
Proof.
  cbn [keys_deep]. induction kvs as [|[k0 v0] r IH]; intros Hin; [destruct Hin|].
  destruct Hin as [Heq|Hin].
  - inversion Heq; subst. left. reflexivity.
  - right. apply in_or_app. right. apply IH, Hin.
Qed.

Lemma keys_deep_obj_value (kvs : list (string * json)) (k : string) (v : json) (k' : string) :
  In (k, v) kvs -> In k' (keys_deep v) -> In k' (keys_deep (JObj kvs)).
Proof.
  cbn [keys_deep]. induction kvs as [|[k0 v0] r IH]; intros Hin Hk; [destruct Hin|].
  destruct Hin as [Heq|Hin].
  - inversion Heq; subst. right. apply in_or_app. left. exact Hk.
  - right. apply in_or_app. right. apply IH; assumption.
Qed.

Lemma keys_deep_arr_index (xs : list json) (j : nat) :
  j < length xs -> In (index_key j) (keys_deep (JArr xs)).
Proof.
  intros Hj. cbn [keys_deep]. right. apply in_or_app. left.
  apply in_map. apply in_seq. lia.
Qed.

Lemma keys_deep_arr_elem (xs : list json) (v : json) (k' : string) :
  In v xs -> In k' (keys_deep v) -> In k' (keys_deep (JArr xs)).
Proof.
  intros Hin Hk. cbn [keys_deep]. right. apply in_or_app. right.
  induction xs as [|x r IH]; [destruct Hin|].
  apply in_or_app. destruct Hin as [->|Hin]; [left; exact Hk | right; apply IH, Hin].
Qed.

Section safeMerge_invariant.
Variable I : state -> Prop.          (* the invariant *)
Variable T : value -> Prop.          (* the targets of the merge *)
Variable V : value -> Prop.          (* the values it writes *)
Variable K : string -> Prop.         (* the keys it meets *)

Hypothesis I_print : forall st key,
  I st -> K key -> DANGEROUS_KEYS_has key = true ->
  I (print_state st (blocked_warning key)).
Hypothesis I_null : forall st,
  I st -> I (alloc_state st null_object) /\ V (VRef (length (st_heap st))).
Hypothesis I_parse : forall st j,
  (forall k, In k (keys_deep j) -> K k) ->
  I st -> I (parse_state st j) /\ V (fst (alloc_json j (st_heap st))).
Hypothesis V_string : forall s, V (VStr s).
Hypothesis I_put : forall st t k v h',
  I st -> T t -> K k -> DANGEROUS_KEYS_has k = false -> V v ->
  assign false (st_heap st) t k v = Some h' ->
  I (mkState h' (console st)).
Hypothesis T_get : forall st t k v,
  I st -> T t -> DANGEROUS_KEYS_has k = false ->
  get (st_heap st) t k = Some v -> T v.

Lemma putM_inv (t : value) (k : string) (v : value) :
  T t -> K k -> DANGEROUS_KEYS_has k = false -> V v ->
  triple I (putM t k v) (fun _ => I) I.
Proof.
  intros Ht Hk Hd Hv st HI. unfold putM.
  destruct (assign false (st_heap st) t k v) as [h'|] eqn:Ha; [|exact HI].
  eapply I_put; eauto.
Qed.

Lemma getM_inv (t : value) (k : string) :
  T t -> DANGEROUS_KEYS_has k = false ->
  triple I (getM t k) (fun v st => I st /\ T v) I.
Proof.
  intros Ht Hd st HI. unfold getM.
  destruct (get (st_heap st) t k) as [v|] eqn:Hg; [|exact HI].
  split; [exact HI | eapply T_get; eauto].
Qed.

Lemma safeMerge_entry_inv (target : value) (key : string) (v : json) :
  T target -> K key -> (forall k, In k (keys_deep v) -> K k) ->
  (forall kvs, v = JObj kvs ->
   forall t, T t -> triple I (safeMerge t v) (fun _ => I) I) ->
  triple I (safeMerge_entry target key v) (fun _ => I) I.
Proof.
  intros Ht Hk Hkeys IH. unfold safeMerge_entry, safeMerge_step.
  destruct (DANGEROUS_KEYS_has key) eqn:Hd.
  { intros st HI. apply I_print; assumption. }
  assert (Hscalar : triple I (let* x := JSON_parse v in putM target key x)
                           (fun _ => I) I).
  { eapply triple_bind with (R := fun x st => I st /\ V x).
    - intros st HI. unfold JSON_parse.
      destruct (I_parse st v Hkeys HI) as [H1 H2]. unfold parse_state in H1.
      destruct (alloc_json v (st_heap st)) as [x h']. split; assumption.
    - intros x st [HI HV]. revert st HI. apply putM_inv; assumption. }
  destruct v; try exact Hscalar.
  eapply triple_bind with (R := fun _ st => I st).
  - eapply triple_bind; [apply getM_inv; assumption|].
    intros tv. cbn beta.
    eapply triple_bind with (R := fun _ st => I st).
    { intros st [HI _]. exact HI. }
    intros ty.
    destruct (negb (truthy tv) || negb (String.eqb ty "object")).
    + eapply triple_bind with (R := fun o st => I st /\ V o).
      * intros st HI. apply I_null, HI.
      * intros o st [HI HV]. revert st HI. apply putM_inv; assumption.
    + apply triple_ret. auto.
  - intros _. eapply triple_bind; [apply getM_inv; assumption|].
    intros tv'. cbn beta.
    eapply triple_bind with (R := fun _ st => I st).
    + intros st [HI HT]. revert st HI. eapply IH; [reflexivity | exact HT].
    + intros _. apply triple_ret. auto.
Qed.

Lemma put_all_inv (target : value) (kvs : list (string * value)) :
  T target ->
  Forall (fun kv => K (fst kv) /\ DANGEROUS_KEYS_has (fst kv) = false /\ V (snd kv)) kvs ->
  triple I (put_all target kvs) (fun _ => I) I.
Proof.
  intros Ht. induction kvs as [|[k v] rest IH]; intros HF; cbn [put_all].
  - apply triple_ret. auto.
  - inversion HF as [|? ? [Hk [Hd Hv]] Hrest]; subst. specialize (IH Hrest).
    cbn [fst snd] in Hk, Hd, Hv.
    eapply triple_bind; [apply putM_inv; assumption|]. intros u. exact IH.
Qed.

Lemma safeMerge_fields_inv (target : value) (kvs : list (string * json)) :
  T target ->
  Forall (fun kv => K (fst kv) /\ (forall k, In k (keys_deep (snd kv)) -> K k) /\
                    forall kvs', snd kv = JObj kvs' ->
                    forall t, T t -> triple I (safeMerge t (snd kv)) (fun _ => I) I) kvs ->
  triple I (safeMerge_fields target kvs) (fun _ => I) I.
Proof.
  intros Ht. induction kvs as [|[k v] rest IH]; intros HF; cbn [safeMerge_fields].
  - apply triple_ret. auto.
  - inversion HF as [|? ? [Hk [Hks Hv]] Hrest]; subst. specialize (IH Hrest).
    cbn [fst snd] in Hk, Hks, Hv.
    eapply triple_bind; [apply safeMerge_entry_inv; assumption|]. intros u. exact IH.
Qed.

Lemma safeMerge_elems_inv (target : value) (xs : list json) :
  T target ->
  Forall (fun v => (forall k, In k (keys_deep v) -> K k) /\
                   forall kvs', v = JObj kvs' ->
                   forall t, T t -> triple I (safeMerge t v) (fun _ => I) I) xs ->
  forall i, (forall j, j < length xs -> K (index_key (i + j))) ->
  triple I (safeMerge_elems target i xs) (fun _ => I) I.
Proof.
  intros Ht. induction xs as [|v rest IH]; intros HF i Hi; cbn [safeMerge_elems].
  - apply triple_ret. auto.
  - inversion HF as [|? ? [Hks Hv] Hrest]; subst. specialize (IH Hrest).
    eapply triple_bind.
    + apply safeMerge_entry_inv; try assumption.
      specialize (Hi 0). rewrite Nat.add_0_r in Hi. apply Hi. cbn. lia.
    + intros u. apply IH. intros j Hj.
      replace (S i + j) with (i + S j) by lia. apply Hi. cbn. lia.
Qed.

(** Whatever the source, a run of [safeMerge] keeps the invariant, whether
    it completes or throws. *)
Lemma safeMerge_inv (source : json) :
  (forall k, In k (source_keys source) -> K k) ->
  forall target, T target ->
  triple I (safeMerge target source) (fun _ => I) I.
Proof.
  induction source as [| b | z | s | xs IH | kvs IH] using json_ind';
    intros Hkeys target Ht.
  - intros st HI. exact HI.
  - intros st HI. exact HI.
  - intros st HI. exact HI.
  - cbn [safeMerge]. eapply triple_bind with (R := fun _ st => I st).
    + apply put_all_inv; [assumption|].
      apply List.Forall_forall. intros [k v] Hin. cbn [fst snd].
      unfold string_entries in Hin. apply in_map_iff in Hin.
      destruct Hin as [i [Heq Hi]]. inversion Heq; subst.
      split; [|split; [apply index_key_not_denied | apply V_string]].
      apply Hkeys. cbn [source_keys]. unfold string_entries.
      rewrite map_map. cbn [fst]. apply in_map. exact Hi.
    + intros u. apply triple_ret. auto.
  - intros st HI. rewrite safeMerge_arr_eq. revert st HI.
    eapply triple_bind with (R := fun _ st => I st).
    + apply safeMerge_elems_inv; [assumption| |].
      * apply List.Forall_forall. intros v Hin.
        rewrite List.Forall_forall in IH. split.
        -- intros k Hk. apply Hkeys. eapply keys_deep_arr_elem; eassumption.
        -- intros kvs' -> t Htt. apply IH; [assumption| |assumption].
           intros k Hk. apply Hkeys. eapply keys_deep_arr_elem; eassumption.
      * intros j Hj. apply Hkeys. apply keys_deep_arr_index. exact Hj.
    + intros u. apply triple_ret. auto.
  - intros st HI. rewrite safeMerge_obj_eq. revert st HI.
    eapply triple_bind with (R := fun _ st => I st).
    + apply safeMerge_fields_inv; [assumption|].
      apply List.Forall_forall. intros [k v] Hin.
      rewrite List.Forall_forall in IH. cbn [fst snd]. split; [|split].
      * apply Hkeys. eapply keys_deep_obj_key; eassumption.
      * intros k' Hk'. apply Hkeys. eapply keys_deep_obj_value; eassumption.
      * intros kvs' -> t Htt. apply (IH _ Hin); [|assumption].
        intros k' Hk'. apply Hkeys. eapply keys_deep_obj_value; eassumption.
    + intros u. apply triple_ret. auto.
Qed.
End safeMerge_invariant.

(** ** What an assignment can do to the store *)

Lemma define_own_effect (h : heap) (l : loc) (k : string) (v : value) (h' : heap) :
  find_prop (length h) h l k <> Some PProtoAccessor ->
  define_own h l k v = SetOk h' -> write_effect h l k v h'.
Proof.
  intros Hf. unfold define_own.
  destruct (h !! l) as [o|] eqn:Hl; [|discriminate].
  destruct (lookup_prop k (props o)) as [[v0 [|] e|]|] eqn:Hk; try discriminate.
  - intros [= <-]. eapply we_data; eauto.
  - destruct (extensible o) eqn:He; [|discriminate].
    intros [= <-]. eapply we_data; eauto.
Qed.

Lemma set_prototype_effect (h : heap) (l : loc) (k : string) (v : value) (h' : heap) :
  find_prop (length h) h l k = Some PProtoAccessor ->
  set_prototype h l v = SetOk h' -> h' = h \/ write_effect h l k v h'.
Proof.
  intros Hf. unfold set_prototype.
  assert (Hchange : forall p,
    match h !! l with
    | Some o =>
        if opt_loc_eqb (proto o) p then SetOk h
        else if negb (extensible o) || Nat.eqb l obj_proto then SetThrow
        else if chain_reaches (length h) h p l then SetThrow
        else SetOk (<[l := with_proto o p]> h)
    | None => SetOk h
    end = SetOk h' -> h' = h \/ write_effect h l k v h').
  { intros p. destruct (h !! l) as [o|] eqn:Hl; [|intros [= <-]; left; reflexivity].
    destruct (opt_loc_eqb (proto o) p); [intros [= <-]; left; reflexivity|].
    destruct (extensible o) eqn:He; [|discriminate].
    destruct (Nat.eqb l obj_proto) eqn:Hp; [discriminate|]. cbn [negb orb].
    destruct (chain_reaches (length h) h p l); [discriminate|].
    intros [= <-]. right. eapply we_proto; eauto.
    apply Nat.eqb_neq, Hp. }
  destruct v; try (intros [= <-]; left; reflexivity); apply Hchange.
Qed.

Lemma ordinary_set_effect (h : heap) (t : value) (k : string) (v : value) (h' : heap) :
  ordinary_set h t k v = SetOk h' ->
  h' = h \/ exists l, t = VRef l /\ write_effect h l k v h'.
Proof.
  unfold ordinary_set. destruct t as [| | b | z | s | l]; try discriminate.
  - destruct (find_prop _ _ _ _) as [[? ? ?|]|]; try discriminate.
    intros [= <-]. left. reflexivity.
  - destruct (find_prop _ _ _ _) as [[? ? ?|]|]; try discriminate.
    intros [= <-]. left. reflexivity.
  - destruct (string_own s k); [discriminate|].
    destruct (find_prop _ _ _ _) as [[? ? ?|]|]; try discriminate.
    intros [= <-]. left. reflexivity.
  - destruct (find_prop (length h) h l k) as [[v0 [|] e|]|] eqn:Hf; try discriminate.
    + intros H. right. exists l. split; [reflexivity|].
      apply define_own_effect; [congruence | exact H].
    + intros H. destruct (set_prototype_effect h l k v h' Hf H) as [->|He];
        [left; reflexivity | right; eauto].
    + intros H. right. exists l. split; [reflexivity|].
      apply define_own_effect; [congruence | exact H].
Qed.

Lemma assign_effect (strict : bool) (h : heap) (t : value) (k : string) (v : value)
    (h' : heap) :
  assign strict h t k v = Some h' ->
  h' = h \/ exists l, t = VRef l /\ write_effect h l k v h'.
Proof.
  unfold assign. destruct (ordinary_set h t k v) as [h1| |] eqn:Hs; try discriminate.
  - intros [= <-]. apply ordinary_set_effect, Hs.
  - destruct strict; [discriminate|]. intros [= <-]. left. reflexivity.
Qed.

Lemma write_effect_length (h : heap) (l : loc) (k : string) (v : value) (h' : heap) :
  write_effect h l k v h' -> length h' = length h.
Proof. intros [o e _ _ _|o p _ _ _ _]; apply length_insert. Qed.

Lemma write_effect_other (h : heap) (l : loc) (k : string) (v : value) (h' : heap)
    (l' : loc) :
  write_effect h l k v h' -> l' <> l -> h' !! l' = h !! l'.
Proof.
  intros [o e _ _ _|o p _ _ _ _] Hne; apply list_lookup_insert_ne; congruence.
Qed.

Lemma assign_length (strict : bool) (h : heap) (t : value) (k : string) (v : value)
    (h' : heap) :
  assign strict h t k v = Some h' -> length h' = length h.
Proof.
  intros H. destruct (assign_effect _ _ _ _ _ _ H) as [->|[l [_ He]]];
    [reflexivity | eapply write_effect_length, He].
Qed.

Lemma assign_other (strict : bool) (h : heap) (t : value) (k : string) (v : value)
    (h' : heap) (p : loc) :
  assign strict h t k v = Some h' -> t <> VRef p -> h' !! p = h !! p.
Proof.
  intros H Hne. destruct (assign_effect _ _ _ _ _ _ H) as [->|[l [-> He]]];
    [reflexivity|].
  eapply write_effect_other; [exact He | congruence].
Qed.

(** ** Allocation of parsed trees *)

Lemma alloc_json_arr (xs : list json) (h : heap) :
  alloc_json (JArr xs) h =
  (VRef (length (snd (alloc_elems xs 0 h))),
   snd (alloc_elems xs 0 h) ++ [array_object (length xs) (fst (alloc_elems xs 0 h))]).
Proof.
  cbn [alloc_json].
  match goal with
  | |- (let '(_, _) := ?F xs 0 h in _) = _ =>
      assert (HF : forall l i s, F l i s = alloc_elems l i s)
  end.
  { induction l as [|x r IH]; intros i s; [reflexivity|].
    match type of IH with
    | forall i s, ?F r i s = _ =>
        change (F (x :: r) i s) with
          (let '(v, h1) := alloc_json x s in
           let '(ps, h2) := F r (S i) h1 in
           ((index_key i, PData v true true) :: ps, h2))
    end.
    cbn [alloc_elems]. destruct (alloc_json x s) as [v h1].
    rewrite IH. reflexivity. }
  rewrite HF. destruct (alloc_elems xs 0 h) as [ps h']. reflexivity.
Qed.

Lemma alloc_json_obj (kvs : list (string * json)) (h : heap) :
  alloc_json (JObj kvs) h =
  (VRef (length (snd (alloc_fields kvs h))),
   snd (alloc_fields kvs h) ++ [plain_object (fst (alloc_fields kvs h))]).
Proof.
  cbn [alloc_json].
  match goal with
  | |- (let '(_, _) := ?F kvs h in _) = _ =>
      assert (HF : forall l s, F l s = alloc_fields l s)
  end.
  { induction l as [|[k x] r IH]; intros s; [reflexivity|].
    match type of IH with
    | forall s, ?F r s = _ =>
        change (F ((k, x) :: r) s) with
          (let '(v, h1) := alloc_json x s in
           let '(ps, h2) := F r h1 in
           ((k, PData v true true) :: ps, h2))
    end.
    cbn [alloc_fields]. destruct (alloc_json x s) as [v h1].
    rewrite IH. reflexivity. }
  rewrite HF. destruct (alloc_fields kvs h) as [ps h']. reflexivity.
Qed.

Lemma fresh_val_mono (n n' : nat) (v : value) :
  n <= n' -> fresh_val n' v -> fresh_val n v.
Proof. intros Hn. destruct v; cbn; auto. lia. Qed.

Lemma fresh_props_mono (K : string -> Prop) (n n' : nat) (ps : list (string * prop)) :
  n <= n' -> fresh_props K n' ps -> fresh_props K n ps.
Proof.
  intros Hn H k p Hin. destruct (H k p Hin) as [Hk [v [e [-> Hv]]]].
  split; [exact Hk|]. exists v, e. split; [reflexivity|].
  eapply fresh_val_mono; eassumption.
Qed.

Section alloc_json_spec.
Variable K : string -> Prop.

Lemma alloc_elems_spec (xs : list json) :
  Forall (fun x => forall h, alloc_spec K h (alloc_json x h)) xs ->
  forall i h, (forall j, j < length xs -> K (index_key (i + j))) ->
  exists suf, snd (alloc_elems xs i h) = h ++ suf
              /\ Forall (fresh_obj K (length h)) suf
              /\ fresh_props K (length h) (fst (alloc_elems xs i h)).
Proof.
  induction xs as [|x r IH]; intros HF i h Hi; cbn [alloc_elems].
  - exists []. cbn. split; [symmetry; apply app_nil_r|]. split; [constructor|].
    intros k p [].
  - inversion HF as [|? ? Hx Hr]; subst.
    destruct (Hx h) as [s1 [E1 [F1 V1]]].
    destruct (alloc_json x h) as [v h1]. cbn [fst snd] in E1, V1. subst h1.
    destruct (IH Hr (S i) (h ++ s1)) as [s2 [E2 [F2 P2]]].
    { intros j Hj. replace (S i + j) with (i + S j) by lia. apply Hi. cbn. lia. }
    destruct (alloc_elems r (S i) (h ++ s1)) as [ps h2]. cbn [fst snd] in *. subst h2.
    exists (s1 ++ s2). split; [symmetry; apply app_assoc|]. split.
    + apply Forall_app. split; [exact F1|].
      eapply Forall_impl; [exact F2|]. intros o Ho.
      eapply fresh_props_mono; [|exact Ho]. rewrite length_app. lia.
    + intros k p [Heq|Hin].
      * inversion Heq; subst. split.
        -- specialize (Hi 0). rewrite Nat.add_0_r in Hi. apply Hi. cbn. lia.
        -- eauto.
      * eapply fresh_props_mono; [|exact P2|exact Hin]. rewrite length_app. lia.
Qed.

Lemma alloc_fields_spec (kvs : list (string * json)) :
  Forall (fun kv => K (fst kv) /\ forall h, alloc_spec K h (alloc_json (snd kv) h)) kvs ->
  forall h,
  exists suf, snd (alloc_fields kvs h) = h ++ suf
              /\ Forall (fresh_obj K (length h)) suf
              /\ fresh_props K (length h) (fst (alloc_fields kvs h)).
Proof.
  induction kvs as [|[k x] r IH]; intros HF h; cbn [alloc_fields].
  - exists []. cbn. split; [symmetry; apply app_nil_r|]. split; [constructor|].
    intros k p [].
  - inversion HF as [|? ? [Hk Hx] Hr]; subst. cbn [fst snd] in Hk, Hx.
    destruct (Hx h) as [s1 [E1 [F1 V1]]].
    destruct (alloc_json x h) as [v h1]. cbn [fst snd] in E1, V1. subst h1.
    destruct (IH Hr (h ++ s1)) as [s2 [E2 [F2 P2]]].
    destruct (alloc_fields r (h ++ s1)) as [ps h2]. cbn [fst snd] in *. subst h2.
    exists (s1 ++ s2). split; [symmetry; apply app_assoc|]. split.
    + apply Forall_app. split; [exact F1|].
      eapply Forall_impl; [exact F2|]. intros o Ho.
      eapply fresh_props_mono; [|exact Ho]. rewrite length_app. lia.
    + intros k' p [Heq|Hin].
      * inversion Heq; subst. split; [exact Hk | eauto].
      * eapply fresh_props_mono; [|exact P2|exact Hin]. rewrite length_app. lia.
Qed.

Lemma alloc_json_spec (j : json) :
  (forall k, In k (keys_deep j) -> K k) ->
  forall h, alloc_spec K h (alloc_json j h).
Proof.
  induction j as [| b | z | s | xs IH | kvs IH] using json_ind'; intros Hkeys h;
    try (exists []; cbn; split; [symmetry; apply app_nil_r | split; [constructor | exact Logic.I]]).
  - rewrite alloc_json_arr.
    destruct (alloc_elems_spec xs) with (i := 0) (h := h) as [suf [E [F P]]].
    + apply List.Forall_forall. intros x Hin. rewrite List.Forall_forall in IH.
      apply IH; [exact Hin|]. intros k Hk. apply Hkeys.
      eapply keys_deep_arr_elem; eassumption.
    + intros j Hj. apply Hkeys, keys_deep_arr_index, Hj.
    + exists (suf ++ [array_object (length xs) (fst (alloc_elems xs 0 h))]).
      cbn [fst snd]. rewrite E. split; [symmetry; apply app_assoc|]. split.
      * apply Forall_app. split; [exact F|]. constructor; [|constructor].
        intros k p Hin. cbn [array_object props] in Hin.
        apply in_app_or in Hin. destruct Hin as [Hin|[Heq|[]]]; [apply P, Hin|].
        inversion Heq; subst. split; [apply Hkeys; left; reflexivity|].
        eexists _, _. split; [reflexivity | exact Logic.I].
      * cbn. rewrite length_app. lia.
  - rewrite alloc_json_obj.
    destruct (alloc_fields_spec kvs) with (h := h) as [suf [E [F P]]].
    + apply List.Forall_forall. intros [k x] Hin. rewrite List.Forall_forall in IH.
      cbn [fst snd]. split; [apply Hkeys; eapply keys_deep_obj_key; eassumption|].
      apply (IH _ Hin). intros k' Hk'. apply Hkeys.
      eapply keys_deep_obj_value; eassumption.
    + exists (suf ++ [plain_object (fst (alloc_fields kvs h))]).
      cbn [fst snd]. rewrite E. split; [symmetry; apply app_assoc|]. split.
      * apply Forall_app. split; [exact F|]. constructor; [|constructor]. exact P.
      * cbn. rewrite length_app. lia.
Qed.
End alloc_json_spec.

(** ** Property lists *)

Lemma lookup_prop_In {A : Type} (k : string) (ps : list (string * A)) (p : A) :
  lookup_prop k ps = Some p -> In (k, p) ps.
Proof.
  induction ps as [|[k' p'] r IH]; cbn [lookup_prop]; [discriminate|].
  destruct (String.eqb k k') eqn:E.
  - intros [= ->]. apply String.eqb_eq in E. subst. left. reflexivity.
  - intros H. right. apply IH, H.
Qed.

Lemma update_prop_In {A : Type} (k : string) (p : A) (ps : list (string * A))
    (k' : string) (p' : A) :
  In (k', p') (update_prop k p ps) -> (k', p') = (k, p) \/ In (k', p') ps.
Proof.
  induction ps as [|[k0 p0] r IH]; cbn [update_prop].
  - intros [H|[]]. left. symmetry. exact H.
  - destruct (String.eqb k k0).
    + intros [H|H]; [left; symmetry; exact H | right; right; exact H].
    + intros [H|H]; [right; left; exact H|].
      destruct (IH H) as [Heq|Hin]; [left; exact Heq | right; right; exact Hin].
Qed.

Lemma lookup_update_same {A : Type} (k : string) (p : A) (ps : list (string * A)) :
  lookup_prop k (update_prop k p ps) = Some p.
Proof.
  induction ps as [|[k0 p0] r IH]; cbn [update_prop lookup_prop].
  - rewrite String.eqb_refl. reflexivity.
  - destruct (String.eqb k k0) eqn:E; cbn [lookup_prop].
    + rewrite String.eqb_refl. reflexivity.
    + rewrite E. exact IH.
Qed.

Lemma lookup_update_other {A : Type} (k k' : string) (p : A) (ps : list (string * A)) :
  k' <> k -> lookup_prop k' (update_prop k p ps) = lookup_prop k' ps.
Proof.
  intros Hne. assert (E' : String.eqb k' k = false) by (apply String.eqb_neq, Hne).
  induction ps as [|[k0 p0] r IH]; cbn [update_prop lookup_prop].
  - rewrite E'. reflexivity.
  - destruct (String.eqb k k0) eqn:E; cbn [lookup_prop].
    + apply String.eqb_eq in E. subst k0. rewrite E'. reflexivity.
    + destruct (String.eqb k' k0); [reflexivity | exact IH].
Qed.

(** ** A frozen object does not change *)

Lemma frozen_data (o : obj) (k : string) (v : value) (w e : bool) :
  frozen o = true -> lookup_prop k (props o) = Some (PData v w e) -> w = false.
Proof.
  unfold frozen. intros H Hk. apply andb_true_iff in H. destruct H as [_ H].
  rewrite List.forallb_forall in H. specialize (H _ (lookup_prop_In _ _ _ Hk)).
  cbn in H. destruct w; [discriminate | reflexivity].
Qed.

Lemma frozen_not_extensible (o : obj) : frozen o = true -> extensible o = false.
Proof.
  unfold frozen. intros H. apply andb_true_iff in H. destruct H as [H _].
  destruct (extensible o); [discriminate | reflexivity].
Qed.

Lemma write_effect_frozen (h : heap) (l : loc) (k : string) (v : value) (h' : heap)
    (o : obj) :
  write_effect h l k v h' -> h !! l = Some o -> frozen o = true -> False.
Proof.
  intros [o1 e H1 _ Hc|o1 p H1 _ He _] Hl Hf; rewrite H1 in Hl; inversion Hl; subst o1.
  - destruct Hc as [[v0 Hk]|[_ [He _]]].
    + apply (frozen_data _ _ _ _ _ Hf) in Hk. discriminate.
    + rewrite (frozen_not_extensible _ Hf) in He. discriminate.
  - rewrite (frozen_not_extensible _ Hf) in He. discriminate.
Qed.

Lemma assign_frozen (strict : bool) (h : heap) (t : value) (k : string) (v : value)
    (h' : heap) (p : loc) (o : obj) :
  h !! p = Some o -> frozen o = true ->
  assign strict h t k v = Some h' -> h' !! p = Some o.
Proof.
  intros Hp Hf Ha. destruct (assign_effect _ _ _ _ _ _ Ha) as [->|[l [-> He]]];
    [exact Hp|].
  destruct (Nat.eq_dec p l) as [->|Hne].
  - exfalso. eapply write_effect_frozen; eassumption.
  - rewrite (write_effect_other _ _ _ _ _ p He Hne). exact Hp.
Qed.

Lemma safeMerge_keeps_frozen (o : obj) (p : loc) (target : value) (source : json) :
  frozen o = true ->
  triple (fun st => st_heap st !! p = Some o) (safeMerge target source)
         (fun _ st => st_heap st !! p = Some o)
         (fun st => st_heap st !! p = Some o).
Proof.
  intros Hf.
  apply safeMerge_inv with (T := fun _ => True) (V := fun _ => True) (K := fun _ => True);
    auto.
  - intros st HI. split; [|exact Logic.I]. unfold alloc_state. cbn [st_heap].
    rewrite lookup_app_l; [exact HI | eapply lookup_lt_Some, HI].
  - intros st j _ HI. split; [|exact Logic.I]. unfold parse_state. cbn [st_heap].
    destruct (alloc_json_spec (fun _ => True) j (fun _ _ => Logic.I) (st_heap st))
      as [suf [E _]].
    rewrite E. rewrite lookup_app_l; [exact HI | eapply lookup_lt_Some, HI].
  - intros st t k v h' HI _ _ _ _ Ha. cbn. eapply assign_frozen; eassumption.
Qed.

(** ** Stores whose only links to [Object.prototype] are the denied keys *)

Lemma clean_links_spec (h : heap) :
  clean_links h = true <-> forall l o, h !! l = Some o -> clean_obj o.
Proof.
  unfold clean_links. rewrite List.forallb_forall. split.
  - intros H l o Hl k p Hin.
    assert (Ho : In o h) by (apply list_elem_of_In, list_elem_of_lookup; eauto).
    specialize (H o Ho). rewrite List.forallb_forall in H. apply H, Hin.
  - intros H o Ho. apply list_elem_of_In, list_elem_of_lookup in Ho.
    destruct Ho as [l Hl]. apply List.forallb_forall. intros [k p] Hin.
    eapply H; eassumption.
Qed.

Lemma find_prop_own (n : nat) (h : heap) (l : loc) (k : string) (p : prop) :
  find_prop n h l k = Some p ->
  exists l' o, h !! l' = Some o /\ lookup_prop k (props o) = Some p.
Proof.
  revert l. induction n as [|n IH]; intros l; cbn [find_prop]; [discriminate|].
  destruct (h !! l) as [o|] eqn:Hl; [|discriminate].
  destruct (lookup_prop k (props o)) as [q|] eqn:Hk.
  - intros [= ->]. eauto.
  - destruct (proto o) as [q|]; [apply IH | discriminate].
Qed.

Lemma find_prop_clean (n : nat) (h : heap) (l : loc) (k : string) (p : prop) :
  clean_links h = true -> DANGEROUS_KEYS_has k = false ->
  find_prop n h l k = Some p ->
  exists v w e, p = PData v w e /\ is_ref_to obj_proto v = false.
Proof.
  intros Hc Hd Hf. destruct (find_prop_own _ _ _ _ _ Hf) as [l' [o [Hl Hk]]].
  rewrite clean_links_spec in Hc.
  specialize (Hc l' o Hl k p (lookup_prop_In _ _ _ Hk)).
  unfold clean_prop in Hc. cbn [fst snd] in Hc. rewrite Hd in Hc. cbn [orb] in Hc.
  destruct p as [v w e|]; [|discriminate].
  exists v, w, e. split; [reflexivity|]. destruct (is_ref_to obj_proto v); [discriminate|reflexivity].
Qed.

Lemma value_of_prop_clean (n : nat) (h : heap) (l : loc) (k : string) (q : option loc) :
  clean_links h = true -> DANGEROUS_KEYS_has k = false ->
  is_ref_to obj_proto (value_of_prop q (find_prop n h l k)) = false.
Proof.
  intros Hc Hd. destruct (find_prop n h l k) as [p|] eqn:Hf; [|reflexivity].
  destruct (find_prop_clean _ _ _ _ _ Hc Hd Hf) as [v [w [e [-> Hv]]]]. exact Hv.
Qed.

Lemma get_clean (h : heap) (t : value) (k : string) (v : value) :
  clean_links h = true -> DANGEROUS_KEYS_has k = false ->
  get h t k = Some v -> is_ref_to obj_proto v = false.
Proof.
  intros Hc Hd. unfold get. destruct t as [| | b | z | s | l]; try discriminate;
    try (intros [= <-]; apply value_of_prop_clean; assumption).
  destruct (string_own s k) as [x|] eqn:Hs.
  - intros [= <-]. unfold string_own in Hs.
    destruct (String.eqb k "length"); [inversion Hs; reflexivity|].
    destruct (find _ _); inversion Hs; reflexivity.
  - intros [= <-]. apply value_of_prop_clean; assumption.
Qed.

Lemma clean_links_insert (h : heap) (l : loc) (o : obj) :
  clean_links h = true -> clean_obj o -> clean_links (<[l := o]> h) = true.
Proof.
  rewrite !clean_links_spec. intros Hc Ho l' o' Hl.
  apply list_lookup_insert_Some in Hl.
  destruct Hl as [[_ [<- _]]|[_ Hl]]; [exact Ho | eapply Hc, Hl].
Qed.

Lemma clean_links_app (h suf : heap) :
  clean_links h = true -> Forall clean_obj suf -> clean_links (h ++ suf) = true.
Proof.
  rewrite !clean_links_spec. intros Hc Hs l o Hl.
  apply lookup_app_Some in Hl. destruct Hl as [Hl|[_ Hl]]; [eapply Hc, Hl|].
  rewrite List.Forall_forall in Hs. apply Hs.
  apply list_elem_of_In, list_elem_of_lookup. eauto.
Qed.

Lemma fresh_obj_clean (K : string -> Prop) (n : nat) (o : obj) :
  0 < n -> fresh_obj K n o -> clean_obj o.
Proof.
  intros Hn Hf k p Hin. destruct (Hf k p Hin) as [_ [v [e [-> Hv]]]].
  unfold clean_prop. cbn [fst snd]. apply orb_true_iff. right.
  destruct v as [| | | | |l]; try reflexivity. cbn in Hv |- *.
  destruct l; [lia | reflexivity].
Qed.

Lemma write_effect_clean (h : heap) (l : loc) (k : string) (v : value) (h' : heap) :
  clean_links h = true -> DANGEROUS_KEYS_has k = false ->
  is_ref_to obj_proto v = false ->
  write_effect h l k v h' -> clean_links h' = true.
Proof.
  intros Hc Hd Hv [o e Hl _ _|o p Hl Hf _ _].
  - apply clean_links_insert; [exact Hc|].
    intros k' p' Hin. cbn [with_props props] in Hin.
    apply update_prop_In in Hin. destruct Hin as [Heq|Hin].
    + inversion Heq; subst. unfold clean_prop. cbn [fst snd].
      rewrite Hv. apply orb_true_r.
    + rewrite clean_links_spec in Hc. eapply Hc; eassumption.
  - destruct (find_prop_clean _ _ _ _ _ Hc Hd Hf) as [? [? [? [Heq _]]]]. discriminate.
Qed.

Lemma safeMerge_keeps_ancestor (o : option obj) (target : value) (source : json) :
  is_ref_to obj_proto target = false ->
  triple (ancestor_kept o) (safeMerge target source)
         (fun _ => ancestor_kept o) (ancestor_kept o).
Proof.
  intros Ht.
  apply safeMerge_inv with (T := fun t => is_ref_to obj_proto t = false)
                           (V := fun v => is_ref_to obj_proto v = false)
                           (K := fun _ => True); auto.
  - intros st [H0 [Hc Hn]]. split.
    + unfold alloc_state, ancestor_kept. cbn [st_heap]. split; [|split].
      * rewrite lookup_app_l; [exact H0 | exact Hn].
      * apply clean_links_app; [exact Hc|]. constructor; [|constructor].
        intros k p [].
      * rewrite length_app. lia.
    + cbn. destruct (length (st_heap st)); [lia | reflexivity].
  - intros st j _ [H0 [Hc Hn]].
    destruct (alloc_json_spec (fun _ => True) j (fun _ _ => Logic.I) (st_heap st))
      as [suf [E [F Hv]]].
    split.
    + unfold parse_state, ancestor_kept. cbn [st_heap]. rewrite E. split; [|split].
      * rewrite lookup_app_l; [exact H0 | exact Hn].
      * apply clean_links_app; [exact Hc|].
        eapply Forall_impl; [exact F|]. intros x Hx. eapply fresh_obj_clean; eassumption.
      * rewrite length_app. lia.
    + destruct (fst (alloc_json j (st_heap st))) as [| | | | |l]; try reflexivity.
      cbn in Hv |- *. destruct l; [lia | reflexivity].
  - intros st t k v h' [H0 [Hc Hn]] HT _ Hd HV Ha.
    unfold ancestor_kept. cbn [st_heap].
    destruct (assign_effect _ _ _ _ _ _ Ha) as [->|[l [-> He]]]; [auto|].
    split; [|split].
    + rewrite <- H0. eapply write_effect_other; [exact He|].
      intros <-. cbn in HT. discriminate.
    + eapply write_effect_clean; eassumption.
    + rewrite (write_effect_length _ _ _ _ _ He). exact Hn.
  - intros st t k v [_ [Hc _]] _ Hd Hg. eapply get_clean; eassumption.
Qed.

(** ** C1: [safeMerge] leaves [Object.prototype] unchanged *)

(** C1. For every target and every source tree, whatever keys the source
    holds at whatever depth, a run of [safeMerge] leaves the object
    [Object.prototype] as it was: same properties, same prototype, same
    attributes, whether the run completes or throws. *)
Theorem C1_safeMerge_keeps_Object_prototype (st : state) (target : value) (source : json) :
  ancestor_guarded (st_heap st) target ->
  st_heap (final_state (safeMerge target source st)) !! obj_proto
  = st_heap st !! obj_proto.
Proof.
  intros [Hg|[Ht [Hc Hn]]].
  - unfold guard_installed in Hg.
    destruct (st_heap st !! obj_proto) as [o|] eqn:Ho; [|discriminate].
    pose proof (safeMerge_keeps_frozen o obj_proto target source Hg st Ho) as H.
    destruct (safeMerge target source st); exact H.
  - pose proof (safeMerge_keeps_ancestor (st_heap st !! obj_proto) target source Ht st) as H.
    assert (Hk : ancestor_kept (st_heap st !! obj_proto) st) by (repeat split; assumption).
    specialize (H Hk).
    destruct (safeMerge target source st); destruct H as [H _]; exact H.
Qed.

(** An ordinary [{username: 'alice'}] in the realm that has not been frozen
    receives the attack payload. *)
Lemma C1_witness :
  st_heap (final_state (safeMerge (VRef 10) attack_payload (parse_state start profile_alice)))
    !! obj_proto
  = st_heap (parse_state start profile_alice) !! obj_proto.
Proof.
  apply C1_safeMerge_keeps_Object_prototype.
  right. split; [reflexivity|]. split; [reflexivity|]. cbn. lia.
Defined.

(** ** Names the source does not have *)

Lemma append_inj_l (s a b : string) : String.append s a = String.append s b -> a = b.
Proof. induction s as [|c s IH]; cbn; [auto|]. intros [= H]. apply IH, H. Qed.

Lemma append_dquote_inj (a b : string) :
  String.append a dquote = String.append b dquote -> a = b.
Proof.
  revert b. induction a as [|c a IH]; intros [|d b]; cbn; try reflexivity.
  - intros [= _ H]. destruct b; discriminate.
  - intros [= _ H]. destruct a; discriminate.
  - intros [= -> H]. f_equal. apply IH, H.
Qed.

Lemma blocked_warning_inj (a b : string) :
  blocked_warning a = blocked_warning b -> a = b.
Proof.
  unfold blocked_warning, quoted. intros H.
  apply append_inj_l, append_inj_l, append_dquote_inj in H. exact H.
Qed.

Lemma lookup_prop_absent {A : Type} (k : string) (ps : list (string * A)) :
  (forall k' p, In (k', p) ps -> k' <> k) -> lookup_prop k ps = None.
Proof.
  induction ps as [|[k' p] r IH]; intros H; cbn [lookup_prop]; [reflexivity|].
  destruct (String.eqb k k') eqn:E.
  - apply String.eqb_eq in E. subst. exfalso. apply (H k' p); [left|]; reflexivity.
  - apply IH. intros k0 p0 Hin. apply (H k0 p0). right. exact Hin.
Qed.

Lemma own_app (h suf : heap) (l : loc) (k : string) :
  Forall (fun o => lookup_prop k (props o) = None) suf ->
  own (h ++ suf) l k = own h l k.
Proof.
  intros Hs. unfold own. destruct (h !! l) as [o|] eqn:Hl.
  - rewrite (lookup_app_l_Some _ _ _ _ Hl). reflexivity.
  - destruct ((h ++ suf) !! l) as [o|] eqn:Hl'; [|reflexivity].
    apply lookup_app_Some in Hl'. destruct Hl' as [Hl'|[_ Hl']]; [congruence|].
    rewrite List.Forall_forall in Hs. apply Hs.
    apply list_elem_of_In, list_elem_of_lookup. eauto.
Qed.

Lemma write_effect_own_other (h : heap) (l : loc) (k : string) (v : value) (h' : heap)
    (l' : loc) (k' : string) :
  write_effect h l k v h' -> k' <> k -> own h' l' k' = own h l' k'.
Proof.
  intros He Hne. unfold own. destruct (Nat.eq_dec l' l) as [->|Hl].
  - destruct He as [o e Hl _ _|o p Hl _ _ _]; rewrite Hl;
      (rewrite list_lookup_insert_eq; [|eapply lookup_lt_Some, Hl]); cbn [props with_props with_proto].
    + apply lookup_update_other, Hne.
    + reflexivity.
  - rewrite (write_effect_other _ _ _ _ _ l' He Hl). reflexivity.
Qed.

Lemma safeMerge_untouched (k : string) (st0 : state) (target : value) (source : json) :
  ~ In k (source_keys source) ->
  triple (untouched k st0) (safeMerge target source)
         (fun _ => untouched k st0) (untouched k st0).
Proof.
  intros Hk.
  apply safeMerge_inv with (T := fun _ => True) (V := fun _ => True)
                           (K := fun k' => k' <> k); auto.
  - intros st key [Ho Hc] Hne _. split; [exact Ho|].
    unfold print_state. cbn [console]. intros Hin. apply in_app_or in Hin.
    destruct Hin as [Hin|[Heq|[]]]; [apply Hc, Hin|].
    apply blocked_warning_inj in Heq. congruence.
  - intros st [Ho Hc]. split; [|exact Logic.I]. split; [|exact Hc].
    intros l. unfold alloc_state. cbn [st_heap]. rewrite own_app; [apply Ho|].
    constructor; [reflexivity | constructor].
  - intros st j Hj [Ho Hc]. split; [|exact Logic.I]. split; [|exact Hc].
    intros l. unfold parse_state. cbn [st_heap].
    destruct (alloc_json_spec _ j Hj (st_heap st)) as [suf [E [F _]]].
    rewrite E, own_app; [apply Ho|].
    eapply Forall_impl; [exact F|]. intros o Hf. apply lookup_prop_absent.
    intros k' p Hin. apply (Hf k' p Hin).
  - intros st t k' v h' [Ho Hc] _ Hne _ _ Ha. split; [|exact Hc].
    intros l. cbn [st_heap]. rewrite <- Ho.
    destruct (assign_effect _ _ _ _ _ _ Ha) as [->|[l0 [_ He]]]; [reflexivity|].
    eapply write_effect_own_other; [exact He|]. congruence.
  - intros k' Hin ->. apply Hk, Hin.
Qed.

(** ** C3: denied keys below mappings *)

Lemma strip_denied_obj (kvs : list (string * json)) :
  strip_denied (JObj kvs) = JObj (strip_fields kvs).
Proof. reflexivity. Qed.

Lemma strip_denied_arr (xs : list json) :
  strip_denied (JArr xs) = JArr (map strip_value xs).
Proof. reflexivity. Qed.

Lemma denied_met_obj (kvs : list (string * json)) :
  denied_met (JObj kvs) = denied_fields kvs.
Proof. reflexivity. Qed.

Lemma denied_met_arr (xs : list json) :
  denied_met (JArr xs) = denied_elems xs.
Proof. reflexivity. Qed.

Lemma rel_bind {A B : Type} (d1 d2 : list string) (m1 m2 : M A) (f1 f2 : A -> M B) :
  rel d1 m1 m2 -> (forall a, rel d2 (f1 a) (f2 a)) ->
  rel (d1 ++ d2) (bind m1 f1) (bind m2 f2).
Proof.
  intros Hm Hf st1 st2 Hh. unfold bind. specialize (Hm st1 st2 Hh).
  destruct (m1 st1) as [a1 s1|e1 s1], (m2 st2) as [a2 s2|e2 s2]; try contradiction.
  - destruct Hm as [-> [Hh' [Hc1 Hc2]]]. specialize (Hf a2 s1 s2 Hh').
    destruct (f1 a2 s1) as [b1 t1|e1 t1], (f2 a2 s2) as [b2 t2|e2 t2]; try contradiction.
    + destruct Hf as [-> [Hh2 [Hd1 Hd2]]]. repeat split; try assumption.
      * rewrite Hd1, Hc1. symmetry. apply app_assoc.
      * congruence.
    + destruct Hf as [-> [Hh2 Hd2]]. repeat split; try assumption. congruence.
  - exact Hm.
Qed.

Lemma rel_bind_quiet {A B : Type} (d : list string) (m1 m2 : M A) (f1 f2 : A -> M B) :
  rel [] m1 m2 -> (forall a, rel d (f1 a) (f2 a)) ->
  rel d (bind m1 f1) (bind m2 f2).
Proof. intros Hm Hf. apply (rel_bind [] d); assumption. Qed.

Lemma rel_bind_then_quiet {A B : Type} (d : list string) (m1 m2 : M A) (f1 f2 : A -> M B) :
  rel d m1 m2 -> (forall a, rel [] (f1 a) (f2 a)) ->
  rel d (bind m1 f1) (bind m2 f2).
Proof.
  intros Hm Hf. rewrite <- (app_nil_r d). apply (rel_bind d []); assumption.
Qed.

Lemma rel_print {B : Type} (line : string) (d : list string) (m1 m2 : M B) :
  rel d m1 m2 -> rel (line :: d) (printM line ;; m1) m2.
Proof.
  intros Hm st1 st2 Hh. unfold bind, printM.
  specialize (Hm (mkState (st_heap st1) (console st1 ++ [line])) st2 Hh).
  cbn [console] in Hm.
  destruct (m1 _) as [a1 s1|e1 s1], (m2 st2) as [a2 s2|e2 s2]; try contradiction.
  - destruct Hm as [-> [Hh' [Hc1 Hc2]]]. repeat split; try assumption.
    rewrite Hc1. rewrite <- app_assoc. reflexivity.
  - exact Hm.
Qed.

Lemma rel_ret {A : Type} (a : A) : rel [] (ret a) (ret a).
Proof. intros st1 st2 Hh. cbn. rewrite app_nil_r. auto. Qed.

Lemma rel_throw {A : Type} (e : string) : rel [] (@throwM A e) (throwM e).
Proof. intros st1 st2 Hh. cbn. auto. Qed.

Lemma rel_getM (t : value) (k : string) : rel [] (getM t k) (getM t k).
Proof.
  intros st1 st2 Hh. unfold getM. rewrite Hh.
  destruct (get (st_heap st2) t k); cbn; rewrite ?app_nil_r; auto.
Qed.

Lemma rel_putM (t : value) (k : string) (v : value) : rel [] (putM t k v) (putM t k v).
Proof.
  intros st1 st2 Hh. unfold putM. rewrite Hh.
  destruct (assign false (st_heap st2) t k v); cbn; rewrite ?app_nil_r; auto.
Qed.

Lemma rel_typeofM (v : value) : rel [] (typeofM v) (typeofM v).
Proof. intros st1 st2 Hh. unfold typeofM. rewrite Hh. cbn. rewrite app_nil_r. auto. Qed.

Lemma rel_allocM (o : obj) : rel [] (allocM o) (allocM o).
Proof. intros st1 st2 Hh. unfold allocM. rewrite Hh. cbn. rewrite app_nil_r. auto. Qed.

Lemma rel_JSON_parse (j : json) : rel [] (JSON_parse j) (JSON_parse j).
Proof.
  intros st1 st2 Hh. unfold JSON_parse. rewrite Hh.
  destruct (alloc_json j (st_heap st2)). cbn. rewrite app_nil_r. auto.
Qed.

Lemma rel_put_all (t : value) (kvs : list (string * value)) :
  rel [] (put_all t kvs) (put_all t kvs).
Proof.
  induction kvs as [|[k v] r IH]; cbn [put_all]; [apply rel_ret|].
  apply rel_bind_quiet; [apply rel_putM | intros _; exact IH].
Qed.

Create HintDb rel.
#[local] Hint Resolve rel_ret rel_throw rel_getM rel_putM rel_typeofM rel_allocM
  rel_JSON_parse rel_put_all : rel.

Lemma rel_entry (target : value) (key : string) (v : json) :
  DANGEROUS_KEYS_has key = false ->
  (forall kvs, v = JObj kvs ->
     forall t, rel (map blocked_warning (denied_met v))
                   (safeMerge t v) (safeMerge t (strip_denied v))) ->
  rel (map blocked_warning (denied_value v))
      (safeMerge_entry target key v) (safeMerge_entry target key (strip_value v)).
Proof.
  intros Hd IH. unfold safeMerge_entry, safeMerge_step. rewrite Hd.
  destruct v as [| b | z | s | xs | kvs];
    try solve [cbn [strip_value denied_value map];
               apply rel_bind_quiet; [auto with rel | intros x; auto with rel]].
  cbn [strip_value denied_value]. rewrite strip_denied_obj.
  apply rel_bind_quiet.
  - apply rel_bind_quiet; [auto with rel|]. intros tv.
    apply rel_bind_quiet; [auto with rel|]. intros ty.
    destruct (negb (truthy tv) || negb (String.eqb ty "object")); [|auto with rel].
    apply rel_bind_quiet; [apply rel_allocM | intros o; auto with rel].
  - intros _. apply rel_bind_quiet; [auto with rel|]. intros tv'.
    apply rel_bind_then_quiet; [|intros _; auto with rel].
    rewrite <- strip_denied_obj. eapply IH. reflexivity.
Qed.

Lemma rel_fields (target : value) (kvs : list (string * json)) :
  Forall (fun kv => forall kvs', snd kv = JObj kvs' ->
            forall t, rel (map blocked_warning (denied_met (snd kv)))
                          (safeMerge t (snd kv)) (safeMerge t (strip_denied (snd kv)))) kvs ->
  rel (map blocked_warning (denied_fields kvs))
      (safeMerge_fields target kvs) (safeMerge_fields target (strip_fields kvs)).
Proof.
  induction kvs as [|[k v] r IH]; intros HF; cbn [safeMerge_fields strip_fields denied_fields].
  - apply rel_ret.
  - inversion HF as [|? ? Hv Hr]; subst. cbn [snd] in Hv. specialize (IH Hr).
    destruct (DANGEROUS_KEYS_has k) eqn:Hd.
    + unfold safeMerge_entry, safeMerge_step. rewrite Hd. cbn [map]. apply rel_print, IH.
    + cbn [safeMerge_fields]. rewrite map_app.
      apply rel_bind; [apply rel_entry; assumption | intros _; exact IH].
Qed.

Lemma rel_elems (target : value) (xs : list json) :
  Forall (fun v => forall kvs', v = JObj kvs' ->
            forall t, rel (map blocked_warning (denied_met v))
                          (safeMerge t v) (safeMerge t (strip_denied v))) xs ->
  forall i,
  rel (map blocked_warning (denied_elems xs))
      (safeMerge_elems target i xs) (safeMerge_elems target i (map strip_value xs)).
Proof.
  induction xs as [|v r IH]; intros HF i; cbn [safeMerge_elems map denied_elems].
  - apply rel_ret.
  - inversion HF as [|? ? Hv Hr]; subst. rewrite map_app.
    apply rel_bind; [|intros _; apply IH, Hr].
    apply rel_entry; [apply index_key_not_denied | exact Hv].
Qed.

(** A run on a source and a run on the source without its denied entries do
    the same to the store; the first prints one warning per denied entry. *)
Lemma safeMerge_strip (source : json) :
  forall target,
  rel (map blocked_warning (denied_met source))
      (safeMerge target source) (safeMerge target (strip_denied source)).
Proof.
  induction source as [| b | z | s | xs IH | kvs IH] using json_ind'; intros target.
  - apply rel_throw.
  - apply rel_ret.
  - apply rel_ret.
  - cbn [safeMerge strip_denied denied_met map].
    apply rel_bind_quiet; [apply rel_put_all | intros _; apply rel_ret].
  - rewrite strip_denied_arr, denied_met_arr.
    assert (H : rel (map blocked_warning (denied_elems xs))
                    (safeMerge_elems target 0 xs ;; ret target)
                    (safeMerge_elems target 0 (map strip_value xs) ;; ret target)).
    { apply rel_bind_then_quiet; [|intros _; apply rel_ret].
      apply rel_elems. eapply Forall_impl; [exact IH|]. intros v Hv kvs' _. exact Hv. }
    intros st1 st2 Hh. rewrite !safeMerge_arr_eq. apply H, Hh.
  - rewrite strip_denied_obj, denied_met_obj.
    assert (H : rel (map blocked_warning (denied_fields kvs))
                    (safeMerge_fields target kvs ;; ret target)
                    (safeMerge_fields target (strip_fields kvs) ;; ret target)).
    { apply rel_bind_then_quiet; [|intros _; apply rel_ret].
      apply rel_fields. eapply Forall_impl; [exact IH|]. intros v Hv kvs' _. exact Hv. }
    intros st1 st2 Hh. rewrite !safeMerge_obj_eq. apply H, Hh.
Qed.

Lemma strip_fields_denied (pre post : list (string * json)) (k : string) (v : json) :
  DANGEROUS_KEYS_has k = true ->
  strip_fields (pre ++ (k, v) :: post) = strip_fields (pre ++ post).
Proof.
  intros Hd. induction pre as [|[k0 v0] r IH]; cbn [app strip_fields].
  - rewrite Hd. reflexivity.
  - rewrite IH. reflexivity.
Qed.

Lemma denied_fields_In (pre post : list (string * json)) (k : string) (v : json) :
  DANGEROUS_KEYS_has k = true ->
  In k (denied_fields (pre ++ (k, v) :: post)).
Proof.
  intros Hd. induction pre as [|[k0 v0] r IH]; cbn [app denied_fields].
  - rewrite Hd. left. reflexivity.
  - destruct (DANGEROUS_KEYS_has k0); [right; exact IH|].
    apply in_or_app. right. exact IH.
Qed.

Lemma strip_nest (path : list string) (kvs : list (string * json)) :
  Forall not_denied path ->
  strip_denied (nest path (JObj kvs)) = nest path (JObj (strip_fields kvs)).
Proof.
  induction 1 as [|k p Hk Hp IH]; cbn [nest fold_right].
  - apply strip_denied_obj.
  - rewrite strip_denied_obj. cbn [strip_fields]. rewrite Hk.
    fold (nest p (JObj kvs)). fold (nest p (JObj (strip_fields kvs))).
    rewrite <- IH. destruct p; reflexivity.
Qed.

Lemma denied_met_nest (path : list string) (kvs : list (string * json)) :
  Forall not_denied path ->
  denied_met (nest path (JObj kvs)) = denied_fields kvs.
Proof.
  induction 1 as [|k p Hk Hp IH]; cbn [nest fold_right].
  - apply denied_met_obj.
  - rewrite denied_met_obj. cbn [denied_fields]. rewrite Hk.
    fold (nest p (JObj kvs)). rewrite app_nil_r. rewrite <- IH. destruct p; reflexivity.
Qed.

Lemma same_outcome_via {A : Type} (d1 d2 : list string) (m1 m2 m3 : M A) (st : state) :
  rel d1 m1 m3 -> rel d2 m2 m3 -> same_outcome (m1 st) (m2 st).
Proof.
  intros H1 H2. specialize (H1 st st eq_refl). specialize (H2 st st eq_refl).
  unfold same_outcome.
  destruct (m1 st) as [a1 s1|e1 s1], (m3 st) as [a3 s3|e3 s3]; try contradiction;
    destruct (m2 st) as [a2 s2|e2 s2]; try contradiction.
  - destruct H1 as [-> [-> _]], H2 as [-> [-> _]]. auto.
  - destruct H1 as [-> [-> _]], H2 as [-> [-> _]]. auto.
Qed.

(** C3 (as amended). A denied key that sits in a mapping reached from the
    source through any number of mappings -- [path] is the list of the keys
    that lead to it, none of them denied -- is treated at every depth as at
    depth 0: the run does to the store exactly what it does when the entry is
    absent (the key is not written and its value, container or not, is not
    entered), and a run that completes has printed the warning for the key. *)
Theorem C3_denied_key_at_any_mapping_depth (st : state) (target : value)
    (path : list string) (pre post : list (string * json)) (k : string) (v : json) :
  Forall not_denied path ->
  DANGEROUS_KEYS_has k = true ->
  same_outcome (safeMerge target (nest path (JObj (pre ++ (k, v) :: post))) st)
               (safeMerge target (nest path (JObj (pre ++ post))) st)
  /\ (completed (safeMerge target (nest path (JObj (pre ++ (k, v) :: post))) st) = true ->
      In (blocked_warning k)
         (console (final_state
            (safeMerge target (nest path (JObj (pre ++ (k, v) :: post))) st)))).
Proof.
  intros Hp Hd. split.
  - eapply same_outcome_via.
    + apply safeMerge_strip.
    + rewrite (strip_nest path _ Hp), (strip_fields_denied pre post k v Hd),
        <- (strip_nest path _ Hp).
      apply safeMerge_strip.
  - pose proof (safeMerge_strip (nest path (JObj (pre ++ (k, v) :: post))) target st st eq_refl)
      as H.
    destruct (safeMerge target (nest path (JObj (pre ++ (k, v) :: post))) st) as [a1 s1|e1 s1];
      [|discriminate].
    destruct (safeMerge target (strip_denied _) st) as [a2 s2|e2 s2]; [|contradiction].
    destruct H as [_ [_ [Hc _]]]. intros _. cbn [final_state]. rewrite Hc.
    apply in_or_app. right. apply in_map.
    rewrite (denied_met_nest path _ Hp). apply denied_fields_In, Hd.
Qed.

(** The example of the specification: [__proto__] under [a.b]. *)
Lemma C3_witness :
  same_outcome
    (safeMerge (VRef 10) (nest ["a"; "b"] (JObj ([] ++ ("__proto__", nested_proto) :: [])))
               (alloc_state start null_object))
    (safeMerge (VRef 10) (nest ["a"; "b"] (JObj ([] ++ [])))
               (alloc_state start null_object))
  /\ (completed (safeMerge (VRef 10)
                   (nest ["a"; "b"] (JObj ([] ++ ("__proto__", nested_proto) :: [])))
                   (alloc_state start null_object)) = true ->
      In (blocked_warning "__proto__")
         (console (final_state
            (safeMerge (VRef 10)
               (nest ["a"; "b"] (JObj ([] ++ ("__proto__", nested_proto) :: [])))
               (alloc_state start null_object))))).
Proof.
  apply C3_denied_key_at_any_mapping_depth.
  - repeat constructor.
  - reflexivity.
Defined.

(** A denied key inside a sequence is not rejected: the run completes
    without a warning, and [target.a[0]] owns [__proto__]. *)
Lemma C3_counterexample :
  completed (safeMerge (VRef 10) hidden_in_array (alloc_state start null_object)) = true
  /\ console (final_state
       (safeMerge (VRef 10) hidden_in_array (alloc_state start null_object))) = []
  /\ read_path (st_heap (final_state
       (safeMerge (VRef 10) hidden_in_array (alloc_state start null_object))))
       (VRef 10) ["a"; "0"] = Some (VRef 12)
  /\ own (st_heap (final_state
       (safeMerge (VRef 10) hidden_in_array (alloc_state start null_object))))
       12 "__proto__" = Some (PData (VRef 11) true true).
Proof. vm_compute. repeat split. Qed.

(** ** C2: only the own entries of the source are visited *)

Lemma enumerable_keys_all (ps : list (string * prop)) :
  Forall (fun kp => is_enumerable (snd kp) = true) ps ->
  map fst (filter (fun kp => is_enumerable (snd kp) && negb (mem_string (fst kp) [])) ps)
  = map fst ps.
Proof.
  induction 1 as [|[k p] r Hp Hr IH]; [reflexivity|].
  cbn [snd] in Hp. rewrite filter_cons_True.
  - cbn [map fst]. f_equal. exact IH.
  - cbn [fst snd mem_string existsb negb]. rewrite Hp. exact Logic.I.
Qed.

Lemma alloc_fields_names (kvs : list (string * json)) (h : heap) :
  map fst (fst (alloc_fields kvs h)) = map fst kvs
  /\ Forall (fun kp => is_enumerable (snd kp) = true) (fst (alloc_fields kvs h)).
Proof.
  revert h. induction kvs as [|[k x] r IH]; intros h; cbn [alloc_fields].
  - split; [reflexivity | constructor].
  - destruct (alloc_json x h) as [v h1]. specialize (IH h1).
    destruct (alloc_fields r h1) as [ps h2]. cbn [fst snd map] in *.
    destruct IH as [IH1 IH2]. split; [f_equal; exact IH1|].
    constructor; [reflexivity | exact IH2].
Qed.

Lemma alloc_elems_names (xs : list json) (i : nat) (h : heap) :
  map fst (fst (alloc_elems xs i h)) = map index_key (seq i (length xs))
  /\ Forall (fun kp => is_enumerable (snd kp) = true) (fst (alloc_elems xs i h)).
Proof.
  revert i h. induction xs as [|x r IH]; intros i h; cbn [alloc_elems].
  - split; [reflexivity | constructor].
  - destruct (alloc_json x h) as [v h1]. specialize (IH (S i) h1).
    destruct (alloc_elems r (S i) h1) as [ps h2]. cbn [fst snd map length seq] in *.
    destruct IH as [IH1 IH2]. split; [f_equal; exact IH1|].
    constructor; [reflexivity | exact IH2].
Qed.

(** [Object.keys] of a parsed value lists the entries of the tree, in
    their order, whatever the objects of the store hold: the names the
    value inherits are not among them. *)
Lemma parsed_own_keys (source : json) (h : heap) :
  Object_keys_at (snd (alloc_json source h)) (fst (alloc_json source h))
  = Fixed.Object_keys source.
Proof.
  destruct source as [| b | z | s | xs | kvs]; try reflexivity.
  - rewrite alloc_json_arr. cbn [fst snd Object_keys_at Fixed.Object_keys].
    rewrite list_lookup_middle by reflexivity.
    unfold enumerable_keys, array_object. cbn [props].
    destruct (alloc_elems_names xs 0 h) as [Hn He].
    rewrite filter_app, map_app, (enumerable_keys_all _ He), Hn.
    rewrite filter_cons_False by (cbn; tauto). rewrite filter_nil.
    apply app_nil_r.
  - rewrite alloc_json_obj. cbn [fst snd Object_keys_at Fixed.Object_keys].
    rewrite list_lookup_middle by reflexivity.
    unfold enumerable_keys, plain_object. cbn [props].
    destruct (alloc_fields_names kvs h) as [Hn He].
    rewrite (enumerable_keys_all _ He). exact Hn.
Qed.

Lemma own_key_denied (source : json) (k : string) :
  In k (Fixed.Object_keys source) -> DANGEROUS_KEYS_has k = true ->
  In k (denied_met source).
Proof.
  intros Hin Hd. destruct source as [| b | z | s | xs | kvs];
    cbn [Fixed.Object_keys] in Hin; try destruct Hin.
  - apply in_map_iff in Hin. destruct Hin as [i [<- _]].
    rewrite index_key_not_denied in Hd. discriminate.
  - apply in_map_iff in Hin. destruct Hin as [i [<- _]].
    rewrite index_key_not_denied in Hd. discriminate.
  - apply in_map_iff in Hin. destruct Hin as [[k' v] [Hk Hin]]. cbn [fst] in Hk. subst k'.
    apply in_split in Hin. destruct Hin as [pre [post ->]].
    rewrite denied_met_obj. apply denied_fields_In, Hd.
Qed.

(** C2. [safeMerge] acts on the own entries of the source and on nothing
    else.  [Object.keys] of the parsed source lists the entries of the
    tree, whatever it inherits; each of them is looked at (a denied one gets
    its warning); and a key [k] that is not an own key of the source at any
    level, such as one the source only inherits from [Object.prototype], is
    not written -- no object gains, loses or changes an own property named
    [k] -- and no warning about it is printed.  (For an object that is an
    array this is said of the names that are neither [length] nor an
    index.) *)
Theorem C2_safeMerge_own_keys_only (st : state) (target : value) (source : json)
    (k : string) :
  ~ In k (source_keys source) ->
  Object_keys_at (snd (alloc_json source (st_heap st))) (fst (alloc_json source (st_heap st)))
  = Fixed.Object_keys source
  /\ (forall k', In k' (Fixed.Object_keys source) -> DANGEROUS_KEYS_has k' = true ->
        completed (safeMerge target source st) = true ->
        In (blocked_warning k') (console (final_state (safeMerge target source st))))
  /\ (forall l, isArray (st_heap st) (VRef l) = false \/ array_name k = false ->
        own (st_heap (final_state (safeMerge target source st))) l k
        = own (st_heap st) l k)
  /\ (In (blocked_warning k) (console (final_state (safeMerge target source st)))
      -> In (blocked_warning k) (console st)).
Proof.
  intros Hk. split; [apply parsed_own_keys|]. split.
  - intros k' Hin Hd.
    pose proof (safeMerge_strip source target st st eq_refl) as H.
    destruct (safeMerge target source st) as [a1 s1|e1 s1]; [|discriminate].
    destruct (safeMerge target (strip_denied source) st) as [a2 s2|e2 s2]; [|contradiction].
    destruct H as [_ [_ [Hc _]]]. intros _. cbn [final_state]. rewrite Hc.
    apply in_or_app. right. apply in_map. apply own_key_denied; assumption.
  - pose proof (safeMerge_untouched k st target source Hk st) as H.
    assert (H0 : untouched k st st) by (split; auto).
    specialize (H H0).
    destruct (safeMerge target source st); destruct H as [H1 H2];
      (split; [intros l _; apply H1 | exact H2]).
Qed.

(** In a store whose [Object.prototype] carries an enumerable [isAdmin],
    a [for...in] over the parsed update meets [isAdmin]; [Object.keys] does
    not, and [safeMerge] leaves [isAdmin] alone everywhere. *)
Lemma C2_witness :
  In "isAdmin" (for_in_keys (st_heap (parse_state polluted display_update)) (VRef 13))
  /\ Object_keys_at (st_heap (parse_state polluted display_update)) (VRef 13)
     = ["displayName"]
  /\ forall l,
       own (st_heap (final_state (safeMerge (VRef 10) display_update polluted))) l "isAdmin"
       = own (st_heap polluted) l "isAdmin".
Proof.
  assert (H : ~ In "isAdmin" (source_keys display_update)).
  { cbn. intros [H|[]]. discriminate. }
  destruct (C2_safeMerge_own_keys_only polluted (VRef 10) display_update "isAdmin" H)
    as [H1 [_ [H3 _]]].
  split; [vm_compute; right; left; reflexivity|]. split; [exact H1|].
  intros l. apply H3. right. reflexivity.
Defined.


(** ** Writing into a slot of a well-formed target *)

Lemma find_prop_extend (n m : nat) (h suf : heap) (l : loc) (k : string) :
  chain_ends n h l = true ->
  find_prop (n + m) (h ++ suf) l k = find_prop n h l k.
Proof.
  revert l. induction n as [|n IH]; intros l; cbn [chain_ends]; [discriminate|].
  cbn [Nat.add find_prop].
  destruct (h !! l) as [o|] eqn:Hl; [|discriminate].
  rewrite (lookup_app_l_Some _ _ _ _ Hl).
  destruct (lookup_prop k (props o)); [reflexivity|].
  destruct (proto o) as [p|]; [apply IH | reflexivity].
Qed.

Lemma find_prop_has_own (n : nat) (h : heap) (l : loc) (k : string) (o : obj) (p : prop) :
  h !! l = Some o -> lookup_prop k (props o) = Some p ->
  find_prop (S n) h l k = Some p.
Proof. intros Hl Hk. cbn [find_prop]. rewrite Hl, Hk. reflexivity. Qed.

Lemma slot_writable_assign (h : heap) (l : loc) (k : string) (v : value) :
  slot_writable h l k = true ->
  exists h', assign false h (VRef l) k v = Some h' /\ stored h l k v h'.
Proof.
  unfold slot_writable, assign, ordinary_set, define_own, stored.
  destruct (find_prop (length h) h l k) as [[v0 [|] e0|]|];
    try discriminate;
    (destruct (h !! l) as [o|] eqn:Hl; [|discriminate]);
    (destruct (lookup_prop k (props o)) as [[v1 [|] e1|]|]; try discriminate);
    intros He; try rewrite He;
    (eexists; split; [reflexivity|]; eexists _, _; split; [reflexivity | reflexivity]).
Qed.

Lemma stored_get (h : heap) (l : loc) (k : string) (v : value) (h' : heap) :
  stored h l k v h' -> get h' (VRef l) k = Some v.
Proof.
  intros [o [e [Hl ->]]]. unfold get.
  assert (Hlt : l < length h) by (eapply lookup_lt_Some, Hl).
  rewrite length_insert. destruct (length h) as [|n] eqn:Hn; [lia|].
  rewrite (find_prop_has_own n _ l k
             (with_props o (update_prop k (PData v true e) (props o)))
             (PData v true e)).
  - reflexivity.
  - apply list_lookup_insert_eq. lia.
  - apply lookup_update_same.
Qed.

Lemma stored_other (h : heap) (l : loc) (k : string) (v : value) (h' : heap) (l' : loc) :
  stored h l k v h' -> l' <> l -> h' !! l' = h !! l'.
Proof. intros [o [e [Hl ->]]] Hne. apply list_lookup_insert_ne. congruence. Qed.

Lemma stored_length (h : heap) (l : loc) (k : string) (v : value) (h' : heap) :
  stored h l k v h' -> length h' = length h.
Proof. intros [o [e [Hl ->]]]. apply length_insert. Qed.

Lemma slot_writable_extend (h : heap) (o : obj) (l : loc) (k : string) :
  chain_ends (length h) h l = true ->
  slot_writable h l k = true -> slot_writable (h ++ [o]) l k = true.
Proof.
  intros Hc. unfold slot_writable. rewrite length_app. cbn [length].
  rewrite (find_prop_extend (length h) 1 h [o] l k Hc).
  destruct (find_prop (length h) h l k) as [[v0 [|] e0|]|]; try discriminate;
    (destruct (h !! l) as [x|] eqn:Hl; [|discriminate]);
    rewrite (lookup_app_l_Some _ _ _ _ Hl); auto.
Qed.

(** The step of [safeMerge] for a mapping value whose slot in the target is
    empty or holds something that is not an object: a fresh object without
    prototype is stored in the slot, and the merge goes on inside it. *)
Lemma safeMerge_entry_fresh (st : state) (l : loc) (k : string) (kvs : list (string * json))
    (tv : value) :
  not_denied k ->
  chain_ends (length (st_heap st)) (st_heap st) l = true ->
  slot_writable (st_heap st) l k = true ->
  get (st_heap st) (VRef l) k = Some tv ->
  negb (truthy tv) || negb (String.eqb (typeof (st_heap st) tv) "object") = true ->
  exists st2,
    safeMerge_entry (VRef l) k (JObj kvs) st
    = (safeMerge (VRef (length (st_heap st))) (JObj kvs) ;; ret tt) st2
    /\ stored (st_heap st ++ [null_object]) l k (VRef (length (st_heap st))) (st_heap st2)
    /\ console st2 = console st.
Proof.
  intros Hd Hc Hw Hg Hcond.
  destruct (slot_writable_assign (st_heap st ++ [null_object]) l k
              (VRef (length (st_heap st)))
              (slot_writable_extend _ _ _ _ Hc Hw)) as [h2 [Ha Hs]].
  exists (mkState h2 (console st)). split; [|split; [exact Hs | reflexivity]].
  unfold safeMerge_entry, safeMerge_step. rewrite Hd.
  unfold bind at 1. unfold bind at 1. unfold getM at 1. rewrite Hg.
  unfold bind at 1. unfold typeofM at 1. rewrite Hcond.
  unfold bind at 1. unfold Object_create_null, allocM. unfold putM. cbn [st_heap console].
  fold null_object. rewrite Ha. unfold bind at 1. unfold getM. cbn [st_heap].
  rewrite (stored_get _ _ _ _ _ Hs). reflexivity.
Qed.

(** ** C8: containers *)

Lemma slot_writable_grown (h suf : heap) (l : loc) (k : string) :
  chain_ends (length h) h l = true ->
  slot_writable h l k = true -> slot_writable (h ++ suf) l k = true.
Proof.
  intros Hc. unfold slot_writable. rewrite length_app.
  rewrite (find_prop_extend (length h) (length suf) h suf l k Hc).
  destruct (find_prop (length h) h l k) as [[v0 [|] e0|]|]; try discriminate;
    (destruct (h !! l) as [x|] eqn:Hl; [|discriminate]);
    rewrite (lookup_app_l_Some _ _ _ _ Hl); auto.
Qed.

Lemma slot_writable_exists (h : heap) (l : loc) (k : string) :
  slot_writable h l k = true -> l < length h.
Proof.
  unfold slot_writable.
  destruct (find_prop _ _ _ _) as [[? [|] ?|]|]; try discriminate;
    (destruct (h !! l) eqn:Hl; [intros _; eapply lookup_lt_Some, Hl | discriminate]).
Qed.

Lemma stored_own_other (h : heap) (l : loc) (k : string) (v : value) (h' : heap)
    (k' : string) :
  stored h l k v h' -> k' <> k -> own h' l k' = own h l k'.
Proof.
  intros [o [e [Hl ->]]] Hne. unfold own. rewrite Hl.
  rewrite list_lookup_insert_eq by (eapply lookup_lt_Some, Hl).
  cbn [with_props props]. apply lookup_update_other, Hne.
Qed.

Lemma stored_proto (h : heap) (l : loc) (k : string) (v : value) (h' : heap) :
  stored h l k v h' -> proto_of h' l = proto_of h l.
Proof.
  intros [o [e [Hl ->]]]. unfold proto_of. rewrite Hl.
  rewrite list_lookup_insert_eq by (eapply lookup_lt_Some, Hl). reflexivity.
Qed.

Lemma own_grown (h suf : heap) (l : loc) (k : string) :
  l < length h -> own (h ++ suf) l k = own h l k.
Proof. intros Hl. unfold own. rewrite lookup_app_l; [reflexivity | exact Hl]. Qed.

Lemma proto_of_grown (h suf : heap) (l : loc) :
  l < length h -> proto_of (h ++ suf) l = proto_of h l.
Proof. intros Hl. unfold proto_of. rewrite lookup_app_l; [reflexivity | exact Hl]. Qed.

(** What [JSON.parse] returns for a sequence: a new array object, linked to
    [Array.prototype], at the end of the store it has extended. *)
Lemma alloc_json_sequence (xs : list json) (h : heap) :
  exists r suf ps,
    alloc_json (JArr xs) h = (VRef r, h ++ suf)
    /\ length h <= r
    /\ (h ++ suf) !! r = Some (array_object (length xs) ps).
Proof.
  destruct (alloc_json_spec (fun _ => True) (JArr xs) (fun _ _ => Logic.I) h)
    as [suf [E [_ Hv]]].
  rewrite alloc_json_arr in E, Hv |- *. cbn [fst snd] in E, Hv.
  exists (length (snd (alloc_elems xs 0 h))), suf, (fst (alloc_elems xs 0 h)).
  split; [rewrite E; reflexivity|]. split; [exact Hv|].
  rewrite <- E. apply list_lookup_middle. reflexivity.
Qed.

(** The step of [safeMerge] for a sequence value: the array is stored in
    the slot as it is; no other object is made. *)
Lemma safeMerge_entry_sequence (st : state) (l : loc) (k : string) (xs : list json) :
  not_denied k ->
  chain_ends (length (st_heap st)) (st_heap st) l = true ->
  slot_writable (st_heap st) l k = true ->
  exists st2 r ps,
    safeMerge_entry (VRef l) k (JArr xs) st = Normal tt st2
    /\ fst (alloc_json (JArr xs) (st_heap st)) = VRef r
    /\ length (st_heap st) <= r
    /\ snd (alloc_json (JArr xs) (st_heap st)) !! r = Some (array_object (length xs) ps)
    /\ stored (snd (alloc_json (JArr xs) (st_heap st))) l k (VRef r) (st_heap st2)
    /\ console st2 = console st.
Proof.
  intros Hd Hc Hw.
  destruct (alloc_json_sequence xs (st_heap st)) as [r [suf [ps [E [Hr Ha]]]]].
  destruct (slot_writable_assign (st_heap st ++ suf) l k (VRef r)
              (slot_writable_grown _ suf _ _ Hc Hw)) as [h2 [Hput Hs]].
  exists (mkState h2 (console st)), r, ps.
  rewrite E. cbn [fst snd st_heap console].
  split; [|repeat split; assumption].
  unfold safeMerge_entry, safeMerge_step. rewrite Hd.
  unfold bind, JSON_parse. rewrite E. unfold putM. cbn [st_heap console].
  rewrite Hput. reflexivity.
Qed.

(** C8 (as amended). For a key [k] that is not denied and a target that
    takes the write, the target not being an array or [k] being neither
    [length] nor an index.  When the value is a mapping and
    the slot [target[k]] is empty, falsy or holds something whose [typeof]
    is not [object], the merge allocates a new object with no properties
    and no prototype, stores it in the slot, and goes on inside it; at that
    point nothing else has changed: not another property of the target, not
    its prototype, not another object.  When the slot already holds an
    object -- mapping or array -- the merge goes on inside that object and
    allocates nothing.  When the value is a sequence it is not merged: the
    array that [JSON.parse] built, linked to [Array.prototype], is stored in
    the slot as it is, whatever the slot held, and no other object is
    made. *)
Theorem C8_mapping_value_fresh_container (st : state) (l : loc) (k : string) (tv : value) :
  not_denied k ->
  isArray (st_heap st) (VRef l) = false \/ array_name k = false ->
  chain_ends (length (st_heap st)) (st_heap st) l = true ->
  slot_writable (st_heap st) l k = true ->
  get (st_heap st) (VRef l) k = Some tv ->
  (forall kvs,
     if negb (truthy tv) || negb (String.eqb (typeof (st_heap st) tv) "object")
     then
       exists st2,
         safeMerge_entry (VRef l) k (JObj kvs) st
         = (safeMerge (VRef (length (st_heap st))) (JObj kvs) ;; ret tt) st2
         /\ stored (st_heap st ++ [null_object]) l k (VRef (length (st_heap st)))
                   (st_heap st2)
         /\ st_heap st2 !! length (st_heap st) = Some null_object
         /\ get (st_heap st2) (VRef l) k = Some (VRef (length (st_heap st)))
         /\ (forall k', k' <> k -> own (st_heap st2) l k' = own (st_heap st) l k')
         /\ proto_of (st_heap st2) l = proto_of (st_heap st) l
         /\ (forall l', l' <> l -> l' < length (st_heap st) ->
               st_heap st2 !! l' = st_heap st !! l')
         /\ console st2 = console st
     else
       safeMerge_entry (VRef l) k (JObj kvs) st = (safeMerge tv (JObj kvs) ;; ret tt) st)
  /\ (forall xs,
        exists st2 r,
          safeMerge_entry (VRef l) k (JArr xs) st = Normal tt st2
          /\ fst (alloc_json (JArr xs) (st_heap st)) = VRef r
          /\ stored (snd (alloc_json (JArr xs) (st_heap st))) l k (VRef r) (st_heap st2)
          /\ length (st_heap st) <= r
          /\ get (st_heap st2) (VRef l) k = Some (VRef r)
          /\ isArray (st_heap st2) (VRef r) = true
          /\ proto_of (st_heap st2) r = Some array_proto
          /\ (forall k', k' <> k -> own (st_heap st2) l k' = own (st_heap st) l k')
          /\ proto_of (st_heap st2) l = proto_of (st_heap st) l
          /\ (forall l', l' <> l -> l' < length (st_heap st) ->
                st_heap st2 !! l' = st_heap st !! l')
          /\ console st2 = console st).
Proof.
  intros Hd _ Hc Hw Hg.
  assert (Hl : l < length (st_heap st)) by (eapply slot_writable_exists, Hw).
  split.
  - intros kvs.
    destruct (negb (truthy tv) || negb (String.eqb (typeof (st_heap st) tv) "object"))
      eqn:Hcond.
    + destruct (safeMerge_entry_fresh st l k kvs tv Hd Hc Hw Hg Hcond)
        as [st2 [E [Hs Hcon]]].
      exists st2. split; [exact E|]. split; [exact Hs|].
      split; [|split; [|split; [|split; [|split; [|exact Hcon]]]]].
      * rewrite (stored_other _ _ _ _ _ (length (st_heap st)) Hs); [|lia].
        apply list_lookup_middle. reflexivity.
      * eapply stored_get, Hs.
      * intros k' Hne. rewrite (stored_own_other _ _ _ _ _ k' Hs Hne).
        apply own_grown, Hl.
      * rewrite (stored_proto _ _ _ _ _ Hs). apply proto_of_grown, Hl.
      * intros l' Hne Hlt. rewrite (stored_other _ _ _ _ _ l' Hs Hne).
        apply lookup_app_l. exact Hlt.
    + unfold safeMerge_entry, safeMerge_step. rewrite Hd.
      unfold bind at 1. unfold bind at 1. unfold getM at 1. rewrite Hg.
      unfold bind at 1. unfold typeofM at 1. rewrite Hcond.
      unfold ret at 1. unfold bind at 1. unfold getM. rewrite Hg. reflexivity.
  - intros xs.
    destruct (safeMerge_entry_sequence st l k xs Hd Hc Hw)
      as [st2 [r [ps [E [Hv [Hr [Ha [Hs Hcon]]]]]]]].
    assert (Hgrow : exists suf, snd (alloc_json (JArr xs) (st_heap st)) = st_heap st ++ suf).
    { destruct (alloc_json_sequence xs (st_heap st)) as [r' [suf [ps' [E' _]]]].
      exists suf. rewrite E'. reflexivity. }
    destruct Hgrow as [suf Hsuf].
    exists st2, r. split; [exact E|]. split; [exact Hv|]. split; [exact Hs|].
    split; [exact Hr|].
    assert (Hr2 : st_heap st2 !! r = Some (array_object (length xs) ps)).
    { rewrite (stored_other _ _ _ _ _ r Hs); [exact Ha | lia]. }
    split; [eapply stored_get, Hs|].
    split; [unfold isArray; rewrite Hr2; reflexivity|].
    split; [unfold proto_of; rewrite Hr2; reflexivity|].
    split; [|split; [|split; [|exact Hcon]]].
    + intros k' Hne. rewrite (stored_own_other _ _ _ _ _ k' Hs Hne), Hsuf.
      apply own_grown, Hl.
    + rewrite (stored_proto _ _ _ _ _ Hs), Hsuf. apply proto_of_grown, Hl.
    + intros l' Hne Hlt. rewrite (stored_other _ _ _ _ _ l' Hs Hne), Hsuf.
      apply lookup_app_l. exact Hlt.
Qed.

(** A mapping, then a sequence, arrive under [prefs] for a user object
    that has no such property. *)
Lemma C8_witness :
  (forall kvs,
     exists st2,
       safeMerge_entry (VRef 10) "prefs" (JObj kvs) (alloc_state start null_object)
       = (safeMerge (VRef 11) (JObj kvs) ;; ret tt) st2
       /\ st_heap st2 !! 11 = Some null_object
       /\ get (st_heap st2) (VRef 10) "prefs" = Some (VRef 11))
  /\ (forall xs,
        exists st2 r,
          safeMerge_entry (VRef 10) "prefs" (JArr xs) (alloc_state start null_object)
          = Normal tt st2
          /\ get (st_heap st2) (VRef 10) "prefs" = Some (VRef r)
          /\ proto_of (st_heap st2) r = Some array_proto).
Proof.
  destruct (C8_mapping_value_fresh_container (alloc_state start null_object) 10 "prefs"
              VUndef eq_refl (or_introl eq_refl) eq_refl eq_refl eq_refl) as [Hm Hs].
  split.
  - intros kvs. destruct (Hm kvs) as [st2 [E [_ [Hn [Hg _]]]]].
    exists st2. auto.
  - intros xs. destruct (Hs xs) as [st2 [r [E [_ [_ [_ [Hg [_ [Hp _]]]]]]]]].
    exists st2, r. auto.
Defined.

(** A sequence value is stored as it is: no container is created for it, and
    the array that lands in the slot inherits from [Array.prototype] and so
    from [Object.prototype].  A mapping that then arrives for the same slot
    is merged into that array. *)
Lemma C8_counterexample :
  let c1 := safeMerge (VRef 10) with_list (alloc_state start null_object) in
  let c2 := safeMerge (VRef 10) then_mapping (final_state c1) in
  completed c1 = true
  /\ read (final_state c1) (VRef 10) "a" = VRef 11
  /\ proto_of (st_heap (final_state c1)) 11 = Some array_proto
  /\ chain_reaches 3 (st_heap (final_state c1)) (Some 11) obj_proto = true
  /\ length (st_heap (final_state c1)) = 12
  /\ completed c2 = true
  /\ read (final_state c2) (VRef 10) "a" = VRef 11
  /\ length (st_heap (final_state c2)) = 12
  /\ read (final_state c2) (VRef 11) "x" = VNum 2.
Proof. vm_compute. repeat split. Qed.

(** ** C6: no bound on the depth *)

Lemma empty_null_slot (h : heap) (l : loc) (o : obj) (k : string) :
  h !! l = Some o -> empty_null_object o ->
  slot_writable h l k = true
  /\ get h (VRef l) k = Some VUndef
  /\ chain_ends (length h) h l = true.
Proof.
  intros Hl [Hp [Hq He]].
  assert (Hlt : l < length h) by (eapply lookup_lt_Some, Hl).
  unfold slot_writable, get. destruct (length h) as [|n]; [lia|].
  cbn [find_prop chain_ends]. rewrite Hl, Hp, Hq. cbn [lookup_prop].
  auto.
Qed.

Lemma get_own_data (h : heap) (l : loc) (o : obj) (k : string) (v : value) (w e : bool) :
  h !! l = Some o -> lookup_prop k (props o) = Some (PData v w e) ->
  get h (VRef l) k = Some v.
Proof.
  intros Hl Hk. assert (Hlt : l < length h) by (eapply lookup_lt_Some, Hl).
  unfold get. destruct (length h) as [|n]; [lia|].
  rewrite (find_prop_has_own n h l k o _ Hl Hk). reflexivity.
Qed.

Lemma alloc_json_scalar (x : json) (h : heap) :
  is_container x = false -> alloc_json x h = (scalar_value x, h).
Proof. destruct x; cbn; try reflexivity; discriminate. Qed.

Lemma safeMerge_entry_scalar (st : state) (l : loc) (k : string) (x : json) :
  not_denied k -> is_container x = false ->
  slot_writable (st_heap st) l k = true ->
  exists h', safeMerge_entry (VRef l) k x st = Normal tt (mkState h' (console st))
             /\ stored (st_heap st) l k (scalar_value x) h'.
Proof.
  intros Hd Hx Hw.
  destruct (slot_writable_assign _ _ _ (scalar_value x) Hw) as [h' [Ha Hs]].
  exists h'. split; [|exact Hs].
  unfold safeMerge_entry, safeMerge_step. rewrite Hd.
  assert (E : (let* v := JSON_parse x in putM (VRef l) k v) st
              = Normal tt (mkState h' (console st))).
  { unfold bind, JSON_parse. rewrite (alloc_json_scalar x _ Hx).
    unfold putM. cbn [st_heap console]. rewrite Ha. reflexivity. }
  destruct x; try exact E. discriminate.
Qed.

Lemma stored_lookup (h : heap) (l : loc) (k : string) (v : value) (h' : heap) :
  stored h l k v h' ->
  exists o' e, h' !! l = Some o' /\ lookup_prop k (props o') = Some (PData v true e).
Proof.
  intros [o [e [Hl ->]]]. eexists _, e. split.
  - apply list_lookup_insert_eq. eapply lookup_lt_Some, Hl.
  - apply lookup_update_same.
Qed.

(** Merging a chain of nested mappings of any length into an empty object
    without prototype. *)
Lemma safeMerge_nest (path : list string) (x : json) :
  path <> [] -> Forall not_denied path -> is_container x = false ->
  forall st l o,
  st_heap st !! l = Some o -> empty_null_object o ->
  exists st',
    safeMerge (VRef l) (nest path x) st = Normal (VRef l) st'
    /\ console st' = console st
    /\ read_path (st_heap st') (VRef l) path = Some (scalar_value x)
    /\ (forall l', l' <> l -> l' < length (st_heap st) ->
          st_heap st' !! l' = st_heap st !! l')
    /\ length (st_heap st) <= length (st_heap st').
Proof.
  intros Hne Hp Hx. induction path as [|k p IH]; [contradiction|].
  inversion Hp as [|? ? Hk Hp']; subst. intros st l o Hl Ho.
  destruct (empty_null_slot _ _ _ k Hl Ho) as [Hw [Hg Hc]].
  destruct p as [|k' p'].
  - cbn [nest fold_right]. rewrite safeMerge_obj_eq. cbn [safeMerge_fields].
    destruct (safeMerge_entry_scalar st l k x Hk Hx Hw) as [h' [E Hs]].
    unfold bind at 1. unfold bind at 1. rewrite E.
    eexists. split; [reflexivity|]. cbn [st_heap console read_path].
    split; [reflexivity|]. split; [|split].
    + rewrite (stored_get _ _ _ _ _ Hs). reflexivity.
    + intros l' Hl' _. eapply stored_other; eassumption.
    + rewrite (stored_length _ _ _ _ _ Hs). lia.
  - assert (Hnest : nest (k :: k' :: p') x = JObj [(k, JObj [(k', nest p' x)])])
      by reflexivity.
    rewrite Hnest, safeMerge_obj_eq. cbn [safeMerge_fields].
    destruct (safeMerge_entry_fresh st l k [(k', nest p' x)] VUndef Hk Hc Hw Hg eq_refl)
      as [st2 [E [Hs Hcon]]].
    assert (Hlt : l < length (st_heap st)) by (eapply lookup_lt_Some, Hl).
    assert (Hn : st_heap st2 !! length (st_heap st) = Some null_object).
    { rewrite (stored_other _ l k (VRef (length (st_heap st))) _ (length (st_heap st)) Hs);
        [|lia].
      apply list_lookup_middle. reflexivity. }
    destruct (IH ltac:(discriminate) Hp' st2 (length (st_heap st)) null_object Hn)
      as [st3 [E3 [Hc3 [Hr3 [Hf3 Hlen3]]]]].
    { repeat split. }
    assert (Hlen2 : length (st_heap st2) = S (length (st_heap st))).
    { rewrite (stored_length _ _ _ _ _ Hs), length_app. cbn. lia. }
    unfold bind at 1. unfold bind at 1. rewrite E.
    unfold bind at 1. change (nest (k' :: p') x) with (JObj [(k', nest p' x)]) in E3.
    rewrite E3. exists st3. split; [reflexivity|].
    split; [congruence|]. split; [|split].
    + cbn [read_path].
      destruct (stored_lookup _ _ _ _ _ Hs) as [o' [e [Ho' Hk']]].
      rewrite (get_own_data (st_heap st3) l o' k (VRef (length (st_heap st))) true e);
        [exact Hr3| |exact Hk'].
      rewrite Hf3; [exact Ho' | lia | lia].
    + intros l' Hl' Hlt'. rewrite Hf3; [|lia|lia].
      rewrite (stored_other _ _ _ _ _ l' Hs Hl'). apply lookup_app_l. exact Hlt'.
    + lia.
Qed.

(** C6 (as amended). [safeMerge] has no bound on the depth: a chain of
    nested mappings of any length, merged into an empty object without
    prototype, is followed to its end.  The run completes, prints nothing,
    and the leaf is read back from the target at the full path. *)
Theorem C6_safeMerge_descends_to_any_depth (st : state) (l : loc) (o : obj)
    (path : list string) (x : json) :
  path <> [] -> Forall not_denied path -> is_container x = false ->
  st_heap st !! l = Some o -> empty_null_object o ->
  completed (safeMerge (VRef l) (nest path x) st) = true
  /\ console (final_state (safeMerge (VRef l) (nest path x) st)) = console st
  /\ read_path (st_heap (final_state (safeMerge (VRef l) (nest path x) st)))
               (VRef l) path = Some (scalar_value x).
Proof.
  intros Hne Hp Hx Hl Ho.
  destruct (safeMerge_nest path x Hne Hp Hx st l o Hl Ho) as [st' [E [Hc [Hr _]]]].
  rewrite E. cbn [completed final_state]. auto.
Qed.

Lemma C6_witness :
  completed (safeMerge (VRef 10) (nest ["a"; "b"; "c"] (JNum 1))
                       (alloc_state start null_object)) = true
  /\ console (final_state (safeMerge (VRef 10) (nest ["a"; "b"; "c"] (JNum 1))
                                     (alloc_state start null_object)))
     = console (alloc_state start null_object)
  /\ read_path (st_heap (final_state (safeMerge (VRef 10) (nest ["a"; "b"; "c"] (JNum 1))
                                                (alloc_state start null_object))))
               (VRef 10) ["a"; "b"; "c"] = Some (scalar_value (JNum 1)).
Proof.
  apply (C6_safeMerge_descends_to_any_depth (alloc_state start null_object) 10 null_object).
  - discriminate.
  - repeat constructor.
  - reflexivity.
  - reflexivity.
  - repeat split.
Defined.

(** Scenario C of the specification, target [{}]: nothing is rejected at
    [a.b]; the run completes silently and [target.a.b.c] is 1. *)
Lemma C6_counterexample :
  let c := (let* t := new_object in safeMerge t scenario_C) start in
  completed c = true
  /\ console (final_state c) = []
  /\ read_path (st_heap (final_state c)) (VRef 10) ["a"; "b"; "c"] = Some (VNum 1).
Proof. vm_compute. repeat split. Qed.

(** ** C9: the deny-list is matched exactly *)

Lemma nest_is_mapping (path : list string) (kvs : list (string * json)) :
  exists kvs', nest path (JObj kvs) = JObj kvs'.
Proof. destruct path as [|k p]; eexists; reflexivity. Qed.

Lemma nest_last (path : list string) (k : string) (x : json) :
  nest (path ++ [k]) x = nest path (JObj [(k, x)]).
Proof. unfold nest. rewrite fold_right_app. reflexivity. Qed.

(** A denied key at the end of a chain of nested mappings, merged into an
    empty object without prototype: the chain is followed, the warning is
    printed, and the object the chain leads to stays empty. *)
Lemma safeMerge_nest_denied (path : list string) (k : string) (x : json) :
  Forall not_denied path -> DANGEROUS_KEYS_has k = true ->
  forall st l o,
  st_heap st !! l = Some o -> empty_null_object o ->
  exists st' c oc,
    safeMerge (VRef l) (nest path (JObj [(k, x)])) st = Normal (VRef l) st'
    /\ console st' = console st ++ [blocked_warning k]
    /\ read_path (st_heap st') (VRef l) path = Some (VRef c)
    /\ st_heap st' !! c = Some oc /\ empty_null_object oc
    /\ (forall l', l' <> l -> l' < length (st_heap st) ->
          st_heap st' !! l' = st_heap st !! l').
Proof.
  intros Hp Hd. induction path as [|k0 p IH]; intros st l o Hl Ho.
  - exists (print_state st (blocked_warning k)), l, o.
    cbn [nest fold_right]. rewrite safeMerge_obj_eq. cbn [safeMerge_fields].
    unfold bind, safeMerge_entry, safeMerge_step. rewrite Hd.
    repeat split; try reflexivity; try exact Hl; apply Ho.
  - inversion Hp as [|? ? Hk0 Hp']; subst.
    destruct (empty_null_slot _ _ _ k0 Hl Ho) as [Hw [Hg Hc]].
    destruct (nest_is_mapping p [(k, x)]) as [kvs' Hn].
    assert (Hnest : nest (k0 :: p) (JObj [(k, x)]) = JObj [(k0, JObj kvs')]).
    { cbn [nest fold_right]. fold (nest p (JObj [(k, x)])). rewrite Hn. reflexivity. }
    rewrite Hnest, safeMerge_obj_eq. cbn [safeMerge_fields].
    destruct (safeMerge_entry_fresh st l k0 kvs' VUndef Hk0 Hc Hw Hg eq_refl)
      as [st2 [E [Hs Hcon]]].
    assert (Hlt : l < length (st_heap st)) by (eapply lookup_lt_Some, Hl).
    assert (Hfresh : st_heap st2 !! length (st_heap st) = Some null_object).
    { rewrite (stored_other _ l k0 (VRef (length (st_heap st))) _ (length (st_heap st)) Hs);
        [|lia].
      apply list_lookup_middle. reflexivity. }
    destruct (IH Hp' st2 (length (st_heap st)) null_object Hfresh)
      as [st3 [c [oc [E3 [Hc3 [Hr3 [Hoc [Hemp Hf3]]]]]]]].
    { repeat split. }
    assert (Hlen2 : length (st_heap st2) = S (length (st_heap st))).
    { rewrite (stored_length _ _ _ _ _ Hs), length_app. cbn. lia. }
    exists st3, c, oc.
    unfold bind at 1. unfold bind at 1. rewrite E.
    unfold bind at 1. rewrite Hn in E3. rewrite E3.
    split; [reflexivity|]. split; [congruence|]. split; [|split; [exact Hoc|split; [exact Hemp|]]].
    + cbn [read_path].
      destruct (stored_lookup _ _ _ _ _ Hs) as [o' [e [Ho' Hk']]].
      rewrite (get_own_data (st_heap st3) l o' k0 (VRef (length (st_heap st))) true e);
        [exact Hr3| |exact Hk'].
      rewrite Hf3; [exact Ho' | lia | lia].
    + intros l' Hl' Hlt'. rewrite Hf3; [|lia|lia].
      rewrite (stored_other _ _ _ _ _ l' Hs Hl'). apply lookup_app_l. exact Hlt'.
Qed.

(** C9 (as amended). A key is denied exactly when it is one of the three
    strings [__proto__], [constructor], [prototype], letter for letter, and
    the merge acts on that at every depth reached through mappings ([path]
    is the list of the keys that lead to the key, none of them denied; the
    target is an empty object without prototype).  A denied key is rejected:
    its warning is printed and the object the path leads to stays empty,
    whatever the value.  Any other key, one that differs from the three in
    letter case included, is merged like an ordinary key: nothing is printed
    and its value is read back at the end of the path. *)
Theorem C9_deny_list_is_exact (st : state) (l : loc) (o : obj) (path : list string)
    (k : string) (x : json) :
  Forall not_denied path ->
  DANGEROUS_KEYS_has k = true \/ is_container x = false ->
  st_heap st !! l = Some o -> empty_null_object o ->
  (DANGEROUS_KEYS_has k = true <->
   k = "__proto__" \/ k = "constructor" \/ k = "prototype")
  /\ exists st',
       safeMerge (VRef l) (nest path (JObj [(k, x)])) st = Normal (VRef l) st'
       /\ if DANGEROUS_KEYS_has k
          then console st' = console st ++ [blocked_warning k]
               /\ exists c oc,
                    read_path (st_heap st') (VRef l) path = Some (VRef c)
                    /\ st_heap st' !! c = Some oc /\ empty_null_object oc
          else console st' = console st
               /\ read_path (st_heap st') (VRef l) (path ++ [k]) = Some (scalar_value x).
Proof.
  intros Hp Hx Hl Ho. split.
  - unfold DANGEROUS_KEYS_has, mem_string, DANGEROUS_KEYS. cbn [existsb].
    rewrite !orb_true_iff, !String.eqb_eq. intuition discriminate.
  - destruct (DANGEROUS_KEYS_has k) eqn:Hd.
    + destruct (safeMerge_nest_denied path k x Hp Hd st l o Hl Ho)
        as [st' [c [oc [E [Hc [Hr [Hoc [Hemp _]]]]]]]].
      exists st'. split; [exact E|]. split; [exact Hc|]. exists c, oc. auto.
    + destruct Hx as [Hx|Hx]; [discriminate|].
      destruct (safeMerge_nest (path ++ [k]) x) with (st := st) (l := l) (o := o)
        as [st' [E [Hc [Hr _]]]]; try assumption.
      * destruct path; discriminate.
      * apply Forall_app. split; [exact Hp|]. constructor; [exact Hd | constructor].
      * exists st'. rewrite <- nest_last. auto.
Qed.

(** [__PROTO__], two mappings down. *)
Lemma C9_witness :
  (DANGEROUS_KEYS_has "__PROTO__" = true <->
   "__PROTO__" = "__proto__" \/ "__PROTO__" = "constructor" \/ "__PROTO__" = "prototype")
  /\ exists st',
       safeMerge (VRef 10) (nest ["a"; "b"] (JObj [("__PROTO__", JBool true)]))
                 (alloc_state start null_object)
       = Normal (VRef 10) st'
       /\ if DANGEROUS_KEYS_has "__PROTO__"
          then console st' = console (alloc_state start null_object)
                             ++ [blocked_warning "__PROTO__"]
               /\ exists c oc,
                    read_path (st_heap st') (VRef 10) ["a"; "b"] = Some (VRef c)
                    /\ st_heap st' !! c = Some oc /\ empty_null_object oc
          else console st' = console (alloc_state start null_object)
               /\ read_path (st_heap st') (VRef 10) (["a"; "b"] ++ ["__PROTO__"])
                  = Some (scalar_value (JBool true)).
Proof.
  apply (C9_deny_list_is_exact (alloc_state start null_object) 10 null_object
           ["a"; "b"] "__PROTO__" (JBool true)).
  - repeat constructor.
  - right. reflexivity.
  - reflexivity.
  - repeat split.
Defined.

(** [__PROTO__] and [Constructor] are not denied: no warning, and both are
    written to the target. *)
Lemma C9_counterexample :
  let c := safeMerge (VRef 10) upper_case_payload (alloc_state start null_object) in
  DANGEROUS_KEYS_has "__PROTO__" = false
  /\ DANGEROUS_KEYS_has "Constructor" = false
  /\ completed c = true
  /\ console (final_state c) = []
  /\ own (st_heap (final_state c)) 10 "__PROTO__" = Some (PData (VBool true) true true)
  /\ own (st_heap (final_state c)) 10 "Constructor" = Some (PData (VNum 1) true true).
Proof. vm_compute. repeat split. Qed.

(** ** C7: writing to the frozen [Object.prototype] *)

Lemma frozen_define_own (h : heap) (l : loc) (o : obj) (k : string) (v : value) :
  h !! l = Some o -> frozen o = true -> define_own h l k v = SetRejected.
Proof.
  intros Hl Hf. unfold define_own. rewrite Hl.
  destruct (lookup_prop k (props o)) as [[v0 w e|]|] eqn:Hk.
  - rewrite (frozen_data _ _ _ _ _ Hf Hk). reflexivity.
  - reflexivity.
  - rewrite (frozen_not_extensible _ Hf). reflexivity.
Qed.

(** C7. What the code does where the claim, and the comment above the
    freeze in fixes/server-fixed.js, say that an error is raised.  Once
    [Object.prototype] is frozen no assignment to one of its properties
    changes the store; but made from non-strict code, as all the code of the
    repository is, the assignment raises nothing and is dropped silently.
    The one assignment that raises an error there is [__proto__ = v] with
    an object or [null] that is not the prototype [Object.prototype] has.
    Only strict code gets a TypeError for every dropped write. *)
Theorem C7_frozen_ancestor_rejects_writes (h : heap) (o : obj) (k : string) (v : value) :
  h !! obj_proto = Some o -> frozen o = true ->
  (forall strict h', assign strict h (VRef obj_proto) k v = Some h' -> h' = h)
  /\ assign false h (VRef obj_proto) k v
     = (if changes_prototype h obj_proto k v then None else Some h)
  /\ assign true h (VRef obj_proto) k v
     = match find_prop (length h) h obj_proto k with
       | Some PProtoAccessor =>
           if changes_prototype h obj_proto k v then None else Some h
       | _ => None
       end.
Proof.
  intros Hl Hf. split.
  - intros strict h' Ha.
    destruct (assign_effect _ _ _ _ _ _ Ha) as [->|[l [[= <-] He]]]; [reflexivity|].
    exfalso. eapply write_effect_frozen; eassumption.
  - unfold changes_prototype, assign, ordinary_set, proto_of. rewrite Hl.
    destruct (find_prop (length h) h obj_proto k) as [[v0 [|] e|]|] eqn:Hfp;
      try (rewrite (frozen_define_own h obj_proto o k v Hl Hf); split; reflexivity);
      try (split; reflexivity).
    unfold set_prototype. rewrite Hl.
    destruct v as [| | b | z | s | p]; try (split; reflexivity).
    + destruct (opt_loc_eqb (proto o) None); [split; reflexivity|].
      cbn [negb]. rewrite orb_true_r. split; reflexivity.
    + destruct (opt_loc_eqb (proto o) (Some p)); [split; reflexivity|].
      cbn [negb]. rewrite orb_true_r. split; reflexivity.
Qed.

(** The assignment of the demo's Defense 3, in the realm after the freeze:
    nothing is raised and nothing changes. *)
Lemma C7_witness :
  (forall strict h',
      assign strict (st_heap (install start)) (VRef obj_proto) "isAdmin" (VBool true) = Some h' ->
      h' = st_heap (install start))
  /\ assign false (st_heap (install start)) (VRef obj_proto) "isAdmin" (VBool true)
     = Some (st_heap (install start))
  /\ assign true (st_heap (install start)) (VRef obj_proto) "isAdmin" (VBool true) = None.
Proof.
  apply (C7_frozen_ancestor_rejects_writes (st_heap (install start))
           (freeze_obj Object_prototype) "isAdmin" (VBool true)); reflexivity.
Defined.

(** Defense 3 of the demo as it runs: the script takes the branch after
    the assignment, not the [catch], and [isAdmin] still reads
    [undefined]. *)
Example defense3_raises_nothing :
  assign false (st_heap (install start)) (VRef obj_proto) "isAdmin" (VBool true)
  = Some (st_heap (install start))
  /\ console (final_state (Demo.defense3 start))
     = ["  After freeze attempt: Object.prototype.isAdmin = undefined"].
Proof. vm_compute. split; reflexivity. Qed.

(** ** C4: what is rejected as a whole, and where *)

Lemma validate_lists_key (keys : list string) (key : string) :
  In key keys ->
  (DANGEROUS_KEYS_has key = true ->
   In (Fixed.forbidden_error key)
      (flat_map (fun key =>
                   if DANGEROUS_KEYS_has key then [Fixed.forbidden_error key]
                   else if negb (Fixed.ALLOWED_KEYS_has key) then [Fixed.unknown_error key]
                   else []) keys))
  /\ (DANGEROUS_KEYS_has key = false -> Fixed.ALLOWED_KEYS_has key = false ->
      In (Fixed.unknown_error key)
         (flat_map (fun key =>
                      if DANGEROUS_KEYS_has key then [Fixed.forbidden_error key]
                      else if negb (Fixed.ALLOWED_KEYS_has key) then [Fixed.unknown_error key]
                      else []) keys)).
Proof.
  intros Hin. split.
  - intros Hd. apply in_flat_map. exists key. split; [exact Hin|].
    rewrite Hd. left. reflexivity.
  - intros Hd Ha. apply in_flat_map. exists key. split; [exact Hin|].
    rewrite Hd, Ha. left. reflexivity.
Qed.

(** C4 (as amended). Rejection of a request as a whole is the work of the
    route, before any merge: POST /api/update-profile answers 400 with every
    error the validator has recorded, and leaves the store exactly as it
    was, as soon as one top-level key of [updates] is denied or outside the
    allow-list (each such key has its error in the list).  [safeMerge]
    itself does not reject: on a denied key it prints its warning and goes
    on with the remaining keys. *)
Theorem C4_rejection_is_done_by_the_route :
  (forall st users username updates user,
      username <> EmptyString ->
      get (st_heap st) users username = Some user -> truthy user = true ->
      Fixed.validateProfileUpdates updates <> [] ->
      Fixed.update_profile users username updates st
      = Normal (Response 400 "Invalid input" (Fixed.validateProfileUpdates updates)) st)
  /\ (forall j key,
        Fixed.json_truthy j = true -> In key (Fixed.Object_keys j) ->
        (DANGEROUS_KEYS_has key = true ->
         In (Fixed.forbidden_error key) (Fixed.validateProfileUpdates (Some j)))
        /\ (DANGEROUS_KEYS_has key = false -> Fixed.ALLOWED_KEYS_has key = false ->
            In (Fixed.unknown_error key) (Fixed.validateProfileUpdates (Some j))))
  /\ (forall target k v rest st,
        DANGEROUS_KEYS_has k = true ->
        safeMerge target (JObj ((k, v) :: rest)) st
        = safeMerge target (JObj rest) (print_state st (blocked_warning k))).
Proof.
  split; [|split].
  - intros st users username updates user Hu Hg Ht Hv.
    unfold Fixed.update_profile, bind, getM. rewrite Hg.
    apply String.eqb_neq in Hu. rewrite Hu, Ht. cbn [negb orb].
    destruct (Fixed.validateProfileUpdates updates) as [|e r]; [contradiction|].
    reflexivity.
  - intros j key Hj Hin. unfold Fixed.validateProfileUpdates. rewrite Hj.
    apply validate_lists_key, Hin.
  - intros target k v rest st Hd. rewrite !safeMerge_obj_eq.
    cbn [safeMerge_fields]. unfold bind at 1 2. unfold safeMerge_entry, safeMerge_step. rewrite Hd.
    reflexivity.
Qed.

Lemma C4_witness :
  Fixed.update_profile (VRef 10) "alice" (Some forbidden_update) booted
  = Normal (Response 400 "Invalid input"
              (Fixed.validateProfileUpdates (Some forbidden_update))) booted.
Proof.
  apply (proj1 C4_rejection_is_done_by_the_route booted (VRef 10) "alice"
           (Some forbidden_update) (VRef 11)).
  - discriminate.
  - reflexivity.
  - reflexivity.
  - discriminate.
Defined.

(** A merge that has skipped a denied key still writes its siblings and
    returns the target; and a request whose denied key sits below an allowed
    one passes the validator, is answered 200, and is applied in part. *)
Lemma C4_counterexample :
  let c := safeMerge (VRef 10) forbidden_update (alloc_state start null_object) in
  let r := Fixed.update_profile (VRef 10) "alice" (Some nested_forbidden_update) booted in
  c = Normal (VRef 10) (final_state c)
  /\ console (final_state c) = [blocked_warning "__proto__"]
  /\ own (st_heap (final_state c)) 10 "displayName" = Some (PData (VStr "Al") true true)
  /\ r = Normal (Response 200 "Profile updated securely" []) (final_state r)
  /\ console (final_state r) = [blocked_warning "__proto__"]
  /\ read_path (st_heap (final_state r)) (VRef 11) ["displayName"; "first"]
     = Some (VStr "Al").
Proof. vm_compute. repeat split. Qed.

(** ** C5: the type guard of /api/settings *)

(** C5. A body whose own [timeout] is a string -- any string, one that
    spells a number included -- is answered 400 'Invalid settings'; the list
    of errors holds the line that names [timeout] and the type [string],
    letter for letter as the validator writes it; the answer carries no
    timeout; and nothing is merged: the store is exactly as it was, so that
    whatever request comes next is answered as if this one had not been
    made. *)
Theorem C5_string_timeout_is_rejected (st : state) (kvs : list (string * json)) (s : string) :
  lookup_prop "timeout" kvs = Some (JStr s) ->
  exists errors,
    Fixed.settings (JObj kvs) st
    = Normal (Fixed.SettingsResponse 400 "Invalid settings" errors None) st
    /\ In (String "034"%char
             (String.append "timeout"
                (String "034"%char " must be a number, got: string")))
          errors
    /\ forall next, (Fixed.settings (JObj kvs) ;; Fixed.settings next) st
                    = Fixed.settings next st.
Proof.
  intros Hk. exists (Fixed.validateSettings (st_heap st) (JObj kvs)).
  assert (Hin : In (String "034"%char
                      (String.append "timeout"
                         (String "034"%char " must be a number, got: string")))
                   (Fixed.validateSettings (st_heap st) (JObj kvs))).
  { unfold Fixed.validateSettings. apply in_or_app. left.
    unfold Fixed.field_typeof. rewrite Hk. left. reflexivity. }
  assert (E : Fixed.settings (JObj kvs) st
              = Normal (Fixed.SettingsResponse 400 "Invalid settings"
                          (Fixed.validateSettings (st_heap st) (JObj kvs)) None) st).
  { unfold Fixed.settings.
    destruct (Fixed.validateSettings (st_heap st) (JObj kvs)) as [|e r]; [destruct Hin|].
    reflexivity. }
  split; [exact E|]. split; [exact Hin|].
  intros next. unfold bind. rewrite E. reflexivity.
Qed.

(** Test 3 of the verification script with the key where the validator
    looks for it: the string ['CORRUPTED'] under [timeout]. *)
Lemma C5_witness :
  exists errors,
    Fixed.settings (JObj corrupted_settings) booted
    = Normal (Fixed.SettingsResponse 400 "Invalid settings" errors None) booted
    /\ In (String "034"%char
             (String.append "timeout"
                (String "034"%char " must be a number, got: string")))
          errors
    /\ forall next, (Fixed.settings (JObj corrupted_settings) ;; Fixed.settings next) booted
                    = Fixed.settings next booted.
Proof.
  apply (C5_string_timeout_is_rejected booted corrupted_settings "CORRUPTED").
  reflexivity.
Defined.

(** ** C10: [unsafeMerge] pollutes [Object.prototype] *)

Lemma two_objects (h : heap) (l p : loc) (o op : obj) :
  h !! l = Some o -> h !! p = Some op -> l <> p ->
  exists m, length h = S (S m).
Proof.
  intros Hl Hp Hne. apply lookup_lt_Some in Hl. apply lookup_lt_Some in Hp.
  destruct (length h) as [|[|m]]; [lia | lia | eauto].
Qed.

Lemma find_prop_inherited (m : nat) (h : heap) (l p : loc) (o op : obj) (k : string) :
  h !! l = Some o -> lookup_prop k (props o) = None -> proto o = Some p ->
  h !! p = Some op ->
  find_prop (S (S m)) h l k
  = match lookup_prop k (props op) with
    | Some q => Some q
    | None => match proto op with Some p' => find_prop m h p' k | None => None end
    end.
Proof.
  intros Hl Hk Hp Hop. cbn [find_prop]. rewrite Hl, Hk, Hp, Hop. reflexivity.
Qed.

(** A property found on the prototype [p] of [l], which ends the chain. *)
Lemma get_inherited (h : heap) (l p : loc) (o op : obj) (k : string) :
  h !! l = Some o -> lookup_prop k (props o) = None -> proto o = Some p ->
  h !! p = Some op -> proto op = None -> l <> p ->
  get h (VRef l) k = Some (value_of_prop (Some p) (lookup_prop k (props op))).
Proof.
  intros Hl Hk Hp Hop Hend Hne.
  destruct (two_objects h l p o op Hl Hop Hne) as [m Hm].
  unfold get, proto_of. rewrite Hm, Hl, Hp.
  rewrite (find_prop_inherited m h l p o op k Hl Hk Hp Hop). rewrite Hend.
  destruct (lookup_prop k (props op)); reflexivity.
Qed.

Lemma for_in_keys_two (h : heap) (l p : loc) (o op : obj) :
  h !! l = Some o -> proto o = Some p -> h !! p = Some op -> proto op = None -> l <> p ->
  for_in_keys h (VRef l)
  = enumerable_keys [] o ++ enumerable_keys ([] ++ map fst (props o)) op.
Proof.
  intros Hl Hp Hop Hend Hne.
  destruct (two_objects h l p o op Hl Hop Hne) as [m Hm].
  unfold for_in_keys. rewrite Hm. cbn [for_in_chain]. rewrite Hl, Hp, Hop, Hend.
  unfold enumerable_keys. destruct m; cbn [for_in_chain]; rewrite app_nil_r; reflexivity.
Qed.

Lemma parse_attack_payload (st : state) :
  JSON_parse attack_payload st
  = Normal (VRef (S (length (st_heap st))))
           (mkState ((st_heap st ++ [payload_inner])
                     ++ [payload_outer (length (st_heap st))]) (console st)).
Proof.
  unfold JSON_parse, attack_payload. cbn [alloc_json].
  rewrite length_app. cbn [length]. rewrite Nat.add_1_r. reflexivity.
Qed.

Lemma unsafeMerge_unfold (n : nat) (target source : value) (st : state) :
  unsafeMerge (S n) target source st
  = (let* keys := for_in_keysM source in
     unsafeMerge_keys n target source keys ;; ret target) st.
Proof.
  cbn [unsafeMerge]. unfold bind at 1 3. unfold for_in_keysM.
  match goal with
  | |- bind (?F _) _ _ = _ =>
      assert (HF : forall keys s, F keys s = unsafeMerge_keys n target source keys s)
  end.
  { induction keys as [|key rest IH]; intros s; [reflexivity|].
    match type of IH with
    | forall s, ?F rest s = _ =>
        change (bind (unsafeMerge_key n target source key) (fun _ => F rest) s
                = unsafeMerge_keys n target source (key :: rest) s)
    end.
    cbn [unsafeMerge_keys]. unfold bind.
    destruct (unsafeMerge_key n target source key s); [apply IH | reflexivity]. }
  unfold bind. rewrite HF. reflexivity.
Qed.

Lemma assign_to_clean_prototype (h : heap) (k : string) (v : value) :
  h !! obj_proto = Some Object_prototype ->
  lookup_prop k (props Object_prototype) = None ->
  assign false h (VRef obj_proto) k v
  = Some (<[obj_proto := with_props Object_prototype
                           (update_prop k (PData v true true) (props Object_prototype))]> h).
Proof.
  intros H0 Hk. unfold assign, ordinary_set.
  assert (Hf : find_prop (length h) h obj_proto k = None).
  { destruct (length h) as [|m] eqn:Hm.
    - apply lookup_lt_Some in H0. lia.
    - cbn [find_prop]. rewrite H0, Hk. reflexivity. }
  rewrite Hf. unfold define_own. rewrite H0, Hk. reflexivity.
Qed.

Lemma unsafeMerge_into_prototype (fuel : nat) (h : heap) (c : list string) (n : loc) :
  h !! obj_proto = Some Object_prototype ->
  h !! n = Some payload_inner ->
  unsafeMerge (S fuel) (VRef obj_proto) (VRef n) (mkState h c)
  = Normal (VRef obj_proto) (mkState (<[obj_proto := polluted_prototype]> h) c).
Proof.
  intros H0 Hn.
  assert (Hne : n <> obj_proto).
  { intros ->. rewrite H0 in Hn. discriminate. }
  rewrite unsafeMerge_unfold. unfold bind at 1. unfold for_in_keysM. cbn [st_heap].
  rewrite (for_in_keys_two h n obj_proto payload_inner Object_prototype Hn eq_refl H0 eq_refl Hne).
  change (enumerable_keys [] payload_inner
          ++ enumerable_keys ([] ++ map fst (props payload_inner)) Object_prototype)
    with ["isAdmin"].
  cbn [unsafeMerge_keys]. unfold unsafeMerge_key, unsafeMerge_step.
  unfold bind, getM, typeofM, putM, ret. cbn [st_heap console].
  rewrite (get_own_data h n payload_inner "isAdmin" (VBool true) true true Hn eq_refl).
  cbn [typeof String.eqb Ascii.eqb Bool.eqb andb st_heap console].
  rewrite (assign_to_clean_prototype h "isAdmin" (VBool true) H0 eq_refl).
  reflexivity.
Qed.

Lemma get_proto_of_ordinary (h : heap) (t : loc) (o : obj) :
  h !! obj_proto = Some Object_prototype ->
  h !! t = Some o -> proto o = Some obj_proto ->
  lookup_prop "__proto__" (props o) = None ->
  get h (VRef t) "__proto__" = Some (VRef obj_proto).
Proof.
  intros H0 Ht Hp Hk.
  assert (Hne : t <> obj_proto).
  { intros ->. rewrite H0 in Ht. inversion Ht; subst. discriminate. }
  rewrite (get_inherited h t obj_proto o Object_prototype "__proto__" Ht Hk Hp H0 eq_refl Hne).
  reflexivity.
Qed.

Lemma unsafeMerge_attack (fuel : nat) (h : heap) (c : list string) (t n s : loc) (o : obj) :
  h !! obj_proto = Some Object_prototype ->
  h !! t = Some o -> proto o = Some obj_proto ->
  lookup_prop "__proto__" (props o) = None ->
  h !! n = Some payload_inner ->
  h !! s = Some (payload_outer n) ->
  unsafeMerge (S (S fuel)) (VRef t) (VRef s) (mkState h c)
  = Normal (VRef t) (mkState (<[obj_proto := polluted_prototype]> h) c).
Proof.
  intros H0 Ht Hp Hk Hn Hs.
  assert (Hne : s <> obj_proto).
  { intros ->. rewrite H0 in Hs. discriminate. }
  rewrite unsafeMerge_unfold. unfold bind at 1. unfold for_in_keysM. cbn [st_heap].
  rewrite (for_in_keys_two h s obj_proto (payload_outer n) Object_prototype
             Hs eq_refl H0 eq_refl Hne).
  change (enumerable_keys [] (payload_outer n)
          ++ enumerable_keys ([] ++ map fst (props (payload_outer n))) Object_prototype)
    with ["__proto__"].
  cbn [unsafeMerge_keys]. unfold unsafeMerge_key, unsafeMerge_step.
  unfold bind at 1. unfold bind at 1. unfold bind at 1. unfold getM at 1. cbn [st_heap].
  rewrite (get_own_data h s (payload_outer n) "__proto__" (VRef n) true true Hs eq_refl).
  unfold bind at 1. unfold typeofM at 1. cbn [st_heap typeof]. rewrite Hn.
  cbn [payload_inner cls String.eqb Ascii.eqb Bool.eqb andb is_null negb].
  pose proof (get_proto_of_ordinary h t o H0 Ht Hp Hk) as Hg.
  unfold bind at 1. unfold bind at 1. unfold getM at 1. cbn [st_heap]. rewrite Hg.
  cbn [truthy negb]. unfold ret at 1.
  unfold bind at 1. unfold getM at 1. cbn [st_heap]. rewrite Hg.
  unfold bind at 1. unfold getM at 1. cbn [st_heap].
  rewrite (get_own_data h s (payload_outer n) "__proto__" (VRef n) true true Hs eq_refl).
  unfold bind at 1.
  rewrite (unsafeMerge_into_prototype fuel h c n H0 Hn).
  reflexivity.
Qed.

(** C10. Whatever ordinary object the target is -- an object that inherits
    from [Object.prototype] and has no own [__proto__] -- in a store whose
    [Object.prototype] is as at start-up, [unsafeMerge] of the parsed payload
    [{"__proto__": {"isAdmin": true}}] completes and leaves [isAdmin = true]
    on [Object.prototype]; an empty object created afterwards reads
    [isAdmin] as [true], and the admin check of GET /api/admin, made on such
    an object, grants access. *)
Theorem C10_unsafeMerge_pollutes_Object_prototype (st : state) (t : loc) (o : obj)
    (fuel : nat) :
  st_heap st !! obj_proto = Some Object_prototype ->
  st_heap st !! t = Some o -> proto o = Some obj_proto ->
  lookup_prop "__proto__" (props o) = None ->
  exists st1 st2 st3,
    JSON_parse attack_payload st = Normal (VRef (S (length (st_heap st)))) st1
    /\ unsafeMerge (S (S fuel)) (VRef t) (VRef (S (length (st_heap st)))) st1
       = Normal (VRef t) st2
    /\ own (st_heap st2) obj_proto "isAdmin" = Some (PData (VBool true) true true)
    /\ (let* fresh := new_object in getM fresh "isAdmin") st2 = Normal (VBool true) st3
    /\ Vulnerable.admin st2 = Normal (Response 200 "GRANTED" []) st3.
Proof.
  intros H0 Ht Hp Hk.
  assert (Hlt0 : obj_proto < length (st_heap st)) by (eapply lookup_lt_Some, H0).
  assert (Hltt : t < length (st_heap st)) by (eapply lookup_lt_Some, Ht).
  set (h := st_heap st) in *.
  set (h2 := (h ++ [payload_inner]) ++ [payload_outer (length h)]).
  assert (H0' : h2 !! obj_proto = Some Object_prototype).
  { unfold h2. rewrite !lookup_app_l; [exact H0 | exact Hlt0 | rewrite length_app; lia]. }
  assert (Ht' : h2 !! t = Some o).
  { unfold h2. rewrite !lookup_app_l; [exact Ht | exact Hltt | rewrite length_app; lia]. }
  assert (Hn' : h2 !! length h = Some payload_inner).
  { unfold h2. rewrite lookup_app_l; [|rewrite length_app; cbn; lia].
    apply list_lookup_middle. reflexivity. }
  assert (Hs' : h2 !! S (length h) = Some (payload_outer (length h))).
  { unfold h2. apply list_lookup_middle. rewrite length_app. cbn. lia. }
  set (h3 := <[obj_proto := polluted_prototype]> h2).
  assert (H3 : h3 !! obj_proto = Some polluted_prototype).
  { unfold h3. apply list_lookup_insert_eq. eapply lookup_lt_Some, H0'. }
  exists (mkState h2 (console st)), (mkState h3 (console st)),
         (mkState (h3 ++ [mkObj [] (Some obj_proto) true CObject]) (console st)).
  split; [apply parse_attack_payload|].
  split; [eapply unsafeMerge_attack; eassumption|].
  split; [unfold own; cbn [st_heap]; rewrite H3; reflexivity|].
  assert (Hfresh : forall k,
    get (h3 ++ [mkObj [] (Some obj_proto) true CObject]) (VRef (length h3)) k
    = Some (value_of_prop (Some obj_proto) (lookup_prop k (props polluted_prototype)))).
  { intros k. eapply get_inherited.
    - apply list_lookup_middle. reflexivity.
    - reflexivity.
    - reflexivity.
    - rewrite lookup_app_l; [exact H3 | eapply lookup_lt_Some, H3].
    - reflexivity.
    - apply lookup_lt_Some in H3. unfold obj_proto in *. lia. }
  split.
  - unfold bind, new_object, allocM, getM. cbn [st_heap console].
    rewrite Hfresh. reflexivity.
  - unfold Vulnerable.admin, bind, new_object, allocM, getM. cbn [st_heap console].
    rewrite !Hfresh. reflexivity.
Qed.

(** Attack 1 of the demo: the profile of alice receives the payload. *)
Lemma C10_witness :
  exists st1 st2 st3,
    JSON_parse attack_payload (parse_state start profile_alice)
    = Normal (VRef (S (length (st_heap (parse_state start profile_alice))))) st1
    /\ unsafeMerge (S (S 3)) (VRef 10)
         (VRef (S (length (st_heap (parse_state start profile_alice))))) st1
       = Normal (VRef 10) st2
    /\ own (st_heap st2) obj_proto "isAdmin" = Some (PData (VBool true) true true)
    /\ (let* fresh := new_object in getM fresh "isAdmin") st2 = Normal (VBool true) st3
    /\ Vulnerable.admin st2 = Normal (Response 200 "GRANTED" []) st3.
Proof.
  apply (C10_unsafeMerge_pollutes_Object_prototype (parse_state start profile_alice) 10
           (plain_object [("username", PData (VStr "alice") true true)]) 3);
    reflexivity.
Defined.

(** ** The scenarios of the specification and the checks of fixes/verify-fixes.js *)

(** Scenario A: the payload is refused by the route, the profile and
    [Object.prototype] stay as they were. *)
Example scenario_A :
  Fixed.update_profile (VRef 10) "alice" (Some attack_payload) booted
  = Normal (Response 400 "Invalid input" [Fixed.forbidden_error "__proto__"]) booted.
Proof. reflexivity. Qed.

(** Scenario B: a numeric [timeout] is merged over the defaults. *)
Example scenario_B :
  exists st', Fixed.settings (JObj [("timeout", JNum 10)]) booted
              = Normal (Fixed.SettingsResponse 200 "Settings applied securely" []
                          (Some 10000%Z)) st'
              /\ read st' (VRef 13) "retries" = VNum 3.
Proof. eexists. split; reflexivity. Qed.

(** Test 3 of fixes/verify-fixes.js sends [{"__proto__": {"timeout":
    "CORRUPTED"}}] to /api/settings and expects 400.  The validator reads
    [settings.timeout], which this body does not have, so the request is
    answered 200; [safeMerge] then skips the key. *)
Example verify_fixes_test_3 :
  exists st', Fixed.settings (JObj [("__proto__", JObj [("timeout", JStr "CORRUPTED")])]) booted
              = Normal (Fixed.SettingsResponse 200 "Settings applied securely" []
                          (Some 30000%Z)) st'
              /\ console st' = [blocked_warning "__proto__"].
Proof. eexists. split; reflexivity. Qed.

(** The attack of the README on the vulnerable server: the payload goes
    through POST /api/update-profile, then GET /api/admin grants access. *)
Example vulnerable_server_attack :
  exists st',
    (let* users := JSON_parse (JObj [("alice", profile_alice)]) in
     Vulnerable.update_profile 5 users "alice" (Some attack_payload) ;;
     Vulnerable.admin) start
    = Normal (Response 200 "GRANTED" []) st'.
Proof. eexists. reflexivity. Qed.

(** On the patched server, where [Object.prototype] is frozen, the same
    request is answered 400 and changes nothing. *)
Example fixed_server_attack :
  Fixed.update_profile (VRef 10) "alice" (Some attack_payload) booted
  = Normal (Response 400 "Invalid input" [Fixed.forbidden_error "__proto__"]) booted
  /\ guard_installed (st_heap booted) = true.
Proof. split; reflexivity. Qed.

(** The demo's variant of [safeMerge] has no test for arrays: it descends
    into the sequence and blocks the key there. *)
Example demo_variant_descends_into_arrays :
  let c := Demo.safeMerge (VRef 10) hidden_in_array (alloc_state start null_object) in
  completed c = true
  /\ console (final_state c) = [Demo.blocked_line "__proto__"]
  /\ read_path (st_heap (final_state c)) (VRef 10) ["a"; "0"; "__proto__"] = Some VUndef.
Proof. vm_compute. repeat split. Qed.

(** * Further properties of the code *)

(** ** What a run of [safeMerge] prints, and what it leaves alone *)

(** X1. Whatever the source, a run of [safeMerge] does to the store what
    the run on the source without its denied entries does, with the same
    outcome; and a run that completes has added to the console exactly one
    warning for each denied key it met, in the order it met them, and
    nothing else. *)
Theorem X1_safeMerge_log_and_stripped_source (st : state) (target : value) (source : json) :
  same_outcome (safeMerge target source st) (safeMerge target (strip_denied source) st)
  /\ (completed (safeMerge target source st) = true ->
      console (final_state (safeMerge target source st))
      = console st ++ map blocked_warning (denied_met source)).
Proof.
  pose proof (safeMerge_strip source target st st eq_refl) as H.
  unfold same_outcome.
  destruct (safeMerge target source st) as [a1 s1|e1 s1],
           (safeMerge target (strip_denied source) st) as [a2 s2|e2 s2];
    try contradiction.
  - destruct H as [Ha [Hh [Hc _]]]. cbn [completed final_state]. auto.
  - destruct H as [He [Hh _]]. cbn [completed]. split; [auto | discriminate].
Qed.

Lemma own_app_lt (h suf : heap) (l : loc) (k : string) :
  l < length h -> own (h ++ suf) l k = own h l k.
Proof. intros Hl. unfold own. rewrite lookup_app_l; [reflexivity | exact Hl]. Qed.

Lemma safeMerge_names_kept (k : string) (h0 : heap) (target : value) (source : json) :
  DANGEROUS_KEYS_has k = true ->
  triple (names_kept k h0) (safeMerge target source)
         (fun _ => names_kept k h0) (names_kept k h0).
Proof.
  intros Hk.
  apply safeMerge_inv with (T := fun _ => True) (V := fun _ => True) (K := fun _ => True);
    auto.
  - intros st [Hn Ho]. split; [|exact Logic.I]. unfold alloc_state. split; cbn [st_heap].
    + rewrite length_app. lia.
    + intros l Hl. rewrite own_app_lt; [apply Ho, Hl | lia].
  - intros st j _ [Hn Ho]. split; [|exact Logic.I]. unfold parse_state.
    destruct (alloc_json_spec (fun _ => True) j (fun _ _ => Logic.I) (st_heap st))
      as [suf [E _]].
    split; cbn [st_heap]; rewrite E.
    + rewrite length_app. lia.
    + intros l Hl. rewrite own_app_lt; [apply Ho, Hl | lia].
  - intros st t k' v h' [Hn Ho] _ _ Hd _ Ha. split; cbn [st_heap].
    + rewrite (assign_length _ _ _ _ _ _ Ha). exact Hn.
    + intros l Hl. rewrite <- (Ho l Hl).
      destruct (assign_effect _ _ _ _ _ _ Ha) as [->|[l0 [_ He]]]; [reflexivity|].
      eapply write_effect_own_other; [exact He|]. intros ->. congruence.
Qed.

(** X2. [safeMerge] never gives an object that exists before the call an
    own property named [__proto__], [constructor] or [prototype], and never
    changes or removes one it has: for every source, sequences included,
    and whether the run completes or throws. *)
Theorem X2_safeMerge_never_writes_a_denied_name (st : state) (target : value)
    (source : json) (k : string) (l : loc) :
  DANGEROUS_KEYS_has k = true ->
  l < length (st_heap st) ->
  own (st_heap (final_state (safeMerge target source st))) l k = own (st_heap st) l k.
Proof.
  intros Hk Hl.
  pose proof (safeMerge_names_kept k (st_heap st) target source Hk st) as H.
  assert (H0 : names_kept k (st_heap st) st) by (split; auto).
  specialize (H H0).
  destruct (safeMerge target source st); destruct H as [_ H]; apply H, Hl.
Qed.

(** A source with a denied key at the top, under a mapping and inside a
    sequence, merged into the profile of alice on the patched server. *)
Lemma X2_witness :
  own (st_heap (final_state
         (safeMerge (VRef 11)
            (JObj [("__proto__", nested_proto); ("bio", hidden_in_array)]) booted)))
      11 "__proto__"
  = own (st_heap booted) 11 "__proto__".
Proof.
  apply X2_safeMerge_never_writes_a_denied_name; [reflexivity | cbn; lia].
Defined.

Lemma same_shape_refl (o : obj) : same_shape o o.
Proof. repeat split. Qed.

Lemma write_effect_shape (h : heap) (l : loc) (k : string) (v : value) (h' : heap) :
  clean_links h = true -> DANGEROUS_KEYS_has k = false ->
  write_effect h l k v h' ->
  forall l' o, h !! l' = Some o -> exists o', h' !! l' = Some o' /\ same_shape o o'.
Proof.
  intros Hc Hd [o0 e Hl _ _|o0 p Hl Hf _ _] l' o Ho.
  - destruct (Nat.eq_dec l' l) as [->|Hne].
    + rewrite Hl in Ho. inversion Ho; subst o0.
      eexists. split; [apply list_lookup_insert_eq; eapply lookup_lt_Some, Hl|].
      repeat split.
    + exists o. split; [|apply same_shape_refl].
      rewrite list_lookup_insert_ne; [exact Ho | congruence].
  - destruct (find_prop_clean _ _ _ _ _ Hc Hd Hf) as [? [? [? [Heq _]]]]. discriminate.
Qed.

Lemma safeMerge_shapes_kept (h0 : heap) (target : value) (source : json) :
  0 < length h0 ->
  triple (shapes_kept h0) (safeMerge target source)
         (fun _ => shapes_kept h0) (shapes_kept h0).
Proof.
  intros Hpos.
  assert (Hlen : forall st, shapes_kept h0 st -> 0 < length (st_heap st)).
  { intros st [_ Hs]. destruct h0 as [|o0 r]; [cbn in Hpos; lia|].
    destruct (Hs 0 o0 eq_refl) as [o' [Ho' _]]. eapply lookup_lt_Some in Ho'. lia. }
  apply safeMerge_inv with (T := fun _ => True)
                           (V := fun v => is_ref_to obj_proto v = false)
                           (K := fun _ => True); auto.
  - intros st HI. pose proof (Hlen st HI) as Hn. destruct HI as [Hc Hs]. split.
    + unfold alloc_state. split; cbn [st_heap].
      * apply clean_links_app; [exact Hc|]. constructor; [|constructor]. intros k p [].
      * intros l o Ho. destruct (Hs l o Ho) as [o' [Ho' Hsh]]. exists o'.
        split; [|exact Hsh]. apply lookup_app_l_Some, Ho'.
    + cbn. destruct (length (st_heap st)); [lia | reflexivity].
  - intros st j _ HI. pose proof (Hlen st HI) as Hn. destruct HI as [Hc Hs].
    destruct (alloc_json_spec (fun _ => True) j (fun _ _ => Logic.I) (st_heap st))
      as [suf [E [F Hv]]].
    split.
    + unfold parse_state. split; cbn [st_heap]; rewrite E.
      * apply clean_links_app; [exact Hc|].
        eapply Forall_impl; [exact F|]. intros x Hx. eapply fresh_obj_clean; eassumption.
      * intros l o Ho. destruct (Hs l o Ho) as [o' [Ho' Hsh]]. exists o'.
        split; [|exact Hsh]. apply lookup_app_l_Some, Ho'.
    + destruct (fst (alloc_json j (st_heap st))) as [| | | | |l]; try reflexivity.
      cbn in Hv |- *. destruct l; [lia | reflexivity].
  - intros st t k v h' [Hc Hs] _ _ Hd HV Ha.
    destruct (assign_effect _ _ _ _ _ _ Ha) as [->|[l0 [_ He]]]; [split; assumption|].
    split; cbn [st_heap].
    + eapply write_effect_clean; eassumption.
    + intros l o Ho. destruct (Hs l o Ho) as [o1 [Ho1 [S1 [S2 S3]]]].
      destruct (write_effect_shape _ _ _ _ _ Hc Hd He l o1 Ho1) as [o2 [Ho2 [R1 [R2 R3]]]].
      exists o2. split; [exact Ho2|]. repeat split; congruence.
Qed.

(** X3. In a store whose only links to [Object.prototype] sit under the
    denied keys, [safeMerge] changes objects only by setting data
    properties: every object that exists before the call still exists
    after it with the same prototype link, the same extensibility and the
    same kind.  No object is re-parented. *)
Theorem X3_safeMerge_keeps_the_shape_of_objects (st : state) (target : value)
    (source : json) (l : loc) (o : obj) :
  clean_links (st_heap st) = true ->
  st_heap st !! l = Some o ->
  exists o', st_heap (final_state (safeMerge target source st)) !! l = Some o'
             /\ same_shape o o'.
Proof.
  intros Hc Hl.
  assert (Hpos : 0 < length (st_heap st)) by (apply lookup_lt_Some in Hl; lia).
  pose proof (safeMerge_shapes_kept (st_heap st) target source Hpos st) as H.
  assert (H0 : shapes_kept (st_heap st) st).
  { split; [exact Hc|]. intros l' o' Ho'. exists o'. split; [exact Ho' | apply same_shape_refl]. }
  specialize (H H0).
  destruct (safeMerge target source st); destruct H as [_ H]; apply H, Hl.
Qed.

Lemma X3_witness :
  exists o', st_heap (final_state (safeMerge (VRef 10) attack_payload
                                     (parse_state start profile_alice))) !! 10 = Some o'
             /\ same_shape (plain_object [("username", PData (VStr "alice") true true)]) o'.
Proof.
  apply X3_safeMerge_keeps_the_shape_of_objects; reflexivity.
Defined.

(** ** Invariants of an [unsafeMerge] run *)

Section unsafeMerge_invariant.
Variable I : state -> Prop.
Hypothesis I_new : forall st, I st -> I (alloc_state st empty_object).
Hypothesis I_put : forall st t k v h',
  I st -> assign false (st_heap st) t k v = Some h' -> I (mkState h' (console st)).

Lemma getM_keeps (t : value) (k : string) :
  triple I (getM t k) (fun _ => I) I.
Proof. intros st HI. unfold getM. destruct (get (st_heap st) t k); exact HI. Qed.

Lemma putM_keeps (t : value) (k : string) (v : value) :
  triple I (putM t k v) (fun _ => I) I.
Proof.
  intros st HI. unfold putM.
  destruct (assign false (st_heap st) t k v) eqn:Ha; [|exact HI].
  eapply I_put; eassumption.
Qed.

Lemma unsafeMerge_key_keeps (n : nat) (target source : value) (key : string) :
  (forall t s, triple I (unsafeMerge n t s) (fun _ => I) I) ->
  triple I (unsafeMerge_key n target source key) (fun _ => I) I.
Proof.
  intros IH. unfold unsafeMerge_key, unsafeMerge_step.
  eapply triple_bind; [apply getM_keeps|]. intros v.
  eapply triple_bind with (R := fun _ => I); [intros st HI; exact HI|]. intros ty.
  destruct (String.eqb ty "object" && negb (is_null v)); [|apply putM_keeps].
  eapply triple_bind with (R := fun _ => I).
  - eapply triple_bind; [apply getM_keeps|]. intros tv.
    destruct (negb (truthy tv)); [|apply triple_ret; auto].
    eapply triple_bind with (R := fun _ => I); [intros st HI; apply I_new, HI|].
    intros o. apply putM_keeps.
  - intros u. eapply triple_bind; [apply getM_keeps|]. intros tv'.
    eapply triple_bind; [apply getM_keeps|]. intros sv.
    eapply triple_bind with (R := fun _ => I); [apply IH|].
    intros u'. apply triple_ret. auto.
Qed.

Lemma unsafeMerge_keys_keeps (n : nat) (target source : value) (keys : list string) :
  (forall t s, triple I (unsafeMerge n t s) (fun _ => I) I) ->
  triple I (unsafeMerge_keys n target source keys) (fun _ => I) I.
Proof.
  intros IH. induction keys as [|key rest IHk]; cbn [unsafeMerge_keys].
  - apply triple_ret. auto.
  - eapply triple_bind with (R := fun _ => I); [apply unsafeMerge_key_keeps, IH|].
    intros u. exact IHk.
Qed.

(** Whatever the target, the source and the depth left, a run of
    [unsafeMerge] keeps the invariant. *)
Lemma unsafeMerge_inv (fuel : nat) :
  forall target source, triple I (unsafeMerge fuel target source) (fun _ => I) I.
Proof.
  induction fuel as [|n IH]; intros target source st HI.
  - exact HI.
  - rewrite unsafeMerge_unfold. revert st HI.
    eapply triple_bind with (R := fun _ => I); [intros st HI; exact HI|]. intros keys.
    eapply triple_bind with (R := fun _ => I); [apply unsafeMerge_keys_keeps, IH|].
    intros u. apply triple_ret. auto.
Qed.
End unsafeMerge_invariant.

(** ** The freeze against [unsafeMerge] *)

(** X4. Once [Object.prototype] is frozen, [unsafeMerge] itself cannot
    pollute it: for every target, every source and every depth of the call
    stack, the object [Object.prototype] is after the run what it was
    before, whether the run completes or throws. *)
Theorem X4_freeze_protects_against_unsafeMerge (st : state) (fuel : nat)
    (target source : value) :
  guard_installed (st_heap st) = true ->
  st_heap (final_state (unsafeMerge fuel target source st)) !! obj_proto
  = st_heap st !! obj_proto.
Proof.
  unfold guard_installed. intros Hg.
  destruct (st_heap st !! obj_proto) as [o|] eqn:Ho; [|discriminate].
  assert (H : triple (fun s => st_heap s !! obj_proto = Some o)
                     (unsafeMerge fuel target source)
                     (fun _ s => st_heap s !! obj_proto = Some o)
                     (fun s => st_heap s !! obj_proto = Some o)).
  { apply unsafeMerge_inv.
    - intros s Hs. unfold alloc_state. cbn [st_heap].
      rewrite lookup_app_l; [exact Hs | eapply lookup_lt_Some, Hs].
    - intros s t k v h' Hs Ha. cbn [st_heap]. eapply assign_frozen; eassumption. }
  specialize (H st Ho).
  destruct (unsafeMerge fuel target source st); exact H.
Qed.

(** The attack of the demo, replayed after the freeze. *)
Lemma X4_witness :
  st_heap (final_state (unsafeMerge 5 (VRef 11) (VRef 14) (parse_state booted attack_payload)))
    !! obj_proto
  = st_heap (parse_state booted attack_payload) !! obj_proto.
Proof.
  apply X4_freeze_protects_against_unsafeMerge. reflexivity.
Defined.

(** ** Objects without prototype, and the two admin checks *)

Lemma get_fresh_null (h : heap) (k : string) :
  get (h ++ [null_object]) (VRef (length h)) k = Some VUndef.
Proof.
  eapply (empty_null_slot (h ++ [null_object]) (length h) null_object k).
  - apply list_lookup_middle. reflexivity.
  - repeat split.
Qed.

(** X5. An object made by [Object.create(null)] reads [undefined] for every
    key, [__proto__] and [isAdmin] included, in every store: whatever has
    been put on [Object.prototype] does not reach it. *)
Theorem X5_null_prototype_object_inherits_nothing (st : state) (k : string) :
  (let* o := Object_create_null in getM o k) st
  = Normal VUndef (alloc_state st null_object).
Proof.
  unfold bind, Object_create_null, allocM, getM. cbn [st_heap console].
  rewrite get_fresh_null. reflexivity.
Qed.



Lemma get_fresh_empty (h : heap) (o : obj) (k : string) :
  h !! obj_proto = Some o -> proto o = None ->
  get (h ++ [empty_object]) (VRef (length h)) k = Some (inherited o k).
Proof.
  intros H0 Hp. unfold inherited.
  eapply get_inherited.
  - apply list_lookup_middle. reflexivity.
  - reflexivity.
  - reflexivity.
  - apply lookup_app_l_Some, H0.
  - exact Hp.
  - apply lookup_lt_Some in H0. unfold obj_proto in *. lia.
Qed.

(** X7. GET /api/admin of the vulnerable server decides on nothing but
    [Object.prototype]: when what [Object.prototype] holds under [isAdmin]
    and [role] is not an object -- so that the two lines the handler logs
    first are written without error -- it grants access exactly when
    [Object.prototype] carries a truthy [isAdmin] or the [role] ['admin'],
    and answers 403 otherwise. *)
Theorem X7_vulnerable_admin_reads_the_prototype (st : state) (o : obj) :
  st_heap st !! obj_proto = Some o -> proto o = None ->
  is_reference (inherited o "isAdmin") = false ->
  is_reference (inherited o "role") = false ->
  Vulnerable.admin st
  = Normal (if truthy (inherited o "isAdmin") || is_admin_role (inherited o "role")
            then Response 200 "GRANTED" []
            else Response 403 "DENIED" [])
           (alloc_state st empty_object).
Proof.
  intros H0 Hp _ _.
  unfold Vulnerable.admin, bind, new_object, allocM, getM. cbn [st_heap console].
  fold empty_object. rewrite !(get_fresh_empty _ o _ H0 Hp).
  unfold is_admin_role.
  destruct (truthy (inherited o "isAdmin")
            || match inherited o "role" with VStr r => String.eqb r "admin" | _ => false end);
    reflexivity.
Qed.

(** Before any attack the check denies; after the attack it grants. *)
Lemma X7_witness :
  Vulnerable.admin start
  = Normal (if truthy (inherited Object_prototype "isAdmin")
               || is_admin_role (inherited Object_prototype "role")
            then Response 200 "GRANTED" []
            else Response 403 "DENIED" [])
           (alloc_state start empty_object).
Proof.
  apply X7_vulnerable_admin_reads_the_prototype; reflexivity.
Defined.

(** ** The freeze itself *)

Lemma lookup_freeze_props (k : string) (ps : list (string * prop)) :
  lookup_prop k (map (fun kp => (fst kp, freeze_prop (snd kp))) ps)
  = option_map freeze_prop (lookup_prop k ps).
Proof.
  induction ps as [|[k' p] r IH]; cbn [map lookup_prop fst snd]; [reflexivity|].
  destruct (String.eqb k k'); [reflexivity | exact IH].
Qed.

Lemma value_of_freeze_prop (q : option loc) (p : option prop) :
  value_of_prop q (option_map freeze_prop p) = value_of_prop q p.
Proof. destruct p as [[v w e|]|]; reflexivity. Qed.

Lemma freeze_obj_twice (o : obj) : freeze_obj (freeze_obj o) = freeze_obj o.
Proof.
  unfold freeze_obj. cbn [props proto cls]. f_equal.
  rewrite map_map. apply map_ext. intros [k [v w e|]]; reflexivity.
Qed.

Lemma frozen_freeze_obj (o : obj) : frozen (freeze_obj o) = true.
Proof.
  unfold frozen, freeze_obj. cbn [extensible props negb andb].
  apply List.forallb_forall. intros [k p] Hin. apply in_map_iff in Hin.
  destruct Hin as [[k' [v w e|]] [Heq _]]; inversion Heq; reflexivity.
Qed.

Lemma find_prop_freeze (n : nat) (h : heap) (l : loc) (o : obj) (x : loc) (k : string) :
  h !! l = Some o ->
  exists f, find_prop n (<[l := freeze_obj o]> h) x k = option_map f (find_prop n h x k)
            /\ (f = freeze_prop \/ f = (fun p => p)).
Proof.
  intros Hl. revert x. induction n as [|n IH]; intros x; cbn [find_prop].
  - exists (fun p => p). split; [reflexivity | right; reflexivity].
  - destruct (Nat.eq_dec x l) as [->|Hne].
    + rewrite list_lookup_insert_eq by (eapply lookup_lt_Some, Hl). rewrite Hl.
      cbn [freeze_obj props proto]. rewrite lookup_freeze_props.
      destruct (lookup_prop k (props o)) as [p|].
      * exists freeze_prop. split; [reflexivity | left; reflexivity].
      * cbn [option_map]. destruct (proto o) as [q|]; [apply IH|].
        exists (fun p => p). split; [reflexivity | right; reflexivity].
    + rewrite list_lookup_insert_ne by congruence.
      destruct (h !! x) as [ox|]; [|exists (fun p => p); split; [reflexivity | right; reflexivity]].
      destruct (lookup_prop k (props ox)) as [p|].
      * exists (fun p => p). split; [reflexivity | right; reflexivity].
      * destruct (proto ox) as [q|]; [apply IH|].
        exists (fun p => p). split; [reflexivity | right; reflexivity].
Qed.

Lemma proto_of_freeze (h : heap) (l x : loc) :
  proto_of (Object_freeze h l) x = proto_of h x.
Proof.
  unfold Object_freeze, proto_of. destruct (h !! l) as [o|] eqn:Hl; [|reflexivity].
  destruct (Nat.eq_dec x l) as [->|Hne].
  - rewrite list_lookup_insert_eq by (eapply lookup_lt_Some, Hl). rewrite Hl. reflexivity.
  - rewrite list_lookup_insert_ne by congruence. reflexivity.
Qed.

Lemma value_of_find_freeze (h : heap) (l x : loc) (k : string) (q : option loc) :
  value_of_prop q (find_prop (length (Object_freeze h l)) (Object_freeze h l) x k)
  = value_of_prop q (find_prop (length h) h x k).
Proof.
  unfold Object_freeze. destruct (h !! l) as [o|] eqn:Hl; [|reflexivity].
  rewrite length_insert.
  destruct (find_prop_freeze (length h) h l o x k Hl) as [f [-> [->| ->]]].
  - apply value_of_freeze_prop.
  - destruct (find_prop (length h) h x k); reflexivity.
Qed.

Lemma get_freeze (h : heap) (l : loc) (t : value) (k : string) :
  get (Object_freeze h l) t k = get h t k.
Proof.
  unfold get. destruct t as [| | b | z | s | x]; try reflexivity;
    rewrite ?value_of_find_freeze, ?proto_of_freeze; reflexivity.
Qed.

(** X8. The start-up line [Object.freeze(Object.prototype)] puts the guard
    in place, running it again changes nothing more, and it changes no
    value a read returns: every [target[k]] reads after the freeze what it
    read before. *)
Theorem X8_install_guards_and_changes_no_read (st : state) (o : obj) :
  st_heap st !! obj_proto = Some o ->
  guard_installed (st_heap (install st)) = true
  /\ install (install st) = install st
  /\ forall t k, get (st_heap (install st)) t k = get (st_heap st) t k.
Proof.
  intros H0. assert (Hlt : obj_proto < length (st_heap st)) by (eapply lookup_lt_Some, H0).
  assert (H1 : Object_freeze (st_heap st) obj_proto !! obj_proto = Some (freeze_obj o)).
  { unfold Object_freeze. rewrite H0. apply list_lookup_insert_eq. exact Hlt. }
  split; [|split].
  - unfold guard_installed, install. cbn [st_heap]. rewrite H1. apply frozen_freeze_obj.
  - unfold install. cbn [st_heap console]. f_equal.
    unfold Object_freeze at 1. rewrite H1. rewrite freeze_obj_twice.
    unfold Object_freeze. rewrite H0. apply list_insert_insert_eq.
  - intros t k. unfold install. cbn [st_heap]. apply get_freeze.
Qed.

Lemma X8_witness :
  guard_installed (st_heap (install polluted)) = true
  /\ install (install polluted) = install polluted
  /\ forall t k, get (st_heap (install polluted)) t k = get (st_heap polluted) t k.
Proof.
  apply (X8_install_guards_and_changes_no_read polluted polluted_prototype).
  reflexivity.
Defined.

(** ** The validator of profile updates and the handler around it *)

Lemma allowed_not_denied (key : string) :
  Fixed.ALLOWED_KEYS_has key = true -> DANGEROUS_KEYS_has key = false.
Proof.
  unfold Fixed.ALLOWED_KEYS_has, Fixed.ALLOWED_KEYS, mem_string. cbn [existsb].
  rewrite !orb_true_iff, !String.eqb_eq.
  intros [->|[->|[->|[->|H]]]]; try reflexivity. discriminate.
Qed.

Lemma validate_keys_length (keys : list string) :
  length (flat_map (fun key =>
                      if DANGEROUS_KEYS_has key then [Fixed.forbidden_error key]
                      else if negb (Fixed.ALLOWED_KEYS_has key) then [Fixed.unknown_error key]
                      else []) keys)
  = length (List.filter (fun key => negb (Fixed.ALLOWED_KEYS_has key)) keys).
Proof.
  induction keys as [|key r IH]; [reflexivity|]. cbn [flat_map List.filter].
  rewrite length_app, IH.
  destruct (Fixed.ALLOWED_KEYS_has key) eqn:Ha.
  - rewrite (allowed_not_denied key Ha). reflexivity.
  - cbn [negb]. destruct (DANGEROUS_KEYS_has key); reflexivity.
Qed.

(** X9. [validateProfileUpdates] records exactly one error for each
    top-level key of the updates that is not one of [displayName],
    [email], [bio], [avatar]; so the updates pass exactly when all their
    keys are among those four.  In particular a non-empty sequence or a
    non-empty string never passes, its keys being indices. *)
Theorem X9_validateProfileUpdates_allow_list (j : json) :
  Fixed.json_truthy j = true ->
  length (Fixed.validateProfileUpdates (Some j))
  = length (List.filter (fun key => negb (Fixed.ALLOWED_KEYS_has key)) (Fixed.Object_keys j))
  /\ (Fixed.validateProfileUpdates (Some j) = [] <->
      forall key, In key (Fixed.Object_keys j) -> Fixed.ALLOWED_KEYS_has key = true).
Proof.
  intros Hj.
  assert (Hlen : length (Fixed.validateProfileUpdates (Some j))
                 = length (List.filter (fun key => negb (Fixed.ALLOWED_KEYS_has key))
                                  (Fixed.Object_keys j))).
  { unfold Fixed.validateProfileUpdates. rewrite Hj. apply validate_keys_length. }
  split; [exact Hlen|]. split.
  - intros E key Hin. rewrite E in Hlen. cbn [length] in Hlen.
    destruct (Fixed.ALLOWED_KEYS_has key) eqn:Ha; [reflexivity|].
    assert (Hf : In key (List.filter (fun key => negb (Fixed.ALLOWED_KEYS_has key))
                                (Fixed.Object_keys j))).
    { apply List.filter_In. split; [exact Hin|]. rewrite Ha. reflexivity. }
    destruct (List.filter _ _); [destruct Hf | discriminate].
  - intros Hall. apply length_zero_iff_nil. rewrite Hlen.
    apply length_zero_iff_nil.
    destruct (List.filter _ _) as [|key r] eqn:E; [reflexivity|].
    assert (Hf : In key (List.filter (fun key => negb (Fixed.ALLOWED_KEYS_has key))
                                (Fixed.Object_keys j))) by (rewrite E; left; reflexivity).
    apply List.filter_In in Hf. destruct Hf as [Hin Hn].
    rewrite (Hall key Hin) in Hn. discriminate.
Qed.

Lemma X9_witness :
  length (Fixed.validateProfileUpdates (Some forbidden_update))
  = length (List.filter (fun key => negb (Fixed.ALLOWED_KEYS_has key))
                   (Fixed.Object_keys forbidden_update))
  /\ (Fixed.validateProfileUpdates (Some forbidden_update) = [] <->
      forall key, In key (Fixed.Object_keys forbidden_update) ->
                  Fixed.ALLOWED_KEYS_has key = true).
Proof.
  apply X9_validateProfileUpdates_allow_list. reflexivity.
Defined.

(** X10. A request for an existing user whose [updates] field is missing,
    or is [null], passes the validator -- there is nothing to check -- and
    then makes the handler throw a TypeError at [Object.keys]; a request
    whose [updates] is a number or a boolean is answered 200.  In all these
    cases nothing is written. *)
Theorem X10_update_profile_without_a_mapping (st : state) (users : value)
    (username : string) (user : value) :
  username <> EmptyString ->
  get (st_heap st) users username = Some user -> truthy user = true ->
  Fixed.update_profile users username None st = Thrown TypeError st
  /\ Fixed.update_profile users username (Some JNull) st = Thrown TypeError st
  /\ (forall z, Fixed.update_profile users username (Some (JNum z)) st
                = Normal (Response 200 "Profile updated securely" []) st)
  /\ (forall b, Fixed.update_profile users username (Some (JBool b)) st
                = Normal (Response 200 "Profile updated securely" []) st).
Proof.
  intros Hu Hg Ht. apply String.eqb_neq in Hu.
  assert (E : forall updates,
    Fixed.update_profile users username updates st
    = (let errors := Fixed.validateProfileUpdates updates in
       if negb (Nat.eqb (length errors) 0)
       then ret (Response 400 "Invalid input" errors)
       else
         match updates with
         | Some source => safeMerge user source
         | None => throwM TypeError
         end ;;
         ret (Response 200 "Profile updated securely" [])) st).
  { intros updates. unfold Fixed.update_profile, bind at 1, getM. rewrite Hg, Hu, Ht.
    reflexivity. }
  repeat split; intros; rewrite E; try reflexivity.
  - unfold Fixed.validateProfileUpdates. cbn [Fixed.json_truthy].
    destruct (negb (Z.eqb z 0)); reflexivity.
  - unfold Fixed.validateProfileUpdates. cbn [Fixed.json_truthy].
    destruct b; reflexivity.
Qed.

Lemma X10_witness :
  Fixed.update_profile (VRef 10) "alice" None booted = Thrown TypeError booted
  /\ Fixed.update_profile (VRef 10) "alice" (Some JNull) booted = Thrown TypeError booted
  /\ (forall z, Fixed.update_profile (VRef 10) "alice" (Some (JNum z)) booted
                = Normal (Response 200 "Profile updated securely" []) booted)
  /\ (forall b, Fixed.update_profile (VRef 10) "alice" (Some (JBool b)) booted
                = Normal (Response 200 "Profile updated securely" []) booted).
Proof.
  apply (X10_update_profile_without_a_mapping booted (VRef 10) "alice" (VRef 11)).
  - discriminate.
  - reflexivity.
  - reflexivity.
Defined.

Lemma get_absent_without_prototype (h : heap) (l : loc) (o : obj) (k : string) :
  h !! l = Some o -> proto o = None -> lookup_prop k (props o) = None ->
  get h (VRef l) k = Some VUndef.
Proof.
  intros Hl Hp Hk. assert (Hlt : l < length h) by (eapply lookup_lt_Some, Hl).
  unfold get. destruct (length h) as [|n]; [lia|].
  cbn [find_prop]. rewrite Hl, Hk, Hp. reflexivity.
Qed.

(** X11. On a table of users that has no prototype, as the patched server
    builds it, a name that is not an own key of the table finds no user,
    [__proto__], [constructor] and [toString] included: the request is
    answered 404 whatever its updates, and nothing is merged. *)
Theorem X11_unknown_user_is_not_found (st : state) (table : loc) (o : obj)
    (username : string) (updates : option json) :
  st_heap st !! table = Some o -> proto o = None ->
  lookup_prop username (props o) = None ->
  Fixed.update_profile (VRef table) username updates st
  = Normal (Response 404 "User not found" []) st.
Proof.
  intros Hl Hp Hk. unfold Fixed.update_profile, bind, getM.
  rewrite (get_absent_without_prototype _ _ _ _ Hl Hp Hk).
  cbn [truthy negb]. rewrite orb_true_r. reflexivity.
Qed.

Lemma X11_witness :
  Fixed.update_profile (VRef 10) "__proto__" (Some display_update) booted
  = Normal (Response 404 "User not found" []) booted.
Proof.
  apply (X11_unknown_user_is_not_found booted 10
           (mkObj [("alice", PData (VRef 11) true true); ("bob", PData (VRef 12) true true)]
                  None true CObject));
    reflexivity.
Defined.

(** ** Two more ways of the pollution through [unsafeMerge] *)


Lemma scalar_branch (h : heap) (v : value) :
  is_reference v = false ->
  String.eqb (typeof h v) "object" && negb (is_null v) = false.
Proof. destruct v; try reflexivity. discriminate. Qed.

Lemma scalar_value_not_reference (x : json) : is_reference (scalar_value x) = false.
Proof. destruct x; reflexivity. Qed.

Lemma unsafeMerge_copies_own_scalar (fuel : nat) (h : heap) (c : list string)
    (n : loc) (k : string) (v : value) :
  h !! obj_proto = Some Object_prototype ->
  h !! n = Some (plain_object [(k, PData v true true)]) ->
  is_reference v = false ->
  lookup_prop k (props Object_prototype) = None ->
  unsafeMerge (S fuel) (VRef obj_proto) (VRef n) (mkState h c)
  = Normal (VRef obj_proto) (mkState (<[obj_proto := polluted_with k v]> h) c).
Proof.
  intros H0 Hn Hv Hk.
  assert (Hne : n <> obj_proto).
  { intros ->. rewrite H0 in Hn. discriminate. }
  rewrite unsafeMerge_unfold. unfold bind at 1. unfold for_in_keysM. cbn [st_heap].
  rewrite (for_in_keys_two h n obj_proto _ Object_prototype Hn eq_refl H0 eq_refl Hne).
  change (enumerable_keys [] (plain_object [(k, PData v true true)])
          ++ enumerable_keys ([] ++ map fst (props (plain_object [(k, PData v true true)])))
               Object_prototype)
    with [k].
  cbn [unsafeMerge_keys]. unfold unsafeMerge_key, unsafeMerge_step.
  unfold bind, getM, typeofM, putM, ret. cbn [st_heap console].
  rewrite (get_own_data h n _ k v true true Hn).
  2:{ cbn [plain_object props lookup_prop]. rewrite String.eqb_refl. reflexivity. }
  cbn [st_heap console]. rewrite (scalar_branch h v Hv). cbn [st_heap console].
  rewrite (assign_to_clean_prototype h k v H0 Hk).
  reflexivity.
Qed.

(** X12. On the vulnerable server the table of users is an ordinary
    object, so the name [__proto__] finds a "user": [Object.prototype].  A
    request for that name with the updates [{k: x}], [x] a scalar and [k] a
    name [Object.prototype] does not have yet, is answered 200 and leaves
    [k = x] on [Object.prototype]: no [__proto__] key is needed in the
    updates. *)
Theorem X12_username_proto_reaches_Object_prototype (st : state) (table : loc) (o : obj)
    (k : string) (x : json) (fuel : nat) :
  st_heap st !! obj_proto = Some Object_prototype ->
  st_heap st !! table = Some o -> proto o = Some obj_proto ->
  lookup_prop "__proto__" (props o) = None ->
  is_container x = false ->
  lookup_prop k (props Object_prototype) = None ->
  exists st',
    Vulnerable.update_profile (S fuel) (VRef table) "__proto__" (Some (JObj [(k, x)])) st
    = Normal (Response 200 "Profile updated" []) st'
    /\ own (st_heap st') obj_proto k = Some (PData (scalar_value x) true true).
Proof.
  intros H0 Ht Hp Hown Hx Hk.
  assert (Hlt0 : obj_proto < length (st_heap st)) by (eapply lookup_lt_Some, H0).
  set (src := plain_object [(k, PData (scalar_value x) true true)]).
  set (h1 := st_heap st ++ [src]).
  assert (Hparse : JSON_parse (JObj [(k, x)]) st
                   = Normal (VRef (length (st_heap st))) (mkState h1 (console st))).
  { unfold JSON_parse. cbn [alloc_json]. rewrite (alloc_json_scalar x _ Hx). reflexivity. }
  assert (H0' : h1 !! obj_proto = Some Object_prototype) by (apply lookup_app_l_Some, H0).
  assert (Ht' : h1 !! table = Some o) by (apply lookup_app_l_Some, Ht).
  assert (Hn' : h1 !! length (st_heap st) = Some src)
    by (apply list_lookup_middle; reflexivity).
  exists (mkState (<[obj_proto := polluted_with k (scalar_value x)]> h1) (console st)).
  split.
  - unfold Vulnerable.update_profile. unfold bind at 1. rewrite Hparse.
    unfold bind at 1. unfold getM. cbn [st_heap].
    rewrite (get_proto_of_ordinary h1 table o H0' Ht' Hp Hown).
    cbn [String.eqb truthy negb orb]. unfold bind at 1.
    rewrite (unsafeMerge_copies_own_scalar fuel h1 (console st) (length (st_heap st)) k
               (scalar_value x) H0' Hn' (scalar_value_not_reference x) Hk).
    reflexivity.
  - unfold own. cbn [st_heap].
    rewrite list_lookup_insert_eq by (eapply lookup_lt_Some, H0').
    apply lookup_update_same.
Qed.

Lemma X12_witness :
  exists st',
    Vulnerable.update_profile (S 3) (VRef 12) "__proto__"
      (Some (JObj [("isAdmin", JBool true)]))
      (parse_state start (JObj [("alice", profile_alice); ("bob", profile_alice)]))
    = Normal (Response 200 "Profile updated" []) st'
    /\ own (st_heap st') obj_proto "isAdmin"
       = Some (PData (scalar_value (JBool true)) true true).
Proof.
  apply (X12_username_proto_reaches_Object_prototype
           (parse_state start (JObj [("alice", profile_alice); ("bob", profile_alice)]))
           12
           (plain_object [("alice", PData (VRef 10) true true);
                          ("bob", PData (VRef 11) true true)]));
    reflexivity.
Defined.





(** ** Merging into an object without prototype *)

Lemma distinct_keys_obj (kvs : list (string * json)) :
  distinct_keys (JObj kvs) = distinct (map fst kvs) && distinct_fields kvs.
Proof.
  reflexivity.
Qed.

Lemma mem_string_false (k : string) (ks : list string) (k' : string) :
  mem_string k ks = false -> In k' ks -> k' <> k.
Proof.
  unfold mem_string. intros Hm Hin ->.
  assert (E : existsb (String.eqb k) ks = true).
  { apply existsb_exists. exists k. split; [exact Hin | apply String.eqb_refl]. }
  congruence.
Qed.

Lemma lookup_prop_not_a_key {A : Type} (k : string) (kvs : list (string * A)) :
  mem_string k (map fst kvs) = false -> lookup_prop k kvs = None.
Proof.
  unfold mem_string. induction kvs as [|[k' v] r IH]; [reflexivity|].
  cbn [map fst existsb lookup_prop]. destruct (String.eqb k k'); [discriminate|].
  exact IH.
Qed.

Lemma find_prop_without_prototype (h : heap) (l : loc) (o : obj) (k : string) :
  h !! l = Some o -> proto o = None ->
  find_prop (length h) h l k = lookup_prop k (props o).
Proof.
  intros Hl Hp. assert (Hlt : l < length h) by (eapply lookup_lt_Some, Hl).
  destruct (length h) as [|n]; [lia|].
  cbn [find_prop]. rewrite Hl, Hp. destruct (lookup_prop k (props o)); reflexivity.
Qed.

Lemma get_without_prototype (h : heap) (l : loc) (o : obj) (k : string) :
  h !! l = Some o -> proto o = None ->
  get h (VRef l) k = Some (value_of_prop None (lookup_prop k (props o))).
Proof.
  intros Hl Hp. unfold get, proto_of.
  rewrite (find_prop_without_prototype h l o k Hl Hp), Hl, Hp. reflexivity.
Qed.

Lemma open_object_parts (o : obj) :
  open_object o = true ->
  proto o = None /\ extensible o = true
  /\ forall k p, lookup_prop k (props o) = Some p -> exists v e, p = PData v true e.
Proof.
  unfold open_object. destruct (proto o); [discriminate|].
  intros H. apply andb_true_iff in H. destruct H as [He Hf].
  split; [reflexivity|]. split; [exact He|].
  intros k p Hk. apply lookup_prop_In in Hk.
  rewrite List.forallb_forall in Hf. specialize (Hf _ Hk). cbn [snd] in Hf.
  destruct p as [v [|] e|]; try discriminate. eauto.
Qed.

Lemma open_object_update (o : obj) (k : string) (v : value) (e : bool) :
  open_object o = true ->
  open_object (with_props o (update_prop k (PData v true e) (props o))) = true.
Proof.
  unfold open_object. cbn [with_props proto extensible props].
  destruct (proto o); [discriminate|]. intros H.
  apply andb_true_iff in H. destruct H as [He Hf]. rewrite He. cbn [andb].
  rewrite List.forallb_forall in Hf. apply List.forallb_forall. intros [k' p'] Hin.
  apply update_prop_In in Hin. destruct Hin as [Heq|Hin].
  - inversion Heq; subst. reflexivity.
  - apply (Hf _ Hin).
Qed.

Lemma open_object_writable (h : heap) (l : loc) (o : obj) (k : string) :
  h !! l = Some o -> open_object o = true -> slot_writable h l k = true.
Proof.
  intros Hl Ho. destruct (open_object_parts o Ho) as [Hp [He Hd]].
  unfold slot_writable. rewrite (find_prop_without_prototype h l o k Hl Hp), Hl.
  destruct (lookup_prop k (props o)) as [p|] eqn:Hk; [|exact He].
  destruct (Hd k p Hk) as [v [e ->]]. reflexivity.
Qed.

Lemma open_object_stored (h : heap) (l : loc) (o : obj) (k : string) (v : value) :
  h !! l = Some o -> open_object o = true ->
  exists e, assign false h (VRef l) k v
            = Some (<[l := with_props o (update_prop k (PData v true e) (props o))]> h).
Proof.
  intros Hl Ho.
  destruct (slot_writable_assign h l k v (open_object_writable h l o k Hl Ho))
    as [h' [Ha [o0 [e [Hl0 ->]]]]].
  rewrite Hl in Hl0. inversion Hl0; subst o0. exists e. exact Ha.
Qed.

Lemma open_object_reads_no_object (h : heap) (l : loc) (o : obj) (k : string) :
  h !! l = Some o -> open_object o = true -> holds_no_object o k = true ->
  exists tv, get h (VRef l) k = Some tv
             /\ negb (truthy tv) || negb (String.eqb (typeof h tv) "object") = true.
Proof.
  intros Hl Ho Hk. destruct (open_object_parts o Ho) as [Hp [_ Hd]].
  rewrite (get_without_prototype h l o k Hl Hp).
  eexists. split; [reflexivity|].
  unfold holds_no_object in Hk.
  destruct (lookup_prop k (props o)) as [p|] eqn:E; [|reflexivity].
  destruct (Hd k p E) as [v [e ->]]. cbn [value_of_prop].
  destruct v; try discriminate; cbn [truthy typeof negb orb];
    try reflexivity; apply orb_true_r.
Qed.

Lemma alloc_json_extends (j : json) (h : heap) :
  exists suf, snd (alloc_json j h) = h ++ suf.
Proof.
  destruct (alloc_json_spec (fun _ => True) j (fun _ _ => Logic.I) h) as [suf [E _]].
  exists suf. exact E.
Qed.

Lemma merged_into_nothing (h : heap) (l : loc) (o : obj) (kvs : list (string * json)) :
  h !! l = Some o -> open_object o = true ->
  (forall k x, lookup_prop k kvs = Some x -> DANGEROUS_KEYS_has k = false ->
               is_container x = true) ->
  merged_into h l kvs h.
Proof.
  intros Hl Ho Hnone. split; [lia|]. split; [reflexivity|].
  exists o, o. repeat split; try assumption.
  intros k x Hk Hd Hx. rewrite (Hnone k x Hk Hd) in Hx. discriminate.
Qed.

Lemma lookup_prop_single {A : Type} (k k' : string) (x : A) :
  lookup_prop k' [(k, x)] = if String.eqb k' k then Some x else None.
Proof. reflexivity. Qed.

(** The store after [l[k] = v], for an open [l]. *)
Lemma merged_into_write (h : heap) (suf : heap) (l : loc) (o : obj) (k : string)
    (x : json) (v : value) (e : bool) :
  h !! l = Some o -> open_object o = true -> DANGEROUS_KEYS_has k = false ->
  (is_container x = false -> v = scalar_value x) ->
  merged_into h l [(k, x)]
    (<[l := with_props o (update_prop k (PData v true e) (props o))]> (h ++ suf)).
Proof.
  intros Hl Ho Hd Hv.
  assert (Hlt : l < length h) by (eapply lookup_lt_Some, Hl).
  split; [rewrite length_insert, length_app; lia|]. split.
  { intros l' Hl' Hne. rewrite list_lookup_insert_ne by congruence.
    apply lookup_app_l. exact Hl'. }
  exists o, (with_props o (update_prop k (PData v true e) (props o))).
  split; [exact Hl|]. split.
  { apply list_lookup_insert_eq. rewrite length_app. lia. }
  split; [apply open_object_update, Ho|]. split.
  - intros k' Hk'. cbn [with_props props]. apply lookup_update_other.
    intros ->. destruct Hk' as [Hk'|Hk']; [congruence|].
    rewrite lookup_prop_single, String.eqb_refl in Hk'. discriminate.
  - intros k' x' Hk' _ Hx'. rewrite lookup_prop_single in Hk'.
    destruct (String.eqb k' k) eqn:E; [|discriminate].
    apply String.eqb_eq in E. subst k'. inversion Hk'; subst x'.
    exists e. cbn [with_props props]. rewrite (Hv Hx'). apply lookup_update_same.
Qed.

Lemma merged_into_later (h h1 h2 : heap) (l r : loc) (kvs : list (string * json))
    (sub : list (string * json)) :
  merged_into h l kvs h1 -> merged_into h1 r sub h2 ->
  length h <= r ->
  merged_into h l kvs h2.
Proof.
  intros [Hlen [Hoth [o [o1 [Hl [Hl1 [Ho1 [Hsame Hnew]]]]]]]]
         [Hlen2 [Hoth2 _]] Hr.
  assert (Hlt : l < length h) by (eapply lookup_lt_Some, Hl).
  split; [lia|]. split.
  { intros l' Hl' Hne. rewrite Hoth2 by lia. apply Hoth; assumption. }
  exists o, o1. split; [exact Hl|]. split.
  { rewrite Hoth2 by lia. exact Hl1. }
  repeat split; assumption.
Qed.

Lemma merged_into_cons (h h1 h2 : heap) (l : loc) (k : string) (x : json)
    (rest : list (string * json)) :
  merged_into h l [(k, x)] h1 -> merged_into h1 l rest h2 ->
  lookup_prop k rest = None ->
  merged_into h l ((k, x) :: rest) h2.
Proof.
  intros [Hlen [Hoth [o [o1 [Hl [Hl1 [Ho1 [Hsame Hnew]]]]]]]]
         [Hlen2 [Hoth2 [o1' [o2 [Hl1' [Hl2 [Ho2 [Hsame2 Hnew2]]]]]]]] Hk.
  rewrite Hl1 in Hl1'. inversion Hl1'; subst o1'.
  assert (Hlt : l < length h) by (eapply lookup_lt_Some, Hl).
  split; [lia|]. split.
  { intros l' Hl' Hne. rewrite Hoth2 by (try lia; exact Hne). apply Hoth; assumption. }
  exists o, o2. split; [exact Hl|]. split; [exact Hl2|]. split; [exact Ho2|]. split.
  - intros k' Hk'. rewrite Hsame2, Hsame; [reflexivity| |].
    + destruct Hk' as [Hk'|Hk']; [left; exact Hk'|]. right.
      cbn [lookup_prop] in Hk'. rewrite lookup_prop_single.
      destruct (String.eqb k' k); [discriminate | reflexivity].
    + destruct Hk' as [Hk'|Hk']; [left; exact Hk'|]. right.
      cbn [lookup_prop] in Hk'. destruct (String.eqb k' k); [discriminate | exact Hk'].
  - intros k' x' Hk' Hd Hx. cbn [lookup_prop] in Hk'.
    destruct (String.eqb k' k) eqn:E.
    + apply String.eqb_eq in E. subst k'. inversion Hk'; subst x'.
      rewrite Hsame2 by (right; exact Hk).
      apply (Hnew k x); [|exact Hd|exact Hx].
      rewrite lookup_prop_single, String.eqb_refl. reflexivity.
    + apply (Hnew2 k' x' Hk' Hd Hx).
Qed.

Lemma safeMerge_entry_open (k : string) (x : json) (st : state) (l : loc) (o : obj) :
  merges_cleanly x -> distinct_keys x = true ->
  st_heap st !! l = Some o -> open_object o = true -> holds_no_object o k = true ->
  exists st', safeMerge_entry (VRef l) k x st = Normal tt st'
              /\ merged_into (st_heap st) l [(k, x)] (st_heap st').
Proof.
  intros IH Hdist Hl Ho Hk.
  assert (Hlt : l < length (st_heap st)) by (eapply lookup_lt_Some, Hl).
  unfold safeMerge_entry, safeMerge_step.
  destruct (DANGEROUS_KEYS_has k) eqn:Hd.
  { eexists. split; [reflexivity|]. cbn [st_heap].
    apply (merged_into_nothing _ l o); try assumption.
    intros k' x' Hk'. rewrite lookup_prop_single in Hk'.
    destruct (String.eqb k' k) eqn:E; [|discriminate].
    apply String.eqb_eq in E. subst k'. congruence. }
  assert (Hscalar :
            exists st', (let* v := JSON_parse x in putM (VRef l) k v) st = Normal tt st'
                        /\ merged_into (st_heap st) l [(k, x)] (st_heap st')).
  { unfold bind, JSON_parse.
    destruct (alloc_json_extends x (st_heap st)) as [suf Hsuf].
    assert (Hv : is_container x = false -> fst (alloc_json x (st_heap st)) = scalar_value x).
    { intros Hx. rewrite (alloc_json_scalar x _ Hx). reflexivity. }
    destruct (alloc_json x (st_heap st)) as [v h1]. cbn [fst snd] in Hsuf, Hv. subst h1.
    unfold putM. cbn [st_heap console].
    destruct (open_object_stored (st_heap st ++ suf) l o k v
                (lookup_app_l_Some _ _ _ _ Hl) Ho) as [e ->].
    eexists. split; [reflexivity|]. cbn [st_heap].
    apply merged_into_write; assumption. }
  destruct x as [| b | z | s | xs | sub]; try exact Hscalar.
  clear Hscalar.
  destruct (open_object_reads_no_object _ l o k Hl Ho Hk) as [tv [Hg Hc]].
  set (h := st_heap st) in *. set (r := length h).
  set (h1 := h ++ [null_object]).
  assert (Hl1 : h1 !! l = Some o) by (apply lookup_app_l_Some, Hl).
  destruct (open_object_stored h1 l o k (VRef r) Hl1 Ho) as [e Ha].
  set (o1 := with_props o (update_prop k (PData (VRef r) true e) (props o))) in *.
  set (h2 := <[l := o1]> h1) in *.
  assert (Hr2 : h2 !! r = Some null_object).
  { unfold h2. rewrite list_lookup_insert_ne by (unfold r; lia).
    apply list_lookup_middle. reflexivity. }
  assert (Hg2 : get h2 (VRef l) k = Some (VRef r)).
  { apply (stored_get h1 l k (VRef r) h2). exists o, e. split; [exact Hl1 | reflexivity]. }
  destruct (IH sub eq_refl Hdist (mkState h2 (console st)) r null_object Hr2 eq_refl)
    as [st3 [Hrun Hm3]].
  { intros k' _. reflexivity. }
  exists st3. split.
  - unfold bind, getM, typeofM, Object_create_null, allocM, putM, ret.
    fold h. rewrite Hg. cbn [st_heap console]. fold h. rewrite Hc.
    cbn [st_heap console]. fold h. fold h1. fold r. rewrite Ha. cbn [st_heap console].
    fold h2. rewrite Hg2. rewrite Hrun. reflexivity.
  - cbn [st_heap] in Hm3.
    apply (merged_into_later h h2 (st_heap st3) l r [(k, JObj sub)] sub);
      [|exact Hm3|unfold r; lia].
    unfold h2, o1, h1. apply merged_into_write; try assumption. discriminate.
Qed.

Lemma safeMerge_fields_open (kvs : list (string * json)) :
  Forall (fun kv => merges_cleanly (snd kv)) kvs ->
  distinct (map fst kvs) = true -> distinct_fields kvs = true ->
  forall st l o,
    st_heap st !! l = Some o -> open_object o = true ->
    (forall k, In k (map fst kvs) -> holds_no_object o k = true) ->
    exists st', safeMerge_fields (VRef l) kvs st = Normal tt st'
                /\ merged_into (st_heap st) l kvs (st_heap st').
Proof.
  induction kvs as [|[k x] rest IH]; intros HF Hd Hdf st l o Hl Ho Hno.
  - exists st. split; [reflexivity|].
    apply (merged_into_nothing _ l o); try assumption. intros k x [=].
  - inversion HF as [|? ? Hx Hrest]; subst. cbn [snd] in Hx.
    cbn [map fst distinct] in Hd. apply andb_true_iff in Hd. destruct Hd as [Hk Hd].
    apply negb_true_iff in Hk.
    cbn [distinct_fields] in Hdf. apply andb_true_iff in Hdf. destruct Hdf as [Hdx Hdf].
    destruct (safeMerge_entry_open k x st l o Hx Hdx Hl Ho) as [st1 [Hrun1 Hm1]].
    { apply Hno. left. reflexivity. }
    pose proof Hm1 as [_ [_ [o0 [o1 [Hl0 [Hl1 [Ho1 [Hsame _]]]]]]]].
    rewrite Hl in Hl0. inversion Hl0; subst o0.
    destruct (IH Hrest Hd Hdf st1 l o1 Hl1 Ho1) as [st2 [Hrun2 Hm2]].
    { intros k' Hin. unfold holds_no_object. rewrite Hsame.
      - apply Hno. right. exact Hin.
      - right. rewrite lookup_prop_single.
        destruct (String.eqb k' k) eqn:E; [|reflexivity].
        apply String.eqb_eq in E. exfalso.
        exact (mem_string_false k _ k' Hk Hin E). }
    exists st2. split.
    + cbn [safeMerge_fields]. unfold bind at 1. rewrite Hrun1. exact Hrun2.
    + eapply merged_into_cons; [exact Hm1 | exact Hm2|].
      apply lookup_prop_not_a_key, Hk.
Qed.

Lemma safeMerge_merges_cleanly (v : json) : merges_cleanly v.
Proof.
  induction v as [| b | z | s | xs IH | kvs IH] using json_ind';
    intros kvs' Heq; try discriminate.
  inversion Heq; subst kvs'. clear Heq.
  intros Hd st l o Hl Ho Hno.
  rewrite distinct_keys_obj in Hd. apply andb_true_iff in Hd. destruct Hd as [Hd Hdf].
  destruct (safeMerge_fields_open kvs IH Hd Hdf st l o Hl Ho Hno) as [st' [Hrun Hm]].
  exists st'. split; [|exact Hm].
  rewrite safeMerge_obj_eq. unfold bind. rewrite Hrun. reflexivity.
Qed.

(** X14. [safeMerge] of a mapping into an object that has no prototype and
    takes every write, and that holds no object under the source's keys,
    completes and returns its target.  Afterwards the target reads back
    every scalar of the source under its key, unless the key is denied; at
    a denied key and at a key the source does not have it reads what it
    read before; and no other object that existed has changed. *)
Theorem X14_safeMerge_into_an_open_object (st : state) (l : loc) (o : obj)
    (kvs : list (string * json)) :
  distinct_keys (JObj kvs) = true ->
  st_heap st !! l = Some o -> open_object o = true ->
  (forall k, In k (map fst kvs) -> holds_no_object o k = true) ->
  exists st',
    safeMerge (VRef l) (JObj kvs) st = Normal (VRef l) st'
    /\ (forall k x, lookup_prop k kvs = Some x -> DANGEROUS_KEYS_has k = false ->
                    is_container x = false ->
                    get (st_heap st') (VRef l) k = Some (scalar_value x))
    /\ (forall k, DANGEROUS_KEYS_has k = true \/ lookup_prop k kvs = None ->
                  get (st_heap st') (VRef l) k = get (st_heap st) (VRef l) k)
    /\ (forall l', l' < length (st_heap st) -> l' <> l ->
                   st_heap st' !! l' = st_heap st !! l').
Proof.
  intros Hd Hl Ho Hno.
  destruct (safeMerge_merges_cleanly (JObj kvs) kvs eq_refl Hd st l o Hl Ho Hno)
    as [st' [Hrun [_ [Hoth [o0 [o' [Hl0 [Hl' [Ho' [Hsame Hnew]]]]]]]]]].
  rewrite Hl in Hl0. inversion Hl0; subst o0.
  destruct (open_object_parts o Ho) as [Hp _].
  destruct (open_object_parts o' Ho') as [Hp' _].
  exists st'. split; [exact Hrun|]. split; [|split; [|exact Hoth]].
  - intros k x Hk Hdk Hx. destruct (Hnew k x Hk Hdk Hx) as [e He].
    rewrite (get_without_prototype _ l o' k Hl' Hp'), He. reflexivity.
  - intros k Hk.
    rewrite (get_without_prototype _ l o' k Hl' Hp'),
            (get_without_prototype _ l o k Hl Hp), (Hsame k Hk).
    reflexivity.
Qed.

Lemma X14_witness :
  exists st',
    safeMerge (VRef (length realm))
      (JObj [("timeout", JNum 5); ("__proto__", JObj [("timeout", JStr "x")]);
             ("theme", JObj [("name", JStr "dark")])])
      (alloc_state start Fixed.defaults)
    = Normal (VRef (length realm)) st'
    /\ (forall k x,
          lookup_prop k [("timeout", JNum 5); ("__proto__", JObj [("timeout", JStr "x")]);
                         ("theme", JObj [("name", JStr "dark")])] = Some x ->
          DANGEROUS_KEYS_has k = false -> is_container x = false ->
          get (st_heap st') (VRef (length realm)) k = Some (scalar_value x))
    /\ (forall k,
          DANGEROUS_KEYS_has k = true
          \/ lookup_prop k [("timeout", JNum 5); ("__proto__", JObj [("timeout", JStr "x")]);
                            ("theme", JObj [("name", JStr "dark")])] = None ->
          get (st_heap st') (VRef (length realm)) k
          = get (st_heap (alloc_state start Fixed.defaults)) (VRef (length realm)) k)
    /\ (forall l', l' < length (st_heap (alloc_state start Fixed.defaults)) ->
                   l' <> length realm ->
                   st_heap st' !! l' = st_heap (alloc_state start Fixed.defaults) !! l').
Proof.
  apply (X14_safeMerge_into_an_open_object (alloc_state start Fixed.defaults)
           (length realm) Fixed.defaults).
  - reflexivity.
  - reflexivity.
  - reflexivity.
  - intros k [<-|[<-|[<-|[]]]]; reflexivity.
Defined.






(** ** The [safeMerge] of the demo *)

Lemma demo_safeMerge_obj_eq (target : value) (kvs : list (string * json)) (st : state) :
  Demo.safeMerge target (JObj kvs) st = (demo_fields target kvs ;; ret target) st.
Proof.
  cbn [Demo.safeMerge].
  match goal with
  | |- bind (?F kvs) _ st = _ =>
      assert (HF : forall l s, F l s = demo_fields target l s)
  end.
  { induction l as [|[key v] rest IH]; intros s; [reflexivity|].
    match type of IH with
    | forall s, ?F rest s = _ =>
        change (bind (demo_entry target key v) (fun _ => F rest) s
                = demo_fields target ((key, v) :: rest) s)
    end.
    cbn [demo_fields]. unfold bind.
    destruct (demo_entry target key v s); [apply IH | reflexivity]. }
  unfold bind. rewrite HF. reflexivity.
Qed.

Lemma demo_safeMerge_arr_eq (target : value) (xs : list json) (st : state) :
  Demo.safeMerge target (JArr xs) st = (demo_elems target 0 xs ;; ret target) st.
Proof.
  cbn [Demo.safeMerge].
  match goal with
  | |- bind (?F 0 xs) _ st = _ =>
      assert (HF : forall l i s, F i l s = demo_elems target i l s)
  end.
  { induction l as [|v rest IH]; intros i s; [reflexivity|].
    match type of IH with
    | forall i s, ?F i rest s = _ =>
        change (bind (demo_entry target (index_key i) v) (fun _ => F (S i) rest) s
                = demo_elems target i (v :: rest) s)
    end.
    cbn [demo_elems]. unfold bind.
    destruct (demo_entry target (index_key i) v s); [apply IH | reflexivity]. }
  unfold bind. rewrite HF. reflexivity.
Qed.

Section demo_invariant.
Variable I : state -> Prop.          (* the invariant *)
Variable T : value -> Prop.          (* the targets, and the values written *)

Hypothesis I_print : forall st line, I st -> I (print_state st line).
Hypothesis I_null : forall st,
  I st -> I (alloc_state st null_object) /\ T (VRef (length (st_heap st))).
Hypothesis T_scalar : forall j, T (scalar_value j).
Hypothesis I_put : forall st t k v h',
  I st -> T t -> Demo.BLOCKED_has k = false -> T v ->
  assign false (st_heap st) t k v = Some h' ->
  I (mkState h' (console st)).
Hypothesis T_get : forall st t k v,
  I st -> T t -> Demo.BLOCKED_has k = false ->
  get (st_heap st) t k = Some v -> T v.

Lemma demo_put_inv (t : value) (k : string) (v : value) :
  T t -> Demo.BLOCKED_has k = false -> T v ->
  triple I (putM t k v) (fun _ => I) I.
Proof.
  intros Ht Hd Hv st HI. unfold putM.
  destruct (assign false (st_heap st) t k v) as [h'|] eqn:Ha; [|exact HI].
  exact (I_put st t k v h' HI Ht Hd Hv Ha).
Qed.

Lemma demo_entry_inv (target : value) (key : string) (v : json) :
  T target -> demo_kept I T v ->
  triple I (demo_entry target key v) (fun _ => I) I.
Proof.
  intros Ht IH. unfold demo_entry.
  destruct (Demo.BLOCKED_has key) eqn:Hd.
  { intros st HI. apply I_print, HI. }
  assert (Hscalar : triple I (putM target key (scalar_value v)) (fun _ => I) I).
  { apply demo_put_inv; auto. }
  assert (Hdeep : triple I
            (let* tv := getM target key in
             let* t0 := (if truthy tv then ret tv else Object_create_null) in
             let* r := Demo.safeMerge t0 v in
             putM target key r) (fun _ => I) I).
  { eapply triple_bind with (R := fun tv st => I st /\ T tv).
    { intros st HI. unfold getM.
      destruct (get (st_heap st) target key) as [tv|] eqn:Hg; [|exact HI].
      split; [exact HI | eapply T_get; eauto]. }
    intros tv.
    eapply triple_bind with (R := fun t0 st => I st /\ T t0).
    { destruct (truthy tv).
      - apply triple_ret. auto.
      - intros st [HI _]. apply I_null, HI. }
    intros t0.
    eapply triple_bind with (R := fun r st => I st /\ T r).
    { intros st [HI Ht0]. specialize (IH t0 Ht0 st HI).
      destruct (Demo.safeMerge t0 v st) as [r st'|e st']; [|exact IH].
      destruct IH as [HI' ->]. split; assumption. }
    intros r st [HI Hr]. revert st HI. apply demo_put_inv; assumption. }
  destruct v; first [exact Hscalar | exact Hdeep].
Qed.

Lemma demo_fields_inv (target : value) (kvs : list (string * json)) :
  T target -> Forall (fun kv => demo_kept I T (snd kv)) kvs ->
  triple I (demo_fields target kvs) (fun _ => I) I.
Proof.
  intros Ht. induction kvs as [|[k v] rest IH]; intros HF; cbn [demo_fields].
  - apply triple_ret. auto.
  - inversion HF as [|? ? Hv Hrest]; subst. cbn [snd] in Hv.
    eapply triple_bind; [apply demo_entry_inv; assumption|]. intros u. apply IH, Hrest.
Qed.

Lemma demo_elems_inv (target : value) (xs : list json) :
  T target -> Forall (demo_kept I T) xs ->
  forall i, triple I (demo_elems target i xs) (fun _ => I) I.
Proof.
  intros Ht. induction xs as [|v rest IH]; intros HF i; cbn [demo_elems].
  - apply triple_ret. auto.
  - inversion HF as [|? ? Hv Hrest]; subst.
    eapply triple_bind; [apply demo_entry_inv; assumption|]. intros u. apply IH, Hrest.
Qed.

Lemma demo_put_all_inv (target : value) (kvs : list (string * value)) :
  T target ->
  Forall (fun kv => Demo.BLOCKED_has (fst kv) = false /\ T (snd kv)) kvs ->
  triple I (put_all target kvs) (fun _ => I) I.
Proof.
  intros Ht. induction kvs as [|[k v] rest IH]; intros HF; cbn [put_all].
  - apply triple_ret. auto.
  - inversion HF as [|? ? [Hd Hv] Hrest]; subst. cbn [fst snd] in Hd, Hv.
    eapply triple_bind; [apply demo_put_inv; assumption|]. intros u. apply IH, Hrest.
Qed.

(** Whatever the source, a run of the demo's [safeMerge] keeps the
    invariant, and a run that completes returns its target. *)
Lemma demo_safeMerge_inv (source : json) : demo_kept I T source.
Proof.
  induction source as [| b | z | s | xs IH | kvs IH] using json_ind';
    intros target Ht.
  - intros st HI. exact HI.
  - intros st HI. split; [exact HI | reflexivity].
  - intros st HI. split; [exact HI | reflexivity].
  - cbn [Demo.safeMerge]. eapply triple_bind with (R := fun _ st => I st).
    + apply demo_put_all_inv; [assumption|].
      apply List.Forall_forall. intros [k v] Hin. cbn [fst snd].
      unfold string_entries in Hin. apply in_map_iff in Hin.
      destruct Hin as [i [Heq Hi]]. inversion Heq; subst.
      split; [exact (index_key_not_denied i) | exact (T_scalar (JStr _))].
    + intros u. apply triple_ret. auto.
  - intros st HI. rewrite demo_safeMerge_arr_eq. revert st HI.
    eapply triple_bind with (R := fun _ st => I st).
    + apply demo_elems_inv; assumption.
    + intros u. apply triple_ret. auto.
  - intros st HI. rewrite demo_safeMerge_obj_eq. revert st HI.
    eapply triple_bind with (R := fun _ st => I st).
    + apply demo_fields_inv; assumption.
    + intros u. apply triple_ret. auto.
Qed.
End demo_invariant.

Lemma demo_safeMerge_keeps_frozen (o : obj) (p : loc) (target : value) (source : json) :
  frozen o = true ->
  triple (fun st => st_heap st !! p = Some o) (Demo.safeMerge target source)
         (fun _ st => st_heap st !! p = Some o)
         (fun st => st_heap st !! p = Some o).
Proof.
  intros Hf st HI.
  pose proof (demo_safeMerge_inv (fun st => st_heap st !! p = Some o) (fun _ => True)) as H.
  assert (H' : triple (fun st => st_heap st !! p = Some o) (Demo.safeMerge target source)
                 (fun r st => st_heap st !! p = Some o /\ r = target)
                 (fun st => st_heap st !! p = Some o)).
  { apply H; auto.
    - intros s HIs. split; [|exact Logic.I]. unfold alloc_state. cbn [st_heap].
      rewrite lookup_app_l; [exact HIs | eapply lookup_lt_Some, HIs].
    - intros s t k v h' HIs _ _ _ Ha. cbn [st_heap].
      eapply assign_frozen; eassumption. }
  specialize (H' st HI).
  destruct (Demo.safeMerge target source st); [exact (proj1 H') | exact H'].
Qed.

Lemma demo_safeMerge_keeps_ancestor (o : option obj) (target : value) (source : json) :
  is_ref_to obj_proto target = false ->
  triple (ancestor_kept o) (Demo.safeMerge target source)
         (fun _ => ancestor_kept o) (ancestor_kept o).
Proof.
  intros Ht st HI.
  assert (H' : triple (ancestor_kept o) (Demo.safeMerge target source)
                 (fun r st => ancestor_kept o st /\ r = target) (ancestor_kept o)).
  { apply demo_safeMerge_inv with (T := fun t => is_ref_to obj_proto t = false); auto.
    - intros s [H0 [Hc Hn]]. split.
      + unfold alloc_state, ancestor_kept. cbn [st_heap]. split; [|split].
        * rewrite lookup_app_l; [exact H0 | exact Hn].
        * apply clean_links_app; [exact Hc|]. constructor; [|constructor].
          intros k p [].
        * rewrite length_app. lia.
      + cbn. destruct (length (st_heap s)); [lia | reflexivity].
    - intros j. destruct j; reflexivity.
    - intros s t k v h' [H0 [Hc Hn]] HT Hd HV Ha.
      unfold ancestor_kept. cbn [st_heap].
      destruct (assign_effect _ _ _ _ _ _ Ha) as [->|[l [-> He]]]; [auto|].
      split; [|split].
      + rewrite <- H0. eapply write_effect_other; [exact He|].
        intros <-. cbn in HT. discriminate.
      + eapply write_effect_clean; eassumption.
      + rewrite (write_effect_length _ _ _ _ _ He). exact Hn.
    - intros s t k v [_ [Hc _]] _ Hd Hg. eapply get_clean; eassumption. }
  specialize (H' st HI).
  destruct (Demo.safeMerge target source st); [exact (proj1 H') | exact H'].
Qed.

(** X16. The [safeMerge] of the demo, which has no test for arrays and
    writes back what the recursive call returns, keeps [Object.prototype]
    as it was too: for every source, and for every target in a store where
    [Object.prototype] is frozen or where nothing but the three blocked
    names links to it, whether the run completes or throws. *)
Theorem X16_demo_safeMerge_keeps_Object_prototype (st : state) (target : value)
    (source : json) :
  ancestor_guarded (st_heap st) target ->
  st_heap (final_state (Demo.safeMerge target source st)) !! obj_proto
  = st_heap st !! obj_proto.
Proof.
  intros [Hg|[Ht [Hc Hn]]].
  - unfold guard_installed in Hg.
    destruct (st_heap st !! obj_proto) as [o|] eqn:Ho; [|discriminate].
    pose proof (demo_safeMerge_keeps_frozen o obj_proto target source Hg st Ho) as H.
    destruct (Demo.safeMerge target source st); exact H.
  - pose proof (demo_safeMerge_keeps_ancestor (st_heap st !! obj_proto) target source Ht st)
      as H.
    assert (Hk : ancestor_kept (st_heap st !! obj_proto) st) by (repeat split; assumption).
    specialize (H Hk).
    destruct (Demo.safeMerge target source st); destruct H as [H _]; exact H.
Qed.

(** The call of the demo: the profile [{username: 'alice'}] receives the
    payload of the attack. *)
Lemma X16_witness :
  st_heap (final_state
             (Demo.safeMerge (VRef 10) attack_payload (parse_state start profile_alice)))
    !! obj_proto
  = st_heap (parse_state start profile_alice) !! obj_proto.
Proof.
  apply X16_demo_safeMerge_keeps_Object_prototype.
  right. split; [reflexivity|]. split; [reflexivity|]. cbn. lia.
Defined.


(** ** [unsafeMerge] on sources without the three names *)

Section unsafeMerge_tracked.
Variable I : state -> Prop.          (* the invariant *)
Variable T : value -> Prop.          (* the targets, and the values written *)
Variable K : string -> Prop.         (* the keys the loops meet *)

Hypothesis I_keys : forall st s k,
  I st -> In k (for_in_keys (st_heap st) s) -> K k.
Hypothesis I_new : forall st,
  I st -> I (alloc_state st empty_object) /\ T (VRef (length (st_heap st))).
Hypothesis I_put : forall st t k v h',
  I st -> T t -> K k -> T v ->
  assign false (st_heap st) t k v = Some h' -> I (mkState h' (console st)).
Hypothesis T_get : forall st t k v,
  I st -> K k -> get (st_heap st) t k = Some v -> T v.

Lemma getM_tracked (t : value) (k : string) :
  K k -> triple I (getM t k) (fun v st => I st /\ T v) I.
Proof.
  intros Hk st HI. unfold getM.
  destruct (get (st_heap st) t k) as [v|] eqn:Hg; [|exact HI].
  split; [exact HI | exact (T_get st t k v HI Hk Hg)].
Qed.

Lemma putM_tracked (t : value) (k : string) (v : value) :
  T t -> K k -> T v -> triple I (putM t k v) (fun _ => I) I.
Proof.
  intros Ht Hk Hv st HI. unfold putM.
  destruct (assign false (st_heap st) t k v) as [h'|] eqn:Ha; [|exact HI].
  exact (I_put st t k v h' HI Ht Hk Hv Ha).
Qed.

Lemma unsafeMerge_key_tracked (n : nat) (target source : value) (key : string) :
  T target -> K key ->
  (forall t s, T t -> triple I (unsafeMerge n t s) (fun _ => I) I) ->
  triple I (unsafeMerge_key n target source key) (fun _ => I) I.
Proof.
  intros Ht Hk IH. unfold unsafeMerge_key, unsafeMerge_step.
  eapply triple_bind; [apply getM_tracked, Hk|]. intros v. cbn beta.
  eapply triple_bind with (R := fun _ st => I st /\ T v); [intros st HI; exact HI|].
  intros ty.
  destruct (String.eqb ty "object" && negb (is_null v)).
  - eapply triple_bind with (R := fun _ => I).
    + eapply triple_bind with (R := fun _ st => I st).
      { intros st [HI _]. revert st HI.
        eapply triple_weaken; [apply getM_tracked, Hk| | |]; cbn beta; tauto. }
      intros tv. destruct (negb (truthy tv)); [|apply triple_ret; auto].
      eapply triple_bind with (R := fun o st => I st /\ T o).
      * intros st HI. apply I_new, HI.
      * intros o st [HI Ho]. revert st HI. apply putM_tracked; assumption.
    + intros u. eapply triple_bind; [apply getM_tracked, Hk|]. intros tv'. cbn beta.
      eapply triple_bind with (R := fun _ st => I st /\ T tv').
      { intros st [HI HT]. unfold getM.
        destruct (get (st_heap st) source key); [split; assumption | exact HI]. }
      intros sv.
      eapply triple_bind with (R := fun _ => I).
      * intros st [HI HT]. revert st HI. apply IH, HT.
      * intros u'. apply triple_ret. auto.
  - intros st [HI Hv]. revert st HI. apply putM_tracked; assumption.
Qed.

Lemma unsafeMerge_keys_tracked (n : nat) (target source : value) (keys : list string) :
  T target -> Forall K keys ->
  (forall t s, T t -> triple I (unsafeMerge n t s) (fun _ => I) I) ->
  triple I (unsafeMerge_keys n target source keys) (fun _ => I) I.
Proof.
  intros Ht HF IH. induction keys as [|key rest IHk]; cbn [unsafeMerge_keys].
  - apply triple_ret. auto.
  - inversion HF as [|? ? Hk Hrest]; subst.
    eapply triple_bind with (R := fun _ => I);
      [apply unsafeMerge_key_tracked; assumption|].
    intros u. apply IHk, Hrest.
Qed.

(** A run of [unsafeMerge] keeps the invariant, whatever the depth left. *)
Lemma unsafeMerge_tracked (fuel : nat) :
  forall target source, T target ->
  triple I (unsafeMerge fuel target source) (fun _ => I) I.
Proof.
  induction fuel as [|n IH]; intros target source Ht st HI.
  - exact HI.
  - rewrite unsafeMerge_unfold. revert st HI.
    eapply triple_bind with (R := fun keys st => I st /\ Forall K keys).
    { intros st HI. split; [exact HI|]. apply List.Forall_forall.
      intros k Hin. exact (I_keys st source k HI Hin). }
    intros keys.
    eapply triple_bind with (R := fun _ => I).
    + intros st [HI HF]. revert st HI. apply unsafeMerge_keys_tracked; assumption.
    + intros u. apply triple_ret. auto.
Qed.
End unsafeMerge_tracked.

Lemma plain_names_spec (h : heap) :
  plain_names h = true
  <-> forall l o, h !! l = Some o -> forall kp, In kp (props o) -> plain_name kp = true.
Proof.
  unfold plain_names. rewrite List.forallb_forall. split.
  - intros H l o Hl kp Hin.
    assert (Ho : In o h) by (apply list_elem_of_In, list_elem_of_lookup; eauto).
    specialize (H o Ho). rewrite List.forallb_forall in H. apply H, Hin.
  - intros H o Ho. apply list_elem_of_In, list_elem_of_lookup in Ho.
    destruct Ho as [l Hl]. apply List.forallb_forall. intros kp Hin.
    eapply H; eassumption.
Qed.

Lemma for_in_chain_plain (n : nat) (h : heap) (p : option loc) (seen : list string)
    (k : string) :
  plain_names h = true -> In k (for_in_chain n h p seen) ->
  DANGEROUS_KEYS_has k = false.
Proof.
  intros Hp. rewrite plain_names_spec in Hp.
  revert p seen. induction n as [|n IH]; intros p seen; cbn [for_in_chain]; [intros []|].
  destruct p as [l|]; [|intros []].
  destruct (h !! l) as [o|] eqn:Hl; [|intros []].
  intros Hin. apply in_app_or in Hin. destruct Hin as [Hin|Hin]; [|eapply IH, Hin].
  apply in_map_iff in Hin. destruct Hin as [[k' p'] [Heq Hin]]. cbn [fst] in Heq. subst k'.
  apply list_elem_of_In, list_elem_of_filter in Hin. destruct Hin as [He Hin].
  apply list_elem_of_In in Hin. specialize (Hp l o Hl _ Hin).
  unfold plain_name in Hp. cbn [fst snd] in Hp, He.
  destruct (is_enumerable p'); [|destruct He].
  destruct (DANGEROUS_KEYS_has k); [discriminate | reflexivity].
Qed.

Lemma for_in_keys_plain (h : heap) (s : value) (k : string) :
  plain_names h = true -> In k (for_in_keys h s) -> DANGEROUS_KEYS_has k = false.
Proof.
  intros Hp. destruct s as [| | b | z | s | l]; cbn [for_in_keys];
    try (intros []); try (apply for_in_chain_plain; exact Hp).
  intros Hin. apply in_app_or in Hin. destruct Hin as [Hin|Hin].
  - apply in_map_iff in Hin. destruct Hin as [i [<- _]]. apply index_key_not_denied.
  - eapply for_in_chain_plain; eassumption.
Qed.

Lemma plain_names_app (h : heap) (o : obj) :
  plain_names h = true -> forallb plain_name (props o) = true ->
  plain_names (h ++ [o]) = true.
Proof.
  unfold plain_names. intros Hh Ho. rewrite forallb_app. rewrite Hh. cbn [forallb].
  rewrite Ho. reflexivity.
Qed.

Lemma write_effect_plain (h : heap) (l : loc) (k : string) (v : value) (h' : heap) :
  clean_links h = true -> DANGEROUS_KEYS_has k = false ->
  plain_names h = true -> write_effect h l k v h' -> plain_names h' = true.
Proof.
  intros Hc Hd Hp [o e Hl _ _|o p Hl Hf _ _].
  - rewrite plain_names_spec in Hp |- *. intros l' o' Hl' kp Hin.
    apply list_lookup_insert_Some in Hl'.
    destruct Hl' as [[_ [<- _]]|[_ Hl']]; [|eapply Hp; eassumption].
    cbn [with_props props] in Hin. destruct kp as [k' p'].
    apply update_prop_In in Hin. destruct Hin as [Heq|Hin].
    + inversion Heq; subst. unfold plain_name. cbn [fst snd]. rewrite Hd.
      apply negb_true_iff, andb_false_r.
    + eapply Hp; eassumption.
  - destruct (find_prop_clean _ _ _ _ _ Hc Hd Hf) as [? [? [? [Heq _]]]]. discriminate.
Qed.

Lemma unsafeMerge_keeps_ancestor (o : option obj) (fuel : nat) (target source : value) :
  is_ref_to obj_proto target = false ->
  triple (unsafe_kept o) (unsafeMerge fuel target source)
         (fun _ => unsafe_kept o) (unsafe_kept o).
Proof.
  intros Ht.
  apply unsafeMerge_tracked with (T := fun t => is_ref_to obj_proto t = false)
                                 (K := fun k => DANGEROUS_KEYS_has k = false);
    [| | | |exact Ht].
  - intros st s k [_ Hp] Hin. eapply for_in_keys_plain; eassumption.
  - intros st [[H0 [Hc Hn]] Hp]. split.
    + unfold unsafe_kept, ancestor_kept, alloc_state. cbn [st_heap].
      split; [split; [|split]|].
      * rewrite lookup_app_l; [exact H0 | exact Hn].
      * apply clean_links_app; [exact Hc|]. constructor; [|constructor].
        intros k p [].
      * rewrite length_app. lia.
      * apply plain_names_app; [exact Hp | reflexivity].
    + cbn. destruct (length (st_heap st)); [lia | reflexivity].
  - intros st t k v h' [[H0 [Hc Hn]] Hp] HT Hd HV Ha.
    unfold unsafe_kept, ancestor_kept. cbn [st_heap].
    destruct (assign_effect _ _ _ _ _ _ Ha) as [->|[l [-> He]]]; [auto|].
    split; [split; [|split]|].
    + rewrite <- H0. eapply write_effect_other; [exact He|].
      intros <-. cbn in HT. discriminate.
    + eapply write_effect_clean; eassumption.
    + rewrite (write_effect_length _ _ _ _ _ He). exact Hn.
    + eapply write_effect_plain; eassumption.
  - intros st t k v [[_ [Hc _]] _] Hd Hg. eapply get_clean; eassumption.
Qed.

(** X17. [unsafeMerge] reaches [Object.prototype] through the three names
    only.  In a store where no object has an enumerable property named
    [__proto__], [constructor] or [prototype] (the source and what it
    refers to included), and where nothing but these names links to
    [Object.prototype], a run of [unsafeMerge] on a target other than
    [Object.prototype] leaves [Object.prototype] as it was, for every
    source and every depth, whether the run completes or throws. *)
Theorem X17_unsafeMerge_needs_a_denied_name (st : state) (fuel : nat)
    (target source : value) :
  is_ref_to obj_proto target = false ->
  clean_links (st_heap st) = true -> plain_names (st_heap st) = true ->
  0 < length (st_heap st) ->
  st_heap (final_state (unsafeMerge fuel target source st)) !! obj_proto
  = st_heap st !! obj_proto.
Proof.
  intros Ht Hc Hp Hn.
  pose proof (unsafeMerge_keeps_ancestor (st_heap st !! obj_proto) fuel target source Ht st)
    as H.
  assert (Hk : unsafe_kept (st_heap st !! obj_proto) st) by (repeat split; assumption).
  specialize (H Hk).
  destruct (unsafeMerge fuel target source st); destruct H as [[H _] _]; exact H.
Qed.

Lemma X17_witness :
  st_heap (final_state
             (unsafeMerge 5 (VRef 10) (VRef 12)
                (parse_state (parse_state start profile_alice) harmless_update)))
    !! obj_proto
  = st_heap (parse_state (parse_state start profile_alice) harmless_update) !! obj_proto.
Proof.
  apply X17_unsafeMerge_needs_a_denied_name; [reflexivity | reflexivity | reflexivity |].
  cbn. lia.
Defined.
